(** * wav-tools: frequency planner, sample quantizer and spectral scanner

    A shallow embedding of [wav-lib.c], [wav-generator.c] and
    [wav-analyzer.c], followed by the properties of the frequency plan,
    the quantizer, the detected-frequency list, the header validation and
    the expected/detected comparison.

    Conventions of the embedding:
    - an [unsigned int] is a [Z] in [[0, 2^32)]; every arithmetic operation
      of the source on unsigned operands is followed by [u32];
    - a [double] is a [spec_float] (binary64: precision 53, emax 1024);
    - a C array is a [list]; a write outside its allocation, a read at an
      index that the caller chooses, and a division by zero are undefined
      behaviour and make the embedded function return [None]; reads that
      the loop bounds of the source keep inside the local or 64-entry
      arrays use the total lookup [!!!];
    - libm ([sin], [cos], [hypot]), the GSL radix-2 transform and the
      allocator are external and collected in the class [Externals]. *)

From Stdlib Require Import ZArith Lia Bool.
From Stdlib Require Import Floats.SpecFloat.
From stdpp Require Import base option list list_numbers sorting gmap.

Local Open Scope Z_scope.

(** ** Machine integers *)

Module CInt.

Definition UINT_MAX : Z := 2 ^ 32 - 1.
Definition INT16_MAX : Z := 32767.
Definition INT32_MAX : Z := 2147483647.
Definition INT32_MIN : Z := - 2147483648.
Definition SIZE_MAX : Z := 2 ^ 64 - 1.

(** Wrap-around of [unsigned int] arithmetic. *)
Definition u32 (x : Z) : Z := x mod 2 ^ 32.

(** Conversion of a 32-bit pattern to [int] (two's complement). *)
Definition to_int32 (x : Z) : Z :=
  let y := x mod 2 ^ 32 in if y <? 2 ^ 31 then y else y - 2 ^ 32.

(** Conversion of an [int] to [size_t] (64-bit). *)
Definition to_size_t (x : Z) : Z := x mod 2 ^ 64.

Definition is_u32 (x : Z) : Prop := 0 <= x <= UINT_MAX.

(** [for (i = lo; ...; i++) body], run [n] times from [lo]; the body can
    be undefined. *)
Fixpoint for_range {S : Type} (n : nat) (i : Z)
    (body : Z -> S -> option S) (s : S) : option S :=
  match n with
  | O => Some s
  | Datatypes.S n' => s' ← body i s; for_range n' (i + 1) body s'
  end.

End CInt.
Import CInt.

(** ** Doubles *)

Module Double.

Definition double : Type := spec_float.

Definition prec : Z := 53.
Definition emax : Z := 1024.

Definition mul : double -> double -> double := SFmul prec emax.
Definition add : double -> double -> double := SFadd prec emax.
Definition sub : double -> double -> double := SFsub prec emax.
Definition div : double -> double -> double := SFdiv prec emax.
(** [a < b]; false when either is a NaN. *)
Definition lt : double -> double -> bool := SFltb.

(** Conversion of an integer to [double]. *)
Definition of_Z (z : Z) : double := binary_normalize prec emax z 0 false.

Definition zero : double := S754_zero false.
Definition half : double := binary_normalize prec emax 1 (-1) false.
(** [M_PI], the double nearest to pi: 0x400921FB54442D18. *)
Definition M_PI : double := S754_finite false 7074237752028440 (-51).


Definition is_finite (x : double) : bool :=
  match x with S754_zero _ | S754_finite _ _ _ => true | _ => false end.

(** Integral part of a finite double, rounded toward zero. *)
Definition trunc (x : double) : option Z :=
  match x with
  | S754_zero _ => Some 0
  | S754_finite s m e =>
      let q := if 0 <=? e then Z.pos m * 2 ^ e else Z.pos m / 2 ^ (- e) in
      Some (if s then - q else q)
  | _ => None
  end.

(** Conversion of a double to a signed integer type with range
    [[lo, hi]]: the fractional part is discarded; the behaviour is
    undefined when the integral part does not fit (C11 6.3.1.4). *)
Definition to_int (lo hi : Z) (x : double) : option Z :=
  q ← trunc x; if (lo <=? q) && (q <=? hi) then Some q else None.

(** The exact value of a finite double as a fraction [num / 2^k]. *)
Definition num_den (x : double) : Z * Z :=
  match x with
  | S754_finite s m e =>
      let n := if 0 <=? e then Z.pos m * 2 ^ e else Z.pos m in
      ((if s then - n else n), (if 0 <=? e then 1 else 2 ^ (- e)))
  | _ => (0, 1)
  end.

#[export] Instance double_inhabited : Inhabited double := populate zero.

End Double.
Import Double.

(** ** wav-lib.h / wav-lib.c *)

Module WavLib.

Definition MIN_FREQ : Z := 200.
Definition MIN_DURATION : Z := 3.

Record audio : Type := mk_audio {
  channels : Z;
  sample_rate : Z;
  bits_per_sample : Z;
  duration_s : Z;
  freqs_per_chan : Z;
  samples_per_chan : Z
}.

Definition audio_wf (wav : audio) : Prop :=
  is_u32 (channels wav) /\ is_u32 (sample_rate wav) /\
  is_u32 (bits_per_sample wav) /\ is_u32 (duration_s wav) /\
  is_u32 (freqs_per_chan wav) /\ is_u32 (samples_per_chan wav).

(** [unsigned int **]: one row per channel. *)
Abbreviation matrix := (list (list Z)).

(** [alloc_matrix(narrays, nentries, ...)] when every [calloc] succeeds:
    zero-filled rows. *)
Definition alloc_matrix (narrays nentries : Z) : matrix :=
  replicate (Z.to_nat narrays) (replicate (Z.to_nat nentries) 0).

Definition has_shape (m : matrix) (narrays nentries : Z) : Prop :=
  length m = Z.to_nat narrays /\
  Forall (fun row => length row = Z.to_nat nentries) m.

(** [m[c][i]] *)
Definition cell (m : matrix) (c i : Z) : option Z :=
  row ← m !! Z.to_nat c; row !! Z.to_nat i.

(** [m[c][i] = v] *)
Definition store (m : matrix) (c i v : Z) : option matrix :=
  row ← m !! Z.to_nat c;
  if decide (Z.to_nat i < length row)%nat
  then Some (<[Z.to_nat c := <[Z.to_nat i := v]> row]> m)
  else None.

(** The two spacings as the source computes them. *)
Definition delta_f (wav : audio) : Z :=
  u32 (sample_rate wav / 2 - MIN_FREQ) / freqs_per_chan wav.
Definition delta_c (wav : audio) : Z :=
  delta_f wav / u32 (channels wav + 1).

(** [fill_desired_freqs]: the return value and the matrix afterwards.
    The message on [stderr] is not modelled. *)
Definition fill_desired_freqs (freqs : matrix) (wav : audio)
    : option (Z * matrix) :=
  if decide (freqs_per_chan wav = 0) then None
  else if decide (u32 (channels wav + 1) = 0) then None
  else
    let delta_f := delta_f wav in
    let delta_c := delta_c wav in
    if (delta_f =? 0) || (delta_c =? 0) then Some (-1, freqs)
    else
      freqs' ← for_range (Z.to_nat (channels wav)) 0 (fun c fr =>
                 for_range (Z.to_nat (freqs_per_chan wav)) 0 (fun i fr =>
                   store fr c i
                     (u32 (u32 (MIN_FREQ + u32 (i * delta_f))
                           + u32 (c * delta_c)))) fr) freqs;
      Some (0, freqs').

End WavLib.
Import WavLib.

(** ** External collaborators: libm, GSL, the allocator *)

Class Externals : Type := {
sin : double -> double;
cos : double -> double;
hypot : double -> double -> double;
(** [gsl_fft_real_radix2_transform(data, stride, n)]: the status it
    returns and the content of [data] afterwards (the transform works
    in place, so the array keeps its length). *)
gsl_fft_real_radix2_transform : list double -> Z -> Z -> Z * list double;
gsl_fft_length : forall data stride n,
  length (gsl_fft_real_radix2_transform data stride n).2 = length data;
(** Whether the allocator grants a request of that many bytes. *)
malloc_ok : Z -> bool
}.

(** ** wav-generator.c *)

Module Generator.
Section WithExternals.
Context `{Externals}.

(** [wave[s] += sin(2.0 * M_PI * freqs[f] * s / wav->sample_rate)] for
    every tone, then [wave[s] /= wav->freqs_per_chan]. *)
Definition tone_sample (freq s rate : Z) : double :=
  sin (div (mul (mul (mul (of_Z 2) M_PI) (of_Z freq)) (of_Z s)) (of_Z rate)).

Definition fill_audio_wave (wave : list double) (freqs : list Z)
    (wav : audio) : option (list double) :=
  for_range (Z.to_nat (samples_per_chan wav)) 0 (fun s wave =>
    wave1 ← for_range (Z.to_nat (freqs_per_chan wav)) 0 (fun f wave =>
               w ← wave !! Z.to_nat s;
               fr ← freqs !! Z.to_nat f;
               Some (<[Z.to_nat s := add w (tone_sample fr s (sample_rate wav))]> wave))
             wave;
    w ← wave1 !! Z.to_nat s;
    Some (<[Z.to_nat s := div w (of_Z (freqs_per_chan wav))]> wave1)) wave.

(** One quantized sample: [waves[c][s] * INT16_MAX] (or [INT32_MAX])
    converted to the integer type of the buffer. *)
Definition quantize (bits : Z) (x : double) : option Z :=
  if bits =? 16 then to_int (- 32768) INT16_MAX (mul x (of_Z INT16_MAX))
  else if bits =? 32 then to_int INT32_MIN INT32_MAX (mul x (of_Z INT32_MAX))
  else None.

(** [buf[(s * wav->channels) + c] = ...] on the typed view of the buffer
    ([int16_t *] or [int32_t *]). *)
Definition put_sample (buf : list Z) (waves : list (list double))
    (wav : audio) (s c : Z) : option (list Z) :=
  row ← waves !! Z.to_nat c;
  x ← row !! Z.to_nat s;
  q ← quantize (bits_per_sample wav) x;
  let pos := Z.to_nat (u32 (u32 (s * channels wav) + c)) in
  if decide (pos < length buf)%nat then Some (<[pos := q]> buf) else None.

Definition fill_audio_buf (buf : list Z) (waves : list (list double))
    (wav : audio) : option (list Z) :=
  if (bits_per_sample wav =? 16) || (bits_per_sample wav =? 32) then
    for_range (Z.to_nat (samples_per_chan wav)) 0 (fun s buf =>
      for_range (Z.to_nat (channels wav)) 0 (fun c buf =>
        put_sample buf waves wav s c) buf) buf
  else Some buf.

(** [data_sz = wav.channels * wav.samples_per_chan * wav.bits_per_sample / 8] *)
Definition data_sz (wav : audio) : Z :=
  u32 (u32 (channels wav * samples_per_chan wav) * bits_per_sample wav) / 8.

(** [main] between argument parsing and the write of the container, with
    every allocation granted: the value it returns and the PCM buffer it
    writes after the header, as its typed view of
    [data_sz / (bits_per_sample / 8)] samples. *)
Definition main (wav : audio) : option (Z * list Z) :=
  '(ret, freqs) ← fill_desired_freqs
      (alloc_matrix (channels wav) (freqs_per_chan wav)) wav;
  if negb (ret =? 0) then Some (-1, [])
  else
    waves ← mapM (fun row =>
               fill_audio_wave
                 (replicate (Z.to_nat (samples_per_chan wav)) zero) row wav)
             freqs;
    buf ← fill_audio_buf
             (replicate (Z.to_nat (data_sz wav / (bits_per_sample wav / 8))) 0)
             waves wav;
    Some (0, buf).

End WithExternals.
End Generator.

(** ** wav-analyzer.c *)

Module Analyzer.

Definition MAX_FREQS_PER_CHAN : Z := 64.
Definition POWER_NOISE_LEVEL : double := of_Z 5.
Definition FREQ_ACCURACY : Z := 1.

(** [for (i = 30; i >= 0; i--) if (val & (1 << i)) break;], run from
    bit [i] downward for at most [n] steps; the result is the final
    [i] ([-1] when no bit is set). *)
Fixpoint highest_bit (n : nat) (i : Z) (val : Z) : Z :=
  match n with
  | O => i
  | S n' => if Z.testbit val i then i else highest_bit n' (i - 1) val
  end.

(** [1 << 31] is taken to be the bit pattern 0x80000000, as compilers
    for two's complement targets produce. *)
Definition next_pow_2 (val : Z) : Z :=
  if Z.testbit val 31 then 2 ^ 31
  else u32 (Z.shiftl 1 (highest_bit 31 30 val + 1)).

Definition freqs_are_equal (f1 f2 accuracy : Z) : bool :=
  (f1 <=? u32 (f2 + accuracy)) && (u32 (f2 - accuracy) <=? f1).

(** The loop of [freq_is_listed] from index [i], with [n] iterations
    left before [i] reaches [MAX_FREQS_PER_CHAN]. The reads stay inside
    an array of at least [min nfreqs MAX_FREQS_PER_CHAN] entries. *)
Fixpoint freq_is_listed_from (n : nat) (i : Z) (freqs : list Z)
    (nfreqs frequency : Z) : bool :=
  match n with
  | O => false
  | S n' =>
      if i =? nfreqs then false
      else if freqs_are_equal frequency (freqs !!! Z.to_nat i) FREQ_ACCURACY
      then true
      else freq_is_listed_from n' (i + 1) freqs nfreqs frequency
  end.

Definition freq_is_listed (freqs : list Z) (nfreqs frequency : Z) : bool :=
  freq_is_listed_from (Z.to_nat MAX_FREQS_PER_CHAN) 0 freqs nfreqs frequency.

(** [add_freq_to_list]: the array and [*nfreqs] afterwards. The message
    on [stderr] is not modelled. *)
Definition add_freq_to_list (freqs : list Z) (nfreqs frequency : Z)
    : list Z * Z :=
  if MAX_FREQS_PER_CHAN <=? u32 (nfreqs + 1) then (freqs, nfreqs)
  else if negb (freq_is_listed freqs nfreqs frequency)
  then (<[Z.to_nat nfreqs := frequency]> freqs, u32 (nfreqs + 1))
  else (freqs, nfreqs).

(** What [extract_frequencies] can reach through its pointer arguments:
    the channel's waveform, its frequency list with its count, and its
    maximum threshold. *)
Record channel_mem : Type := mk_mem {
  m_wave : list double;
  m_freqs : list Z;
  m_nfreqs : Z;
  m_max_thresh : double
}.

(** State of the peak scan: [above], [local_max], [local_max_idx] and
    the list being filled. *)
Record peak_state : Type := mk_peak {
  above : bool;
  local_max : double;
  local_max_idx : Z;
  p_freqs : list Z;
  p_nfreqs : Z
}.

(** Header fields of [struct wav_format] that the analyzer reads. *)
Record wav_format : Type := mk_wav_format {
  format_tag : Z;
  wf_channels : Z;
  samples_per_sec : Z;
  avg_bytes_per_sec : Z;
  block_align : Z;
  wf_bits_per_sample : Z;
  data_chunk_size : Z
}.

(** Lines of the report on standard output. *)
Inductive line : Type :=
| Found_header (c : Z) (thresh : double)
    (* "Frequencies found on channel %d (max threshold: %.1f):" *)
| None_found                      (* "None." *)
| Found (f : Z)                   (* "* %u Hz" *)
| Expected_header (c : Z) (empty : bool) (thresh : double)
    (* "Frequencies expected on channel %d (%smax threshold: %.1f):" *)
| Expected_ko (i f : Z)           (* "* %u/ %u Hz: KO" *)
| Expected_ok (i f diff : Z)
    (* "* %u/ %u Hz: ok", followed by " (%d Hz)" when diff is not 0 *)
| Not_expected_header (c : Z)
    (* "Frequencies *not* expected on channel %d:" *)
| Spurious (f : Z)                (* "*    %u Hz: spurious" *)
| Blank.

(** What the process leaves behind: the value [main] returns and what
    it printed on standard output. *)
Record outcome : Type := mk_outcome {
  main_ret : Z;
  stdout : list line
}.

(** The exit status seen by the parent process. *)
Definition exit_status (o : outcome) : Z := main_ret o mod 256.

Definition get_sample (buf : list Z) (chan channels sample : Z) : option Z :=
  buf !! Z.to_nat (u32 (u32 (channels * sample) + chan)).

Definition extract_audio_parameters (hdr : wav_format) (wav : audio)
    : Z * audio :=
  let wav1 := mk_audio (wf_channels hdr) (samples_per_sec hdr)
                (bits_per_sample wav) (duration_s wav)
                (freqs_per_chan wav) (samples_per_chan wav) in
  let data_sz := to_int32 (data_chunk_size hdr) in
  if channels wav1 =? 0 then (-1, wav1)
  else if sample_rate wav1 =? 0 then (-1, wav1)
  else if data_sz =? 0 then (-1, wav1)
  else if negb (u32 data_sz mod channels wav1 =? 0) then (-1, wav1)
  else
    let bits := wf_bits_per_sample hdr in
    let wav2 := mk_audio (channels wav1) (sample_rate wav1) bits
                  (duration_s wav) (freqs_per_chan wav)
                  (samples_per_chan wav) in
    if (bits =? 32) || (bits =? 24) || (bits =? 16) then
      let spc := u32 data_sz / channels wav1 / (bits / 8) in
      let dur := spc / sample_rate wav1 in
      let wav3 := mk_audio (channels wav1) (sample_rate wav1) bits
                    dur (freqs_per_chan wav) spc in
      if dur <? MIN_DURATION then (-1, wav3) else (data_sz, wav3)
    else (-1, wav2).


Section WithExternals.
Context `{Externals}.

Definition hann_window (val : double) (idx len : Z) : double :=
  mul (mul val half)
      (sub (of_Z 1)
           (cos (div (mul (mul (of_Z 2) M_PI) (of_Z idx)) (of_Z len)))).

(** [power[0] = data[0]], the interior bins, then
    [power[power_len - 1] = data[size / 2]]; every entry of the local
    array is written before it is read. *)
Definition power_spectrum (data : list double) (size : Z) : list double :=
  let power_len := size / 2 + 1 in
  let p0 := <[0%nat := data !!! 0%nat]> (replicate (Z.to_nat power_len) zero) in
  let p1 := foldl (fun p i =>
                     <[Z.to_nat i := hypot (data !!! Z.to_nat i)
                                           (data !!! Z.to_nat (size - i))]> p)
                  p0 (seqZ 1 (power_len - 2)) in
  <[Z.to_nat (power_len - 1) := data !!! Z.to_nat (size / 2)]> p1.

(** First bin of the two scans: [MIN_FREQ * size / wav->sample_rate]. *)
Definition first_bin (size : Z) (wav : audio) : Z :=
  u32 (MIN_FREQ * size) / sample_rate wav.

(** The bins [first_bin .. power_len - 2] visited by both scans. *)
Definition scanned_bins (size : Z) (wav : audio) : list Z :=
  seqZ (first_bin size wav) (size / 2 + 1 - 1 - first_bin size wav).

Definition find_maximum (power : list double) (bins : list Z) : double :=
  foldl (fun maximum i =>
           if lt maximum (power !!! Z.to_nat i) then power !!! Z.to_nat i
           else maximum)
        zero bins.

(** [wav->sample_rate * local_max_idx / size] *)
Definition bin_frequency (size : Z) (wav : audio) (idx : Z) : Z :=
  u32 (sample_rate wav * idx) / size.

(** One iteration of the peak scan at bin [i]. *)
Definition peak_step (power : list double) (threshold : double) (size : Z)
    (wav : audio) (st : peak_state) (i : Z) : peak_state :=
  let p := power !!! Z.to_nat i in
  if lt threshold p then
    if lt (local_max st) p
    then mk_peak true p i (p_freqs st) (p_nfreqs st)
    else mk_peak true (local_max st) (local_max_idx st)
                 (p_freqs st) (p_nfreqs st)
  else
    let '(fr, n) :=
      if above st
      then add_freq_to_list (p_freqs st) (p_nfreqs st)
             (bin_frequency size wav (local_max_idx st))
      else (p_freqs st, p_nfreqs st) in
    mk_peak false zero (local_max_idx st) fr n.

(** The function's local [data] after [memcpy(data, wave, ...)] and the
    Hann windowing loop. *)
Definition windowed_copy (off size : Z) (wave : list double) : list double :=
  imap (fun i x => hann_window x (Z.of_nat i) size)
       (take (Z.to_nat size) (drop (Z.to_nat off) wave)).

(** [threshold = maximum / 2] for the transformed [data]. *)
Definition window_threshold (size : Z) (wav : audio) (data : list double)
    : double :=
  div (find_maximum (power_spectrum data size) (scanned_bins size wav))
      (of_Z 2).

(** [extract_frequencies(freqs, nfreqs, &wave[off], size, max_thresh, wav)]
    on the memory of one channel. [data] and [power] are the function's
    local arrays. *)
Definition extract_frequencies (off size : Z) (wav : audio) (m : channel_mem)
    : option channel_mem :=
  if decide (0 <= off /\ 0 <= size
             /\ off + size <= Z.of_nat (length (m_wave m))) then
    let data := windowed_copy off size (m_wave m) in
    let '(status, data) := gsl_fft_real_radix2_transform data 1 size in
    if negb (status =? 0) then Some m
    else
      let power := power_spectrum data size in
      if decide (sample_rate wav = 0) then None
      else
        let bins := scanned_bins size wav in
        let threshold := window_threshold size wav data in
        if lt threshold POWER_NOISE_LEVEL then Some m
        else
          let max_thresh :=
            if lt (m_max_thresh m) threshold then threshold
            else m_max_thresh m in
          let st := foldl (peak_step power threshold size wav)
                      (mk_peak false zero 0 (m_freqs m) (m_nfreqs m)) bins in
          Some (mk_mem (m_wave m) (p_freqs st) (p_nfreqs st) max_thresh)
  else None.

Definition sample_factor (bits : Z) : double :=
  if bits =? 16 then of_Z INT16_MAX
  else if bits =? 24 then of_Z 8388607
  else if bits =? 32 then of_Z INT32_MAX
  else of_Z 0.

Definition extract_channel (wave : list double) (buf : list Z) (chan : Z)
    (wav : audio) : option (list double) :=
  let factor := sample_factor (bits_per_sample wav) in
  for_range (Z.to_nat (samples_per_chan wav)) 0 (fun s wave =>
    v ← get_sample buf chan (channels wav) s;
    if decide (Z.to_nat s < length wave)%nat
    then Some (<[Z.to_nat s := div (of_Z v) factor]> wave)
    else None) wave.

(** [for (i = offset; i + windows_sz < samples_per_chan - offset; i += slide)]
    with at most [fuel] evaluations of the condition; [None] when the fuel
    runs out or a window is undefined. *)
Fixpoint window_loop (fuel : nat) (offset slide windows_sz : Z)
    (wav : audio) (i : Z) (m : channel_mem) : option channel_mem :=
  match fuel with
  | O => None
  | S fuel' =>
      if u32 (i + windows_sz) <? u32 (samples_per_chan wav - offset) then
        m' ← extract_frequencies i windows_sz wav m;
        window_loop fuel' offset slide windows_sz wav (u32 (i + slide)) m'
      else Some m
  end.

(** One iteration of the channel loop of [main]: the channel is copied
    into the shared [wave] buffer and scanned into a zero-initialised row
    of [cfreqs], [ncfreqs[c]] and [thresholds[c]]. *)
Definition scan_channel (fuel : nat) (wav : audio) (buf : list Z)
    (wave : list double) (c : Z) : option channel_mem :=
  let offset := sample_rate wav / 2 in
  let slide := next_pow_2 (sample_rate wav / 2) in
  let windows_sz := u32 (2 * slide) in
  wave' ← extract_channel wave buf c wav;
  window_loop fuel offset slide windows_sz wav offset
    (mk_mem wave' (replicate (Z.to_nat MAX_FREQS_PER_CHAN) 0) 0 zero).

Definition scan (fuel : nat) (wav : audio) (buf : list Z)
    : option (list channel_mem) :=
  r ← for_range (Z.to_nat (channels wav)) 0 (fun c st =>
         m ← scan_channel fuel wav buf st.1 c;
         Some (m_wave m, st.2 ++ [m]))
       (replicate (Z.to_nat (samples_per_chan wav)) zero, []);
  Some r.2.

(** *** The report *)

(** The branch of [main] taken without [-f]: the detected list of one
    channel. *)
Definition print_found (c : Z) (m : channel_mem) : list line :=
  Found_header c (m_max_thresh m)
  :: (if m_nfreqs m =? 0 then [None_found] else [])
  ++ (Found <$> take (Z.to_nat (m_nfreqs m)) (m_freqs m)).

(** One iteration of the loop over the expected frequencies: the running
    [found] counter and the lines printed so far. *)
Definition expected_step (cfreqs : list Z) (ncfreqs : Z) (efreqs : list Z)
    (i : Z) (st : Z * list line) : option (Z * list line) :=
  e ← efreqs !! Z.to_nat i;
  if negb (freq_is_listed cfreqs ncfreqs e)
  then Some (st.1, st.2 ++ [Expected_ko i e])
  else
    (* int diff = cfreqs[c][i] - efreqs[c][i]; *)
    d ← cfreqs !! Z.to_nat i;
    Some (u32 (st.1 + 1), st.2 ++ [Expected_ok i e (to_int32 (u32 (d - e)))]).

(** One iteration of the loop over the detected frequencies. *)
Definition spurious_step (efreqs : list Z) (nefreqs : Z) (cfreqs : list Z)
    (i : Z) (out : list line) : option (list line) :=
  d ← cfreqs !! Z.to_nat i;
  if negb (freq_is_listed efreqs nefreqs d)
  then Some (out ++ [Spurious d])
  else Some out.

(** The body of the comparison loop of [main] for channel [c]. *)
Definition compare_channel (c : Z) (m : channel_mem) (efreqs : list Z)
    (wav : audio) : option (list line) :=
  st ← for_range (Z.to_nat (freqs_per_chan wav)) 0
          (expected_step (m_freqs m) (m_nfreqs m) efreqs)
          (0, [Expected_header c (m_nfreqs m =? 0) (m_max_thresh m)]);
  if st.1 <? m_nfreqs m then
    for_range (Z.to_nat (m_nfreqs m)) 0
      (spurious_step efreqs (freqs_per_chan wav) (m_freqs m))
      (st.2 ++ [Not_expected_header c])
  else Some st.2.

Definition compare_channels (ms : list channel_mem) (efreqs : matrix)
    (wav : audio) : option (list line) :=
  for_range (Z.to_nat (channels wav)) 0 (fun c out =>
    m ← ms !! Z.to_nat c;
    row ← efreqs !! Z.to_nat c;
    ls ← compare_channel c m row wav;
    Some (out ++ ls)) [].

(** *** The container header, as laid out in memory on a little-endian
    target: 44 packed bytes. *)

Definition le16 (b : list Z) (off : nat) : Z :=
  b !!! off + 2 ^ 8 * b !!! (off + 1)%nat.

Definition le32 (b : list Z) (off : nat) : Z :=
  b !!! off + 2 ^ 8 * b !!! (off + 1)%nat + 2 ^ 16 * b !!! (off + 2)%nat
  + 2 ^ 24 * b !!! (off + 3)%nat.

Definition riff_size : nat := 44.

Definition decode_header (b : list Z) : wav_format :=
  mk_wav_format (le16 b 20) (le16 b 22) (le32 b 24) (le32 b 28)
                (le16 b 32) (le16 b 34) (le32 b 40).

(** The data bytes read through [int32_t *buf]. *)
Fixpoint int32_view (bytes : list Z) : list Z :=
  match bytes with
  | b0 :: b1 :: b2 :: b3 :: rest =>
      to_int32 (b0 + 2 ^ 8 * b1 + 2 ^ 16 * b2 + 2 ^ 24 * b3) :: int32_view rest
  | _ => []
  end.

Definition alloc_matrix_ok (narrays nentries elem_size : Z) : bool :=
  malloc_ok (narrays * 8)
  && ((narrays =? 0) || malloc_ok (nentries * elem_size)).

(** [main] after [parse_args] has succeeded: [nfreqs_arg] is the value of
    [-f] (0 without it), [stdin] the bytes on standard input. *)
Definition main (fuel : nat) (nfreqs_arg : Z) (stdin : list Z)
    : option outcome :=
  let wav0 := mk_audio 0 0 0 0 nfreqs_arg 0 in
  if decide (length stdin < riff_size)%nat then Some (mk_outcome (-1) [])
  else
    let hdr := decode_header (take riff_size stdin) in
    let rest := drop riff_size stdin in
    let '(r, wav) := extract_audio_parameters hdr wav0 in
    (* size_t data_sz = (int) ...; if (data_sz <= 0) return 1; *)
    let data_sz := to_size_t r in
    if data_sz <=? 0 then Some (mk_outcome 1 [])
    else if negb (malloc_ok data_sz) then Some (mk_outcome (-1) [])
    else
      let sz := Z.min data_sz (Z.of_nat (length rest)) in
      if negb (sz =? data_sz) then Some (mk_outcome (-1) [])
      else
        let buf := int32_view (take (Z.to_nat data_sz) rest) in
        if negb (malloc_ok (channels wav * 4)
                 && alloc_matrix_ok (channels wav) MAX_FREQS_PER_CHAN 4
                 && malloc_ok (channels wav * 8)
                 && malloc_ok (samples_per_chan wav * 8))
        then Some (mk_outcome (-1) [])
        else
          ms ← scan fuel wav buf;
          if freqs_per_chan wav =? 0 then
            Some (mk_outcome 0
                    (mjoin (imap (fun c m => print_found (Z.of_nat c) m) ms)))
          else if negb (alloc_matrix_ok (channels wav) (freqs_per_chan wav) 4)
          then Some (mk_outcome (-1) [])
          else
            '(ret, efreqs) ← fill_desired_freqs
                (alloc_matrix (channels wav) (freqs_per_chan wav)) wav;
            if negb (ret =? 0) then Some (mk_outcome (-1) [])
            else
              out ← compare_channels ms efreqs wav;
              Some (mk_outcome 0 (out ++ [Blank])).

End WithExternals.
End Analyzer.

(** ** Auxiliary notions used in the statements *)

(** Two frequencies are within [FREQ_ACCURACY] of each other. *)
Definition within_accuracy (f1 f2 : Z) : Prop :=
  Z.abs (f1 - f2) <= Analyzer.FREQ_ACCURACY.

#[global] Instance within_accuracy_dec (f1 f2 : Z) :
  Decision (within_accuracy f1 f2).
Proof. unfold within_accuracy. apply _. Defined.

(** The entries [freqs[0 .. nfreqs)] of a detected list. *)
Definition detected (m : Analyzer.channel_mem) : list Z :=
  take (Z.to_nat (Analyzer.m_nfreqs m)) (Analyzer.m_freqs m).

(** The first detected frequency within the accuracy of [e]. *)
Definition first_match (m : Analyzer.channel_mem) (e : Z) : option Z :=
  list_find (fun d => within_accuracy d e) (detected m)
  ≫= fun p => Some p.2.

(** [q] is the value [x] with its fractional part discarded. *)
Definition truncation_of (x : double) (q : Z) : Prop :=
  let '(n, d) := num_den x in
  Z.abs q * d <= Z.abs n < (Z.abs q + 1) * d /\ 0 <= q * n.

(** [x] is a finite double in [[-1, 1]]. *)
Definition in_unit_interval (x : double) : Prop :=
  is_finite x = true /\ Z.abs (num_den x).1 <= (num_den x).2.

(** [q] is an integer nearest to the exact product [x * scale]. *)
Definition nearest_to_scaled (x : double) (scale q : Z) : Prop :=
  let '(n, d) := num_den x in
  2 * Z.abs (q * d - n * scale) <= d.

(** The full scale of the generator for a bit depth. *)
Definition full_scale (bits : Z) : Z :=
  if bits =? 16 then INT16_MAX else INT32_MAX.


(** What every window preserves: the waveform, the size of the array, a
    count below the capacity, and any property that holds of all the
    frequencies a bin can be converted to. *)
Definition scan_invariant (P : Z -> Prop) (wave : list double) (len : nat)
    (m : Analyzer.channel_mem) : Prop :=
  Analyzer.m_wave m = wave /\ length (Analyzer.m_freqs m) = len /\
  0 <= Analyzer.m_nfreqs m <= Analyzer.MAX_FREQS_PER_CHAN - 1 /\
  Forall P (detected m).

(** Header fields that the decoder must reject. *)
Definition header_violation (hdr : Analyzer.wav_format) : Prop :=
  let bits := Analyzer.wf_bits_per_sample hdr in
  Analyzer.wf_channels hdr = 0 \/
  Analyzer.samples_per_sec hdr = 0 \/
  Analyzer.data_chunk_size hdr = 0 \/
  Analyzer.data_chunk_size hdr mod Analyzer.wf_channels hdr <> 0 \/
  ~ (bits = 16 \/ bits = 24 \/ bits = 32) \/
  Analyzer.data_chunk_size hdr / Analyzer.wf_channels hdr / (bits / 8)
    / Analyzer.samples_per_sec hdr < MIN_DURATION.

(** An instance for evaluating the definitions on concrete inputs: the
    transform leaves the samples as they are, [hypot a b] is [a] and the
    trigonometric functions are constant. *)
Definition plain_externals : Externals := {|
  sin := fun _ => zero;
  cos := fun _ => zero;
  hypot := fun a _ => a;
  gsl_fft_real_radix2_transform := fun data _ _ => (0, data);
  gsl_fft_length := fun data _ _ => eq_refl;
  malloc_ok := fun _ => true
|}.
(** ** wav-lib.h: packed 24-bit samples *)

Module Int24.

(** [int24_t]: [v1] is the signed high byte, [v2] and [v3] the unsigned
    middle and low bytes. *)
Record int24_t : Type := mk_int24 {
  v1 : Z;
  v2 : Z;
  v3 : Z
}.

(** Conversion to [uint8_t] and to [int8_t] (two's complement). *)
Definition to_uint8 (x : Z) : Z := x mod 2 ^ 8.
Definition to_int8 (x : Z) : Z :=
  let y := x mod 2 ^ 8 in if y <? 2 ^ 7 then y else y - 2 ^ 8.

Definition int24_wf (x : int24_t) : Prop :=
  - 2 ^ 7 <= v1 x < 2 ^ 7 /\ 0 <= v2 x < 2 ^ 8 /\ 0 <= v3 x < 2 ^ 8.

(** [i32_to_i24]: the right shift of the signed operand is arithmetic. *)
Definition i32_to_i24 (a : Z) : int24_t :=
  mk_int24 (to_int8 (Z.shiftr a 16))
           (to_uint8 (Z.shiftr (u32 a) 8))
           (to_uint8 (u32 a)).

(** [i24_to_i32]: [(int32_t)a.v1 << 16] is taken to be the
    multiplication by 2^16 in two's complement; the three operands are
    combined as [uint32_t] and the result converted back to [int32_t]. *)
Definition i24_to_i32 (a : int24_t) : Z :=
  to_int32 (Z.lor (Z.lor (u32 (Z.shiftl (v1 a) 16)) (u32 (Z.shiftl (v2 a) 8)))
                  (u32 (v3 a))).

End Int24.

(** ** The container as the generator writes it *)

Module Container.

(** The [n] low bytes of [x], least significant first: the layout in
    memory of an [n]-byte integer on a little-endian target (two's
    complement for a negative [x]). *)
Fixpoint le_bytes (n : nat) (x : Z) : list Z :=
  match n with
  | O => []
  | S n' => x mod 2 ^ 8 :: le_bytes n' (x / 2 ^ 8)
  end.

(** The global [riff] of the generator after [main] has filled in the
    format fields, [chunk_size] and [file_len]: 44 packed bytes. The
    16-bit fields keep the low 16 bits of what is assigned to them. *)
Definition riff_header (wav : audio) (data_sz : Z) : list Z :=
  [82; 73; 70; 70] ++ le_bytes 4 (44 + data_sz)
  ++ [87; 65; 86; 69]
  ++ [102; 109; 116; 32] ++ le_bytes 4 16
  ++ le_bytes 2 1
  ++ le_bytes 2 (channels wav)
  ++ le_bytes 4 (sample_rate wav)
  ++ le_bytes 4 (u32 (u32 (channels wav * sample_rate wav)
                      * bits_per_sample wav) / 8)
  ++ le_bytes 2 (u32 (channels wav * bits_per_sample wav) / 8)
  ++ le_bytes 2 (bits_per_sample wav)
  ++ [100; 97; 116; 97] ++ le_bytes 4 data_sz.

(** The bytes of a buffer of [bits]-bit samples. *)
Definition pcm_bytes (bits : Z) (buf : list Z) : list Z :=
  mjoin (le_bytes (Z.to_nat (bits / 8)) <$> buf).

(** What the generator writes on standard output:
    [fwrite(&riff, sizeof(riff), 1, stdout); fwrite(buf, data_sz, 1, stdout)]. *)
Definition output (wav : audio) (buf : list Z) : list Z :=
  riff_header wav (Generator.data_sz wav)
  ++ take (Z.to_nat (Generator.data_sz wav))
          (pcm_bytes (bits_per_sample wav) buf).

(** The checks of the generator's [parse_args] once the options are read,
    and the sample count it derives: the value it returns and the
    descriptor afterwards. *)
Definition parse_args_checks (wav : audio) : Z * audio :=
  if sample_rate wav <? 2 * MIN_FREQ then (-1, wav)
  else if negb (bits_per_sample wav =? 16) && negb (bits_per_sample wav =? 32)
  then (-1, wav)
  else if duration_s wav <? MIN_DURATION then (-1, wav)
  else (0, mk_audio (channels wav) (sample_rate wav) (bits_per_sample wav)
             (duration_s wav) (freqs_per_chan wav)
             (u32 (sample_rate wav * duration_s wav))).

End Container.

(** ** Closed forms used in the statements about loops *)

(** The line the comparison prints for the expected frequency [e] at
    index [i]. *)
Definition expected_line (m : Analyzer.channel_mem) (i : nat) (e : Z)
    : Analyzer.line :=
  if Analyzer.freq_is_listed (Analyzer.m_freqs m) (Analyzer.m_nfreqs m) e
  then Analyzer.Expected_ok (Z.of_nat i) e
         (to_int32 (u32 (Analyzer.m_freqs m !!! i - e)))
  else Analyzer.Expected_ko (Z.of_nat i) e.

(** The number of expected frequencies the comparison counts as found. *)
Definition found_count (m : Analyzer.channel_mem) (efreqs : list Z) : Z :=
  Z.of_nat (length (filter
    (fun e => Analyzer.freq_is_listed (Analyzer.m_freqs m)
                (Analyzer.m_nfreqs m) e = true) efreqs)).

(** The lines of the section of unexpected frequencies. *)
Definition spurious_lines (m : Analyzer.channel_mem) (efreqs : list Z)
    (nefreqs : Z) : list Analyzer.line :=
  Analyzer.Spurious <$>
    filter (fun d => Analyzer.freq_is_listed efreqs nefreqs d = false)
           (detected m).

(** The sum the synthesizer accumulates on top of [w] for sample [s]. *)
Definition tone_sum `{Externals} (w : double) (freqs : list Z) (s rate : Z)
    : double :=
  foldl (fun acc f => add acc (Generator.tone_sample f s rate)) w freqs.


(** * Properties *)

(** ** Loops *)

Lemma for_range_inv {S : Type} (P : Z -> S -> Prop)
    (body : Z -> S -> option S) (n : nat) (lo : Z) (s : S) :
  P lo s ->
  (forall k t, lo <= k < lo + Z.of_nat n -> P k t ->
     exists t', body k t = Some t' /\ P (k + 1) t') ->
  exists s', for_range n lo body s = Some s' /\ P (lo + Z.of_nat n) s'.
Proof.
  revert lo s. induction n as [|n IH]; intros lo s H0 Hstep.
  - exists s. split; [done|]. by replace (lo + Z.of_nat 0) with lo by lia.
  - destruct (Hstep lo s) as (t & Hb & Ht); [lia|done|].
    destruct (IH (lo + 1) t) as (s' & Hr & Hs'); [done| |].
    + intros k u Hk. apply Hstep. lia.
    + exists s'. split.
      * simpl. rewrite Hb. simpl. exact Hr.
      * by replace (lo + Z.of_nat (Datatypes.S n)) with (lo + 1 + Z.of_nat n) by lia.
Qed.

(** ** The frequency plan *)

Lemma u32_small (x : Z) : 0 <= x < 2 ^ 32 -> u32 x = x.
Proof. intros Hx. unfold u32. by apply Z.mod_small. Qed.

Lemma u32_range (x : Z) : 0 <= u32 x < 2 ^ 32.
Proof. unfold u32. apply Z.mod_pos_bound. lia. Qed.

Lemma has_shape_row (m : matrix) (narrays nentries : Z) (c : nat) row :
  has_shape m narrays nentries -> m !! c = Some row ->
  length row = Z.to_nat nentries.
Proof.
  intros [_ Hall] Hc. rewrite Forall_forall in Hall. apply Hall.
  eapply list_elem_of_lookup_2. exact Hc.
Qed.

Lemma store_spec (m : matrix) (narrays nentries c i v : Z) :
  has_shape m narrays nentries ->
  0 <= c < narrays -> 0 <= i < nentries ->
  exists m', store m c i v = Some m' /\
    has_shape m' narrays nentries /\
    cell m' c i = Some v /\
    (forall c' i', 0 <= c' -> 0 <= i' -> (c', i') <> (c, i) ->
       cell m' c' i' = cell m c' i').
Proof.
  intros Hsh Hc Hi. unfold store.
  destruct (lookup_lt_is_Some_2 m (Z.to_nat c)) as [row Hrow].
  { destruct Hsh as [-> _]. lia. }
  rewrite Hrow. simpl.
  pose proof (has_shape_row _ _ _ _ _ Hsh Hrow) as Hlen.
  rewrite decide_True by lia.
  eexists. split; [done|]. split; [|split].
  - destruct Hsh as [Hl Hall]. split; [by rewrite length_insert|].
    apply Forall_insert; [done|]. by rewrite length_insert.
  - unfold cell. rewrite list_lookup_insert_eq.
    + simpl. apply list_lookup_insert_eq. lia.
    + apply lookup_lt_Some in Hrow. done.
  - intros c' i' Hc' Hi' Hne. unfold cell.
    destruct (decide (Z.to_nat c' = Z.to_nat c)) as [Heq|Hneq].
    + rewrite Heq. rewrite list_lookup_insert_eq
        by (by apply lookup_lt_Some in Hrow).
      rewrite Hrow. simpl. apply list_lookup_insert_ne.
      intros Hii. apply Hne. f_equal; lia.
    + by rewrite list_lookup_insert_ne.
Qed.

(** The nested loop of the planner with an arbitrary cell value. *)
Lemma fill_loops (v : Z -> Z -> Z) (m : matrix) (narrays nentries : Z) :
  has_shape m narrays nentries ->
  exists m',
    for_range (Z.to_nat narrays) 0 (fun c fr =>
      for_range (Z.to_nat nentries) 0 (fun i fr => store fr c i (v c i)) fr) m
    = Some m' /\
    has_shape m' narrays nentries /\
    (forall c i, 0 <= c < narrays -> 0 <= i < nentries ->
       cell m' c i = Some (v c i)).
Proof.
  intros Hsh.
  destruct (for_range_inv
    (fun c fr => has_shape fr narrays nentries /\
       forall c' i', 0 <= c' < c -> 0 <= i' < nentries ->
         cell fr c' i' = Some (v c' i'))
    (fun c fr =>
      for_range (Z.to_nat nentries) 0 (fun i fr => store fr c i (v c i)) fr)
    (Z.to_nat narrays) 0 m) as (m' & Hrun & Hsh' & Hcells).
  - split; [done|]. intros; lia.
  - intros c fr Hc [Hfr Hdone].
    destruct (for_range_inv
      (fun i fr' => has_shape fr' narrays nentries /\
         forall c' i', 0 <= c' -> 0 <= i' < nentries ->
           c' < c \/ (c' = c /\ i' < i) ->
           cell fr' c' i' = Some (v c' i'))
      (fun i fr => store fr c i (v c i))
      (Z.to_nat nentries) 0 fr) as (fr' & Hrun & Hsh' & Hcells).
    + split; [done|]. intros c' i' Hc' Hi' [Hlt|[_ Hlt]]; [|lia].
      apply Hdone; lia.
    + intros i t Hi [Ht Hcells].
      destruct (store_spec t narrays nentries c i (v c i))
        as (t' & Hst & Hsh' & Hci & Hoth); [done|lia|lia|].
      exists t'. split; [done|]. split; [done|].
      intros c' i' Hc' Hi' Hcase.
      destruct (decide ((c', i') = (c, i))) as [Heq|Hne].
      * injection Heq as -> ->. done.
      * rewrite Hoth by (done || lia). apply Hcells; [done|done|].
        destruct Hcase as [?|[-> ?]]; [by left|].
        right. split; [done|]. assert (i' <> i) by congruence. lia.
    + exists fr'. split; [done|]. split; [done|].
      intros c' i' Hc' Hi'. apply Hcells; [lia|lia|].
      destruct (decide (c' = c)) as [->|]; [right; lia|left; lia].
  - exists m'. split; [done|]. split; [done|].
    intros c i Hc Hi. apply Hcells; lia.
Qed.

Lemma sorted_of_lookup (l : list Z) :
  (forall (i j : nat) x y, (i < j)%nat ->
     l !! i = Some x -> l !! j = Some y -> x < y) ->
  StronglySorted Z.lt l.
Proof.
  induction l as [|a l IH]; intros Hl; constructor.
  - apply IH. intros i j x y Hij Hi Hj.
    apply (Hl (Datatypes.S i) (Datatypes.S j)); [lia|done|done].
  - apply Forall_lookup. intros j y Hj.
    apply (Hl O (Datatypes.S j)); [lia|done|done].
Qed.

(** Arithmetic of the plan: nothing wraps and the last tone of the last
    channel stays below Nyquist. *)
Lemma plan_value_range (sr n C i c : Z) :
  1 <= C -> 1 <= n -> MIN_FREQ < sr / 2 -> sr <= UINT_MAX ->
  (sr / 2 - MIN_FREQ) / n / (C + 1) <> 0 ->
  0 <= i < n -> 0 <= c < C ->
  let df := (sr / 2 - MIN_FREQ) / n in
  let dc := df / (C + 1) in
  0 < dc /\ C * dc < df /\ n * df <= sr / 2 - MIN_FREQ /\
  0 <= i * df /\ 0 <= c * dc /\
  MIN_FREQ + i * df + c * dc < sr / 2 /\ sr / 2 < 2 ^ 31.
Proof.
  intros HC Hn Hsr Hmax Hdc Hi Hc df dc. unfold UINT_MAX in Hmax.
  assert (0 <= df) by (apply Z.div_pos; unfold MIN_FREQ in *; lia).
  assert (0 <= dc) by (apply Z.div_pos; lia).
  assert (0 < dc) by (subst dc df; lia).
  assert ((C + 1) * dc <= df) by (apply Z.mul_div_le; lia).
  assert (n * df <= sr / 2 - MIN_FREQ) by (apply Z.mul_div_le; lia).
  assert (sr / 2 < 2 ^ 31) by (apply Z.div_lt_upper_bound; lia).
  repeat split; try nia.
Qed.

(** C1. With at least one channel and one tone, Nyquist above [MIN_FREQ]
    and both spacings non-zero, [fill_desired_freqs] returns 0 and writes
    [MIN_FREQ + i * delta_f + c * delta_c] at [freqs[c][i]], where
    [delta_f = (sample_rate / 2 - MIN_FREQ) / freqs_per_chan] and
    [delta_c = delta_f / (channels + 1)]; every channel then holds exactly
    [freqs_per_chan] strictly ascending, pairwise distinct frequencies in
    [[MIN_FREQ, sample_rate / 2)], and two different channels never hold
    the same set of frequencies. *)
Theorem fill_desired_freqs_plan (wav : audio) (freqs : matrix) :
  audio_wf wav ->
  1 <= channels wav -> 1 <= freqs_per_chan wav ->
  MIN_FREQ < sample_rate wav / 2 ->
  (sample_rate wav / 2 - MIN_FREQ) / freqs_per_chan wav <> 0 ->
  (sample_rate wav / 2 - MIN_FREQ) / freqs_per_chan wav
    / (channels wav + 1) <> 0 ->
  has_shape freqs (channels wav) (freqs_per_chan wav) ->
  let df := (sample_rate wav / 2 - MIN_FREQ) / freqs_per_chan wav in
  let dc := df / (channels wav + 1) in
  exists freqs',
    fill_desired_freqs freqs wav = Some (0, freqs') /\
    has_shape freqs' (channels wav) (freqs_per_chan wav) /\
    (forall c i, 0 <= c < channels wav -> 0 <= i < freqs_per_chan wav ->
       cell freqs' c i = Some (MIN_FREQ + i * df + c * dc)) /\
    (forall (c : nat) row, freqs' !! c = Some row ->
       length row = Z.to_nat (freqs_per_chan wav) /\
       StronglySorted Z.lt row /\ NoDup row /\
       Forall (fun f => MIN_FREQ <= f < sample_rate wav / 2) row) /\
    (forall (c1 c2 : nat) row1 row2, c1 <> c2 ->
       freqs' !! c1 = Some row1 -> freqs' !! c2 = Some row2 ->
       list_to_set row1 ≠@{gset Z} list_to_set row2).
Proof.
  intros Hwf HC Hn Hsr Hdf Hdc Hsh df dc.
  destruct Hwf as (HwC & Hwsr & _ & _ & Hwn & _).
  unfold is_u32, UINT_MAX in HwC, Hwsr, Hwn.
  assert (Hrange : forall i c, 0 <= i < freqs_per_chan wav ->
            0 <= c < channels wav ->
            0 < dc /\ channels wav * dc < df /\
            freqs_per_chan wav * df <= sample_rate wav / 2 - MIN_FREQ /\
            0 <= i * df /\ 0 <= c * dc /\
            MIN_FREQ + i * df + c * dc < sample_rate wav / 2 /\
            sample_rate wav / 2 < 2 ^ 31).
  { intros i c Hi Hc.
    apply (plan_value_range (sample_rate wav) (freqs_per_chan wav)
             (channels wav) i c); try done. unfold UINT_MAX. lia. }
  destruct (Hrange 0 0) as (Hdc0 & HCdc & Hndf & _ & _ & _ & Hny); [lia|lia|].
  assert (Hdf_code : delta_f wav = df).
  { unfold delta_f. rewrite u32_small; [done|]. unfold MIN_FREQ in *. lia. }
  assert (HC1 : u32 (channels wav + 1) = channels wav + 1).
  { apply u32_small. unfold MIN_FREQ in *.
    assert (0 <= df) by (subst df; apply Z.div_pos; lia).
    assert (df <= freqs_per_chan wav * df) by nia. nia. }
  assert (Hdc_code : delta_c wav = dc).
  { unfold delta_c. by rewrite Hdf_code, HC1. }
  destruct (fill_loops
    (fun c i => u32 (u32 (MIN_FREQ + u32 (i * df)) + u32 (c * dc)))
    freqs (channels wav) (freqs_per_chan wav) Hsh)
    as (freqs' & Hrun & Hsh' & Hcells).
  assert (Hcell : forall c i, 0 <= c < channels wav ->
            0 <= i < freqs_per_chan wav ->
            cell freqs' c i = Some (MIN_FREQ + i * df + c * dc)).
  { intros c i Hc Hi. rewrite Hcells by done.
    destruct (Hrange i c Hi Hc) as (_ & _ & _ & Hidf & Hcdc & Hlt & _).
    unfold MIN_FREQ in *.
    rewrite (u32_small (i * df)) by lia.
    rewrite (u32_small (c * dc)) by lia.
    rewrite (u32_small (200 + i * df)) by lia.
    rewrite u32_small by lia. done. }
  assert (Hrow : forall (c : nat) row, freqs' !! c = Some row ->
            Z.of_nat c < channels wav /\
            length row = Z.to_nat (freqs_per_chan wav) /\
            forall (i : nat) x, row !! i = Some x ->
              Z.of_nat i < freqs_per_chan wav /\
              x = MIN_FREQ + Z.of_nat i * df + Z.of_nat c * dc).
  { intros c row Hc.
    pose proof (has_shape_row _ _ _ _ _ Hsh' Hc) as Hlen.
    assert (Z.of_nat c < channels wav) as Hclt.
    { apply lookup_lt_Some in Hc. destruct Hsh' as [Hl _]. lia. }
    split; [done|]. split; [done|]. intros i x Hi.
    assert (Z.of_nat i < freqs_per_chan wav) as Hilt.
    { apply lookup_lt_Some in Hi. lia. }
    split; [done|].
    specialize (Hcell (Z.of_nat c) (Z.of_nat i)).
    unfold cell in Hcell. rewrite !Nat2Z.id, Hc in Hcell. simpl in Hcell.
    rewrite Hi in Hcell. injection Hcell; [done|lia|lia]. }
  exists freqs'. split; [|split; [done|split; [done|split]]].
  - unfold fill_desired_freqs.
    rewrite decide_False by lia. rewrite decide_False by lia.
    rewrite Hdf_code, Hdc_code.
    destruct (Z.eqb_spec df 0) as [E|_]; [by subst df|].
    destruct (Z.eqb_spec dc 0) as [E|_]; [lia|]. simpl.
    rewrite Hrun. done.
  - intros c row Hc. destruct (Hrow c row Hc) as (Hclt & Hlen & Hvals).
    assert (StronglySorted Z.lt row) as Hsorted.
    { apply sorted_of_lookup. intros i j x y Hij Hi Hj.
      destruct (Hvals i x Hi) as [_ ->]. destruct (Hvals j y Hj) as [_ ->].
      assert (0 < df) by (subst df; lia). nia. }
    split; [done|]. split; [done|]. split.
    + apply NoDup_alt. intros i j x Hi Hj.
      destruct (Hvals i x Hi) as [_ Hx]. destruct (Hvals j x Hj) as [_ Hx'].
      assert (0 < df) by (subst df; lia). nia.
    + apply Forall_lookup. intros i x Hi.
      destruct (Hvals i x Hi) as [Hilt ->].
      destruct (Hrange (Z.of_nat i) (Z.of_nat c)) as (_&_&_&?&?&?&_); lia.
  - intros c1 c2 row1 row2 Hne H1 H2 Heq.
    destruct (Hrow c1 row1 H1) as (Hc1 & Hlen1 & Hv1).
    destruct (Hrow c2 row2 H2) as (Hc2 & Hlen2 & Hv2).
    assert (0 <= df) by (subst df; apply Z.div_pos; unfold MIN_FREQ in *; lia).
    assert (forall (ca cb : nat) (ra rb : list Z),
              (ca < cb)%nat -> length ra = Z.to_nat (freqs_per_chan wav) ->
              (forall (i : nat) x, ra !! i = Some x ->
                 Z.of_nat i < freqs_per_chan wav /\
                 x = MIN_FREQ + Z.of_nat i * df + Z.of_nat ca * dc) ->
              (forall (i : nat) x, rb !! i = Some x ->
                 Z.of_nat i < freqs_per_chan wav /\
                 x = MIN_FREQ + Z.of_nat i * df + Z.of_nat cb * dc) ->
              list_to_set ra ≠@{gset Z} list_to_set rb) as Hlow.
    { intros ca cb ra rb Hlt Hlen Hva Hvb Hset.
      destruct (lookup_lt_is_Some_2 ra O) as [x Hx]; [lia|].
      destruct (Hva O x Hx) as [_ Hxv].
      assert (x ∈ (list_to_set rb : gset Z)) as Hin.
      { rewrite <- Hset. apply elem_of_list_to_set.
        eapply list_elem_of_lookup_2. exact Hx. }
      apply elem_of_list_to_set, list_elem_of_lookup_1 in Hin.
      destruct Hin as [j Hj]. destruct (Hvb j x Hj) as [_ Hxv']. nia. }
    destruct (decide (c1 < c2)%nat).
    + by apply (Hlow c1 c2 row1 row2).
    + apply (Hlow c2 c1 row2 row1); [lia|done|done|done|done].
Qed.

Lemma fill_desired_freqs_plan_witness :
  let wav := mk_audio 2 48000 32 10 4 480000 in
  exists freqs',
    fill_desired_freqs (alloc_matrix 2 4) wav = Some (0, freqs') /\
    has_shape freqs' 2 4 /\
    (forall c i, 0 <= c < 2 -> 0 <= i < 4 ->
       cell freqs' c i = Some (MIN_FREQ + i * 5950 + c * 1983)) /\
    (forall (c : nat) row, freqs' !! c = Some row ->
       length row = 4%nat /\
       StronglySorted Z.lt row /\ NoDup row /\
       Forall (fun f => MIN_FREQ <= f < 24000) row) /\
    (forall (c1 c2 : nat) row1 row2, c1 <> c2 ->
       freqs' !! c1 = Some row1 -> freqs' !! c2 = Some row2 ->
       list_to_set row1 ≠@{gset Z} list_to_set row2).
Proof.
  intros wav.
  apply (fill_desired_freqs_plan wav (alloc_matrix 2 4)).
  - unfold audio_wf, is_u32, UINT_MAX. simpl. lia.
  - simpl. lia.
  - simpl. lia.
  - vm_compute. reflexivity.
  - vm_compute. discriminate.
  - vm_compute. discriminate.
  - split; [reflexivity|]. repeat constructor.
Defined.



Example fill_desired_freqs_no_range :
  fill_desired_freqs (alloc_matrix 1 2) (mk_audio 1 402 32 10 2 4020)
  = Some (-1, [[0; 0]]).
Proof. reflexivity. Qed.

Example fill_desired_freqs_default :
  fill_desired_freqs (alloc_matrix 2 4) (mk_audio 2 48000 32 10 4 480000)
  = Some (0, [[200; 6150; 12100; 18050]; [2183; 8133; 14083; 20033]]).
Proof. vm_compute. reflexivity. Qed.

(** ** The detected-frequency list *)

Import Analyzer.

Lemma add_freq_to_list_count (freqs : list Z) (nfreqs frequency : Z) :
  0 <= nfreqs <= MAX_FREQS_PER_CHAN - 1 ->
  0 <= (add_freq_to_list freqs nfreqs frequency).2 <= MAX_FREQS_PER_CHAN - 1.
Proof.
  intros Hn. unfold add_freq_to_list, MAX_FREQS_PER_CHAN in *.
  rewrite (u32_small (nfreqs + 1)) by lia.
  destruct (Z.leb_spec 64 (nfreqs + 1)); [simpl; lia|].
  destruct (negb _); simpl; lia.
Qed.

Lemma add_freq_to_list_length (freqs : list Z) (nfreqs frequency : Z) :
  length (add_freq_to_list freqs nfreqs frequency).1 = length freqs.
Proof.
  unfold add_freq_to_list.
  destruct (_ <=? _); [done|]. destruct (negb _); [|done].
  simpl. apply length_insert.
Qed.

(** C10. Whatever frequencies are offered to [add_freq_to_list], starting
    from an empty list, the count stays between 0 and
    [MAX_FREQS_PER_CHAN - 1] = 63 after every call, and a call made with
    63 entries in the list changes neither the array nor the count: entry
    number 64 is never written. *)
Theorem add_freq_to_list_never_full (freqs0 : list Z) (offered : list Z) :
  (let st := foldl (fun st f => add_freq_to_list st.1 st.2 f)
                   (freqs0, 0) offered in
   0 <= st.2 <= 63) /\
  (forall freqs f, add_freq_to_list freqs 63 f = (freqs, 63)).
Proof.
  split.
  - cbv zeta.
    assert (forall st : list Z * Z, 0 <= st.2 <= MAX_FREQS_PER_CHAN - 1 ->
              0 <= (foldl (fun st f => add_freq_to_list st.1 st.2 f)
                          st offered).2 <= MAX_FREQS_PER_CHAN - 1) as Hinv.
    { induction offered as [|f fs IH]; intros st Hst; [done|].
      simpl. apply IH. by apply add_freq_to_list_count. }
    specialize (Hinv (freqs0, 0)). unfold MAX_FREQS_PER_CHAN in *.
    simpl in Hinv. lia.
  - intros freqs f. reflexivity.
Qed.

(** The bound is reached: 63 pairwise distant frequencies fill the list to
    63 entries, and a further one is dropped. *)
Example add_freq_to_list_reaches_63 :
  let offered := (fun k => 200 + 2 * k) <$> seqZ 0 70 in
  (foldl (fun st f => add_freq_to_list st.1 st.2 f)
         (replicate 64 0, 0) offered).2 = 63.
Proof. vm_compute. reflexivity. Qed.

(** ** One analysis window *)

Section Window.
Context `{Externals}.

Lemma extract_frequencies_defined (off size : Z) (wav : audio)
    (m : channel_mem) :
  0 <= off -> 0 <= size -> off + size <= Z.of_nat (length (m_wave m)) ->
  sample_rate wav <> 0 ->
  let fft := gsl_fft_real_radix2_transform
               (windowed_copy off size (m_wave m)) 1 size in
  let threshold := window_threshold size wav fft.2 in
  extract_frequencies off size wav m =
    if negb (fft.1 =? 0) then Some m
    else if lt threshold POWER_NOISE_LEVEL then Some m
    else
      let st := foldl (peak_step (power_spectrum fft.2 size) threshold size wav)
                  (mk_peak false zero 0 (m_freqs m) (m_nfreqs m))
                  (scanned_bins size wav) in
      Some (mk_mem (m_wave m) (p_freqs st) (p_nfreqs st)
              (if lt (m_max_thresh m) threshold then threshold
               else m_max_thresh m)).
Proof.
  intros Hoff Hsize Hlen Hsr. cbv zeta. unfold extract_frequencies.
  rewrite decide_True by done.
  destruct (gsl_fft_real_radix2_transform _ 1 size) as [status data]. simpl.
  destruct (negb (status =? 0)); [done|].
  rewrite decide_False by done. done.
Qed.

(** C9. On every window that lies inside the channel's waveform,
    [extract_frequencies] returns and the waveform it was given is the
    same afterwards: the windowing and the in-place transform run on the
    local copy [data], and only the frequency list, its count and the
    maximum threshold can differ. *)
Theorem extract_frequencies_keeps_wave (off size : Z) (wav : audio)
    (m : channel_mem) :
  0 <= off -> 0 <= size -> off + size <= Z.of_nat (length (m_wave m)) ->
  sample_rate wav <> 0 ->
  exists m', extract_frequencies off size wav m = Some m' /\
             m_wave m' = m_wave m.
Proof.
  intros Hoff Hsize Hlen Hsr.
  rewrite extract_frequencies_defined by done. cbv zeta.
  destruct (negb _); [by exists m|].
  destruct (lt _ POWER_NOISE_LEVEL); [by exists m|].
  eexists. split; [reflexivity|]. reflexivity.
Qed.

End Window.

Example extract_frequencies_one_peak :
  let wav := mk_audio 1 1000 32 3 0 3000 in
  let m := mk_mem (of_Z <$> [7; 0; 0; 100; 0; 0; 0; 0; 0; 9])
                  (replicate 64 0) 0 zero in
  @extract_frequencies plain_externals 1 8 wav m
  = Some (mk_mem (m_wave m) (250 :: replicate 63 0) 1 (of_Z 25)).
Proof. vm_compute. reflexivity. Qed.

Lemma extract_frequencies_keeps_wave_witness :
  let wav := mk_audio 1 1000 32 3 0 3000 in
  let m := mk_mem (of_Z <$> [7; 0; 0; 100; 0; 0; 0; 0; 0; 9])
                  (replicate 64 0) 0 zero in
  exists m', @extract_frequencies plain_externals 1 8 wav m = Some m' /\
             m_wave m' = m_wave m.
Proof.
  intros wav m.
  apply (@extract_frequencies_keeps_wave plain_externals 1 8 wav m).
  - lia.
  - lia.
  - simpl. lia.
  - simpl. lia.
Defined.

(** ** Windows below the noise floor *)




Section Quiet.
Context `{Externals}.





End Quiet.


Example silent_window :
  let wav := mk_audio 1 1000 32 3 0 3000 in
  let m := mk_mem (replicate 10 zero) [250; 0; 0] 1 (of_Z 25) in
  @extract_frequencies plain_externals 1 8 wav m = Some m.
Proof. vm_compute. reflexivity. Qed.

(** ** Header validation *)

Lemma to_int32_small (x : Z) :
  0 <= x < 2 ^ 32 -> u32 (to_int32 x) = x /\ (to_int32 x = 0 <-> x = 0).
Proof.
  intros Hx. unfold to_int32, u32. rewrite (Z.mod_small x) by lia.
  destruct (Z.ltb_spec x (2 ^ 31)).
  - rewrite Z.mod_small by lia. done.
  - split; [|lia].
    replace (x - 2 ^ 32) with (x + (-1) * 2 ^ 32) by lia.
    rewrite Z_mod_plus_full. apply Z.mod_small. lia.
Qed.

Lemma extract_audio_parameters_rejects (hdr : wav_format) (wav : audio) :
  0 <= data_chunk_size hdr < 2 ^ 32 ->
  header_violation hdr ->
  (extract_audio_parameters hdr wav).1 = -1.
Proof.
  intros Hchunk Hbad. unfold extract_audio_parameters. simpl.
  destruct (to_int32_small _ Hchunk) as [Hu Hz].
  destruct (Z.eqb_spec (wf_channels hdr) 0) as [|Hc]; [done|].
  destruct (Z.eqb_spec (samples_per_sec hdr) 0) as [|Hr]; [done|].
  destruct (Z.eqb_spec (to_int32 (data_chunk_size hdr)) 0) as [|Hd]; [done|].
  rewrite Hu.
  destruct (Z.eqb_spec (data_chunk_size hdr mod wf_channels hdr) 0)
    as [Hm|Hm]; [|done]. simpl.
  destruct ((wf_bits_per_sample hdr =? 32) || (wf_bits_per_sample hdr =? 24)
            || (wf_bits_per_sample hdr =? 16)) eqn:Hbits; [|done].
  destruct (Z.ltb_spec
    (data_chunk_size hdr / wf_channels hdr / (wf_bits_per_sample hdr / 8)
       / samples_per_sec hdr) MIN_DURATION) as [|Hdur]; [done|].
  exfalso. unfold header_violation in Hbad.
  rewrite !orb_true_iff, !Z.eqb_eq in Hbits.
  destruct Hbad as [?|[?|[?|[?|[?|?]]]]]; try done; try tauto; lia.
Qed.

Lemma le32_range (b : list Z) (off : nat) :
  Forall (fun x => 0 <= x < 256) b -> 0 <= le32 b off < 2 ^ 32.
Proof.
  intros Hb.
  assert (forall i, 0 <= b !!! i < 256) as Hi.
  { intros i. destruct (b !! i) as [x|] eqn:E.
    - rewrite (list_lookup_total_correct _ _ _ E).
      rewrite Forall_lookup in Hb. by eapply Hb.
    - rewrite list_lookup_total_alt, E. simpl. lia. }
  unfold le32.
  pose proof (Hi off). pose proof (Hi (off + 1)%nat).
  pose proof (Hi (off + 2)%nat). pose proof (Hi (off + 3)%nat). lia.
Qed.

(** Closes a goal about an exit path of [main] that returns -1 with
    nothing printed. *)
Ltac returns_minus_one :=
  eexists; split; [reflexivity|]; repeat split; discriminate.

Section Decode.
Context `{Externals}.

(** C7. Whenever the header on standard input has a zero channel count, a
    zero sample rate, a zero data length or one that the channel count
    does not divide, a depth other than 16, 24 or 32 bits, or describes
    less than [MIN_DURATION] seconds, [main] returns -1: the exit status
    is non-zero and nothing has been printed on standard output. *)
Theorem main_rejects_bad_header (fuel : nat) (nfreqs_arg : Z)
    (stdin : list Z) :
  Forall (fun b => 0 <= b < 256) stdin ->
  Z.of_nat (length stdin) < SIZE_MAX ->
  header_violation (decode_header (take riff_size stdin)) ->
  exists o, Analyzer.main fuel nfreqs_arg stdin = Some o /\
            main_ret o = -1 /\ exit_status o <> 0 /\ stdout o = [].
Proof.
  intros Hbytes Hlen Hbad.
  unfold Analyzer.main.
  destruct (decide (length stdin < riff_size)%nat); [returns_minus_one|].
  pose proof (extract_audio_parameters_rejects
                (decode_header (take riff_size stdin))
                (mk_audio 0 0 0 0 nfreqs_arg 0)) as Hrej.
  destruct (extract_audio_parameters _ _) as [r wav]. simpl in Hrej.
  rewrite Hrej; [|apply le32_range; by apply Forall_take|done].
  change (to_size_t (-1)) with SIZE_MAX.
  change (SIZE_MAX <=? 0) with false. cbv iota.
  destruct (negb (malloc_ok SIZE_MAX)); [returns_minus_one|].
  rewrite length_drop.
  destruct (Z.eqb_spec (Z.min SIZE_MAX (Z.of_nat (length stdin - riff_size)))
              SIZE_MAX) as [Hmin|_]; [lia|]. simpl.
  returns_minus_one.
Qed.

End Decode.

Lemma main_rejects_bad_header_witness :
  let stdin :=
    [82; 73; 70; 70; 51; 0; 0; 0; 87; 65; 86; 69;
     102; 109; 116; 32; 16; 0; 0; 0;
     1; 0; 2; 0; 128; 187; 0; 0; 0; 220; 5; 0; 8; 0; 32; 0;
     100; 97; 116; 97; 7; 0; 0; 0;
     1; 2; 3; 4; 5; 6; 7] in
  exists o, @Analyzer.main plain_externals 0 0 stdin = Some o /\
            main_ret o = -1 /\ exit_status o <> 0 /\ stdout o = [].
Proof.
  intros stdin.
  apply (@main_rejects_bad_header plain_externals 0 0 stdin).
  - apply (bool_decide_unpack _). vm_compute. exact I.
  - vm_compute. reflexivity.
  - right. right. right. left. vm_compute. discriminate.
Defined.

(** ** Matching expected and detected frequencies *)

Lemma freqs_are_equal_sound (f1 f2 : Z) :
  is_u32 f1 -> is_u32 f2 ->
  freqs_are_equal f1 f2 FREQ_ACCURACY = true -> within_accuracy f1 f2.
Proof.
  unfold is_u32, UINT_MAX, freqs_are_equal, within_accuracy, FREQ_ACCURACY.
  intros H1 H2 Heq. apply andb_true_iff in Heq as [Hle Hge].
  apply Z.leb_le in Hle, Hge. unfold u32 in *.
  destruct (decide (f2 = 0)) as [->|].
  { change ((0 - 1) mod 2 ^ 32) with (2 ^ 32 - 1) in Hge.
    change ((0 + 1) mod 2 ^ 32) with 1 in Hle. lia. }
  destruct (decide (f2 = 2 ^ 32 - 1)) as [->|].
  { change ((2 ^ 32 - 1 + 1) mod 2 ^ 32) with 0 in Hle.
    change ((2 ^ 32 - 1 - 1) mod 2 ^ 32) with (2 ^ 32 - 2) in Hge. lia. }
  rewrite Z.mod_small in Hle by lia. rewrite Z.mod_small in Hge by lia. lia.
Qed.

Lemma freqs_are_equal_complete (f1 f2 : Z) :
  1 <= f2 <= UINT_MAX - 1 ->
  within_accuracy f1 f2 -> freqs_are_equal f1 f2 FREQ_ACCURACY = true.
Proof.
  unfold UINT_MAX, freqs_are_equal, within_accuracy, FREQ_ACCURACY, u32.
  intros H2 Hw. rewrite !Z.mod_small by lia.
  apply andb_true_iff. rewrite !Z.leb_le. lia.
Qed.

Lemma freq_is_listed_from_spec (n : nat) (i : Z) (freqs : list Z)
    (nfreqs frequency : Z) :
  0 <= i <= nfreqs ->
  freq_is_listed_from n i freqs nfreqs frequency = true <->
  exists j, i <= j < nfreqs /\ j < i + Z.of_nat n /\
    freqs_are_equal frequency (freqs !!! Z.to_nat j) FREQ_ACCURACY = true.
Proof.
  revert i. induction n as [|n IH]; intros i Hi; simpl.
  - split; [done|]. intros (j & ? & ? & _). lia.
  - destruct (Z.eqb_spec i nfreqs) as [->|Hne].
    { split; [done|]. intros (j & ? & ? & _). lia. }
    destruct (freqs_are_equal frequency (freqs !!! Z.to_nat i) FREQ_ACCURACY)
      eqn:E.
    { split; [|done]. intros _. exists i. split; [lia|]. split; [lia|done]. }
    rewrite IH by lia. split.
    + intros (j & ? & ? & ?). exists j. split; [lia|]. split; [lia|done].
    + intros (j & ? & ? & Hj). exists j.
      destruct (decide (j = i)) as [->|]; [congruence|].
      split; [lia|]. split; [lia|done].
Qed.

Lemma freq_is_listed_spec (freqs : list Z) (nfreqs frequency : Z) :
  0 <= nfreqs ->
  freq_is_listed freqs nfreqs frequency = true <->
  exists j, 0 <= j < Z.min nfreqs MAX_FREQS_PER_CHAN /\
    freqs_are_equal frequency (freqs !!! Z.to_nat j) FREQ_ACCURACY = true.
Proof.
  intros Hn. unfold freq_is_listed.
  rewrite freq_is_listed_from_spec by lia. unfold MAX_FREQS_PER_CHAN.
  split; intros (j & ? & ?); exists j.
  - split; [lia|tauto].
  - split; [lia|]. split; [lia|tauto].
Qed.

(** An expected frequency (a planned one lies in [[2, UINT_MAX - 2]]) is
    reported as matched exactly when some detected frequency is within
    [FREQ_ACCURACY] of it. *)
Lemma expected_is_listed_iff (m : channel_mem) (e : Z) :
  0 <= m_nfreqs m <= MAX_FREQS_PER_CHAN ->
  (Z.to_nat (m_nfreqs m) <= length (m_freqs m))%nat ->
  Forall is_u32 (m_freqs m) ->
  2 <= e <= UINT_MAX - 2 ->
  freq_is_listed (m_freqs m) (m_nfreqs m) e = true <->
  exists d, d ∈ detected m /\ within_accuracy d e.
Proof.
  intros Hn Hlen Hall He. rewrite freq_is_listed_spec by lia.
  unfold detected, within_accuracy, MAX_FREQS_PER_CHAN in *. split.
  - intros (j & Hj & Heq).
    destruct (lookup_lt_is_Some_2 (m_freqs m) (Z.to_nat j)) as [d Hd]; [lia|].
    rewrite (list_lookup_total_correct _ _ _ Hd) in Heq.
    exists d. split.
    + apply list_elem_of_lookup. exists (Z.to_nat j).
      rewrite lookup_take_lt by lia. done.
    + rewrite Forall_lookup in Hall.
      apply freqs_are_equal_sound in Heq;
        [|unfold is_u32, UINT_MAX in *; lia|by eapply Hall].
      unfold within_accuracy in Heq. lia.
  - intros (d & Hin & Hw).
    apply list_elem_of_lookup in Hin as [i Hi].
    pose proof (lookup_lt_Some _ _ _ Hi) as Hlt. rewrite length_take in Hlt.
    rewrite lookup_take_lt in Hi by lia.
    exists (Z.of_nat i). split; [lia|].
    rewrite Nat2Z.id, (list_lookup_total_correct _ _ _ Hi).
    rewrite Forall_lookup in Hall. pose proof (Hall _ _ Hi) as Hd.
    unfold is_u32, UINT_MAX, freqs_are_equal, FREQ_ACCURACY, u32 in *.
    rewrite !Z.mod_small by lia. apply andb_true_iff. rewrite !Z.leb_le. lia.
Qed.

(** C2. The comparison marks an expected frequency as matched exactly
    when a detected one is within 1 Hz (see [expected_is_listed_iff]), but
    the delta it prints next to "ok" is [cfreqs[c][i] - efreqs[c][i]],
    the detected entry at the index of the expected one, not the detected
    frequency that matched. With the default plan of one channel at
    48000 Hz and a recording in which a 1000 Hz tone is detected as well,
    the expected frequency 6150 Hz is matched by the detected 6150 Hz
    (delta 0) and printed with a delta of -5150 Hz. *)
Theorem compare_channel_delta_uses_expected_index :
  let wav := mk_audio 1 48000 32 10 4 480000 in
  let m := mk_mem [] ([200; 1000; 6150; 12100; 18050] ++ replicate 59 0)
                  5 (of_Z 100) in
  fill_desired_freqs (alloc_matrix 1 4) wav
    = Some (0, [[200; 6150; 12100; 18050]]) /\
  first_match m 6150 = Some 6150 /\
  compare_channel 0 m [200; 6150; 12100; 18050] wav
    = Some [Expected_header 0 false (of_Z 100);
            Expected_ok 0 200 0; Expected_ok 1 6150 (-5150);
            Expected_ok 2 12100 (-5950); Expected_ok 3 18050 (-5950);
            Not_expected_header 0; Spurious 1000].
Proof. vm_compute. repeat split; reflexivity. Qed.

(** ** Spurious frequencies *)

(** As stated, C4 fails: with the plan of one channel at 416 Hz and three
    tones (200, 202 and 204 Hz) and the detected list 201, 203, 206 Hz,
    each expected frequency is matched, [found] equals the number of
    detected frequencies and the section of spurious frequencies is
    skipped, although 206 Hz is within 1 Hz of no expected frequency. *)
Lemma spurious_not_always_reported :
  ~ (forall (c : Z) (m : channel_mem) (efreqs : list Z) (wav : audio)
            (out : list line) (d : Z),
       compare_channel c m efreqs wav = Some out ->
       m_nfreqs m <> 0 ->
       d ∈ detected m ->
       (forall e, e ∈ efreqs -> ~ within_accuracy d e) ->
       Spurious d ∈ out).
Proof.
  intros Hclaim.
  pose (wav := mk_audio 1 416 32 10 3 4160).
  pose (m := mk_mem [] ([201; 203; 206] ++ replicate 61 0) 3 (of_Z 100)).
  specialize (Hclaim 0 m [200; 202; 204] wav
    [Expected_header 0 false (of_Z 100); Expected_ok 0 200 1;
     Expected_ok 1 202 1; Expected_ok 2 204 2] 206).
  assert (Spurious 206 ∈
    [Expected_header 0 false (of_Z 100); Expected_ok 0 200 1;
     Expected_ok 1 202 1; Expected_ok 2 204 2]) as Hin.
  { apply Hclaim.
    - vm_compute. reflexivity.
    - simpl. lia.
    - change (detected m) with [201; 203; 206].
      do 2 apply list_elem_of_further. apply list_elem_of_here.
    - intros e He. unfold within_accuracy, FREQ_ACCURACY.
      repeat (apply elem_of_cons in He as [->|He]; [lia|]).
      by apply elem_of_nil in He. }
  repeat (apply elem_of_cons in Hin as [Hin|Hin]; [discriminate|]).
  by apply elem_of_nil in Hin.
Qed.

Example plan_416 :
  fill_desired_freqs (alloc_matrix 1 3) (mk_audio 1 416 32 10 3 4160)
  = Some (0, [[200; 202; 204]]).
Proof. vm_compute. reflexivity. Qed.

Lemma matched_count_step (P : Z -> Prop) `{!forall x, Decision (P x)}
    (l : list Z) (k : nat) (e : Z) :
  l !! k = Some e ->
  length (filter P (take (Datatypes.S k) l)) =
  (length (filter P (take k l)) + (if decide (P e) then 1 else 0))%nat.
Proof.
  intros Hk. rewrite (take_S_r _ _ _ Hk), filter_app, length_app.
  f_equal. rewrite filter_cons. destruct (decide (P e)); done.
Qed.

Lemma not_listed_when_far (efreqs : list Z) (n d : Z) :
  0 <= n -> length efreqs = Z.to_nat n ->
  Forall is_u32 efreqs -> is_u32 d ->
  (forall e, e ∈ efreqs -> ~ within_accuracy d e) ->
  freq_is_listed efreqs n d = false.
Proof.
  intros Hn Hlen Hall Hd Hfar.
  destruct (freq_is_listed efreqs n d) eqn:E; [|done]. exfalso.
  apply freq_is_listed_spec in E as (j & Hj & Heq); [|done].
  destruct (lookup_lt_is_Some_2 efreqs (Z.to_nat j)) as [e He]; [lia|].
  rewrite (list_lookup_total_correct _ _ _ He) in Heq.
  apply (Hfar e).
  - eapply list_elem_of_lookup_2. exact He.
  - apply freqs_are_equal_sound; [done| |done].
    rewrite Forall_lookup in Hall. by eapply Hall.
Qed.

(** C4, as the code has it. For a channel whose arrays are those [main]
    allocates, the comparison returns, and when fewer expected frequencies
    were matched than frequencies were detected ([found < ncfreqs[c]]),
    every detected frequency that is within 1 Hz of no expected frequency
    is printed as spurious; otherwise the section is skipped and no
    spurious line is printed. *)
Theorem spurious_reported_when_found_is_short (c : Z) (m : channel_mem)
    (efreqs : list Z) (wav : audio) :
  is_u32 (freqs_per_chan wav) ->
  length efreqs = Z.to_nat (freqs_per_chan wav) ->
  Forall is_u32 efreqs ->
  0 <= m_nfreqs m <= MAX_FREQS_PER_CHAN - 1 ->
  length (m_freqs m) = Z.to_nat MAX_FREQS_PER_CHAN ->
  Forall is_u32 (m_freqs m) ->
  (forall (i : nat) e, efreqs !! i = Some e ->
     freq_is_listed (m_freqs m) (m_nfreqs m) e = true ->
     (i < Z.to_nat MAX_FREQS_PER_CHAN)%nat) ->
  let found :=
    Z.of_nat (length (filter
      (fun e => freq_is_listed (m_freqs m) (m_nfreqs m) e = true) efreqs)) in
  exists out, compare_channel c m efreqs wav = Some out /\
    (found < m_nfreqs m ->
     forall d, d ∈ detected m ->
       (forall e, e ∈ efreqs -> ~ within_accuracy d e) ->
       Spurious d ∈ out) /\
    (m_nfreqs m <= found -> forall d, Spurious d ∉ out).
Proof.
  intros Hn Hlen Hall Hnf Hclen Hcall Hdef found.
  unfold is_u32, UINT_MAX, MAX_FREQS_PER_CHAN in *.
  set (P := fun e => freq_is_listed (m_freqs m) (m_nfreqs m) e = true) in *.
  destruct (for_range_inv
    (fun k (st : Z * list line) =>
       st.1 = Z.of_nat (length (filter P (take (Z.to_nat k) efreqs))) /\
       forall d, Spurious d ∉ st.2)
    (expected_step (m_freqs m) (m_nfreqs m) efreqs)
    (Z.to_nat (freqs_per_chan wav)) 0
    (0, [Expected_header c (m_nfreqs m =? 0) (m_max_thresh m)]))
    as (st & Hrun & Hcount & Hnospur).
  { split; [done|]. intros d Hd.
    apply list_elem_of_singleton in Hd. discriminate. }
  { intros k [fnd out] Hk [Hf Hout]. simpl in Hf, Hout.
    destruct (lookup_lt_is_Some_2 efreqs (Z.to_nat k)) as [e He]; [lia|].
    unfold expected_step. rewrite He. simpl.
    replace (Z.to_nat (k + 1)) with (Datatypes.S (Z.to_nat k)) by lia.
    rewrite (matched_count_step P efreqs _ e He).
    destruct (decide (P e)) as [E|E]; unfold P in E;
      [|apply not_true_is_false in E]; rewrite E; simpl.
    - pose proof (Hdef _ _ He E) as Hlt.
      destruct (lookup_lt_is_Some_2 (m_freqs m) (Z.to_nat k)) as [d Hd];
        [lia|].
      rewrite Hd. simpl. eexists. split; [reflexivity|]. simpl. split.
      + pose proof (length_filter P (take (Z.to_nat k) efreqs)) as Hle.
        rewrite length_take in Hle.
        rewrite u32_small by lia. lia.
      + intros d' Hd'. apply elem_of_app in Hd' as [Hd'|Hd'];
          [by eapply Hout|].
        apply list_elem_of_singleton in Hd'. discriminate.
    - eexists. split; [reflexivity|]. simpl. split.
      + lia.
      + intros d' Hd'. apply elem_of_app in Hd' as [Hd'|Hd'];
          [by eapply Hout|].
        apply list_elem_of_singleton in Hd'. discriminate. }
  replace (Z.to_nat (0 + Z.of_nat (Z.to_nat (freqs_per_chan wav))))
    with (length efreqs) in Hcount by lia.
  rewrite firstn_all in Hcount. fold found in Hcount.
  unfold compare_channel. rewrite Hrun. simpl. rewrite Hcount.
  destruct (Z.ltb_spec found (m_nfreqs m)) as [Hshort|Hfull].
  - destruct (for_range_inv
      (fun k (out : list line) =>
         forall (i : nat) d, Z.of_nat i < k -> m_freqs m !! i = Some d ->
           freq_is_listed efreqs (freqs_per_chan wav) d = false ->
           Spurious d ∈ out)
      (spurious_step efreqs (freqs_per_chan wav) (m_freqs m))
      (Z.to_nat (m_nfreqs m)) 0 (st.2 ++ [Not_expected_header c]))
      as (out & Hrun2 & Hspur).
    { intros i d Hi. lia. }
    { intros k out Hk Hinv.
      destruct (lookup_lt_is_Some_2 (m_freqs m) (Z.to_nat k)) as [d Hd];
        [lia|].
      unfold spurious_step. rewrite Hd. simpl.
      destruct (freq_is_listed efreqs (freqs_per_chan wav) d) eqn:E; simpl.
      - eexists. split; [reflexivity|]. intros i d' Hi Hd' Hfar.
        apply Hinv with i; [|done|done].
        destruct (decide (Z.of_nat i = k)) as [<-|]; [|lia].
        rewrite Nat2Z.id in Hd. congruence.
      - eexists. split; [reflexivity|]. intros i d' Hi Hd' Hfar.
        apply elem_of_app.
        destruct (decide (Z.of_nat i = k)) as [<-|].
        + right. rewrite Nat2Z.id in Hd.
          apply list_elem_of_singleton. congruence.
        + left. apply Hinv with i; [lia|done|done]. }
    exists out. split; [done|]. split; [|lia].
    intros _ d Hin Hfar.
    unfold detected in Hin. apply list_elem_of_lookup in Hin as [i Hi].
    pose proof (lookup_lt_Some _ _ _ Hi) as Hlt. rewrite length_take in Hlt.
    rewrite lookup_take_lt in Hi by lia.
    apply Hspur with i; [lia|done|].
    apply not_listed_when_far; [lia|done|done| |done].
    rewrite Forall_lookup in Hcall.
    unfold is_u32, UINT_MAX. by eapply Hcall.
  - exists st.2. split; [done|]. split; [lia|]. intros _. apply Hnospur.
Qed.

Lemma spurious_reported_when_found_is_short_witness :
  let wav := mk_audio 1 48000 32 10 4 480000 in
  let m := mk_mem [] ([200; 1000; 6150; 12100] ++ replicate 60 0)
                  4 (of_Z 100) in
  let efreqs := [200; 6150; 12100; 18050] in
  let found :=
    Z.of_nat (length (filter
      (fun e => freq_is_listed (m_freqs m) (m_nfreqs m) e = true) efreqs)) in
  exists out, compare_channel 0 m efreqs wav = Some out /\
    (found < m_nfreqs m ->
     forall d, d ∈ detected m ->
       (forall e, e ∈ efreqs -> ~ within_accuracy d e) ->
       Spurious d ∈ out) /\
    (m_nfreqs m <= found -> forall d, Spurious d ∉ out).
Proof.
  intros wav m efreqs.
  apply (spurious_reported_when_found_is_short 0 m efreqs wav).
  - unfold is_u32, UINT_MAX. simpl. lia.
  - reflexivity.
  - apply (bool_decide_unpack _). vm_compute. exact I.
  - unfold MAX_FREQS_PER_CHAN. simpl. lia.
  - reflexivity.
  - apply (bool_decide_unpack _). vm_compute. exact I.
  - intros i e Hi _. apply lookup_lt_Some in Hi.
    unfold MAX_FREQS_PER_CHAN. simpl in Hi. lia.
Defined.

Example compare_channel_spurious :
  compare_channel 0
    (mk_mem [] ([200; 1000; 6150; 12100] ++ replicate 60 0) 4 (of_Z 100))
    [200; 6150; 12100; 18050] (mk_audio 1 48000 32 10 4 480000)
  = Some [Expected_header 0 false (of_Z 100);
          Expected_ok 0 200 0; Expected_ok 1 6150 (-5150);
          Expected_ok 2 12100 (-5950); Expected_ko 3 18050;
          Not_expected_header 0; Spurious 1000].
Proof. vm_compute. reflexivity. Qed.

(** ** The sample quantizer *)

Import Generator.

Lemma trunc_truncation_of (x : double) (q : Z) :
  trunc x = Some q -> truncation_of x q.
Proof.
  unfold trunc, truncation_of, num_den.
  destruct x as [s|s| |s m e]; try discriminate.
  - intros [= <-]. simpl. lia.
  - intros [= <-]. destruct (Z.leb_spec 0 e) as [He|He].
    + assert (0 < 2 ^ e) by (apply Z.pow_pos_nonneg; lia).
      destruct s; split; nia.
    + assert (0 < 2 ^ (- e)) as Hd by (apply Z.pow_pos_nonneg; lia).
      pose proof (Z.div_pos (Z.pos m) (2 ^ (- e)) ltac:(lia) Hd) as Hq.
      pose proof (Z.mul_div_le (Z.pos m) (2 ^ (- e)) Hd) as Hlo.
      pose proof (Z.mul_succ_div_gt (Z.pos m) (2 ^ (- e)) Hd) as Hhi.
      destruct s; split; nia.
Qed.

Lemma quantize_spec (bits : Z) (x : double) (q : Z) :
  quantize bits x = Some q ->
  (bits = 16 \/ bits = 32) /\
  truncation_of (mul x (of_Z (full_scale bits))) q /\
  - full_scale bits - 1 <= q <= full_scale bits.
Proof.
  unfold quantize, full_scale, to_int.
  destruct (Z.eqb_spec bits 16) as [->|H16].
  - intros Hq. split; [by left|].
    destruct (trunc _) as [t|] eqn:E; [|discriminate]. simpl in Hq.
    destruct (Z.leb_spec (-32768) t); [|discriminate].
    destruct (Z.leb_spec t INT16_MAX); [|discriminate].
    injection Hq as <-. split; [by apply trunc_truncation_of|].
    unfold INT16_MAX in *. lia.
  - destruct (Z.eqb_spec bits 32) as [->|H32]; [|discriminate].
    intros Hq. split; [by right|].
    destruct (trunc _) as [t|] eqn:E; [|discriminate]. simpl in Hq.
    destruct (Z.leb_spec INT32_MIN t); [|discriminate].
    destruct (Z.leb_spec t INT32_MAX); [|discriminate].
    injection Hq as <-. split; [by apply trunc_truncation_of|].
    unfold INT32_MIN, INT32_MAX in *. lia.
Qed.

(** As stated, C3 fails: the conversion to the integer type discards the
    fractional part. The sample 0.25 at 16 bits is stored as 8191 although
    0.25 * 32767 = 8191.75 is nearest to 8192. *)
Lemma quantize_does_not_round :
  ~ (forall (x : double) (q : Z),
       in_unit_interval x ->
       quantize 16 x = Some q -> nearest_to_scaled x (full_scale 16) q).
Proof.
  intros Hclaim.
  assert (in_unit_interval (S754_finite false 4503599627370496 (-54)))
    as Hx by (split; [reflexivity|vm_compute; discriminate]).
  specialize (Hclaim (S754_finite false 4503599627370496 (-54)) 8191
                Hx eq_refl).
  vm_compute in Hclaim. by apply Hclaim.
Qed.

Example quantize_quarter :
  quantize 16 (S754_finite false 4503599627370496 (-54)) = Some 8191 /\
  quantize 32 (S754_finite false 4503599627370496 (-54)) = Some 536870911 /\
  quantize 16 (of_Z 1) = Some 32767 /\
  quantize 16 (of_Z (-1)) = Some (-32767) /\
  quantize 32 (of_Z 1) = Some 2147483647.
Proof. vm_compute. repeat split; reflexivity. Qed.

Lemma put_sample_spec (buf : list Z) (waves : list (list double))
    (wav : audio) (s c : Z) :
  0 <= c < channels wav -> 0 <= s < samples_per_chan wav ->
  channels wav * samples_per_chan wav <= 2 ^ 32 ->
  channels wav * samples_per_chan wav <= Z.of_nat (length buf) ->
  length waves = Z.to_nat (channels wav) ->
  Forall (fun row => length row = Z.to_nat (samples_per_chan wav)) waves ->
  Forall (Forall (fun x => is_Some (quantize (bits_per_sample wav) x))) waves ->
  exists x q,
    waves !! Z.to_nat c ≫= (fun row => row !! Z.to_nat s) = Some x /\
    quantize (bits_per_sample wav) x = Some q /\
    put_sample buf waves wav s c
      = Some (<[Z.to_nat (s * channels wav + c) := q]> buf).
Proof.
  intros Hc Hs Hwrap Hbuf Hrows Hcols Hfit.
  destruct (lookup_lt_is_Some_2 waves (Z.to_nat c)) as [row Hrow]; [lia|].
  rewrite Forall_lookup in Hcols. pose proof (Hcols _ _ Hrow) as Hlen.
  destruct (lookup_lt_is_Some_2 row (Z.to_nat s)) as [x Hx]; [lia|].
  rewrite Forall_lookup in Hfit. pose proof (Hfit _ _ Hrow) as Hfrow.
  rewrite Forall_lookup in Hfrow. destruct (Hfrow _ _ Hx) as [q Hq].
  exists x, q. rewrite Hrow. simpl. split; [done|]. split; [done|].
  unfold put_sample. rewrite Hrow. simpl. rewrite Hx. simpl.
  rewrite Hq. simpl.
  assert (0 <= s * channels wav + c < channels wav * samples_per_chan wav)
    by nia.
  rewrite (u32_small (s * channels wav)) by nia.
  rewrite u32_small by lia.
  rewrite decide_True by lia. done.
Qed.

(** C3, as the code has it. For a depth of 16 or 32 bits, waveforms of
    [samples_per_chan] samples per channel whose scaled values fit the
    integer type, and a buffer of at least [channels * samples_per_chan]
    samples, [fill_audio_buf] returns a buffer of the same length that
    holds at position [s * channels + c] the product
    [waves[c][s] * full_scale] (a double) with its fractional part
    discarded: rounded toward zero, not to the nearest integer. The full
    scale is 32767 at 16 bits and 2^31 - 1 at 32 bits. *)
Theorem fill_audio_buf_truncates (buf : list Z) (waves : list (list double))
    (wav : audio) :
  bits_per_sample wav = 16 \/ bits_per_sample wav = 32 ->
  0 <= channels wav -> 0 <= samples_per_chan wav ->
  channels wav * samples_per_chan wav <= 2 ^ 32 ->
  channels wav * samples_per_chan wav <= Z.of_nat (length buf) ->
  length waves = Z.to_nat (channels wav) ->
  Forall (fun row => length row = Z.to_nat (samples_per_chan wav)) waves ->
  Forall (Forall (fun x => is_Some (quantize (bits_per_sample wav) x))) waves ->
  exists buf',
    fill_audio_buf buf waves wav = Some buf' /\
    length buf' = length buf /\
    forall c s, 0 <= c < channels wav -> 0 <= s < samples_per_chan wav ->
      exists x q,
        waves !! Z.to_nat c ≫= (fun row => row !! Z.to_nat s) = Some x /\
        buf' !! Z.to_nat (s * channels wav + c) = Some q /\
        truncation_of (mul x (of_Z (full_scale (bits_per_sample wav)))) q /\
        - full_scale (bits_per_sample wav) - 1 <= q
          <= full_scale (bits_per_sample wav).
Proof.
  intros Hbits HC HS Hwrap Hbuf Hrows Hcols Hfit.
  set (stored := fun (b : list Z) (s c : Z) =>
    exists x q,
      waves !! Z.to_nat c ≫= (fun row => row !! Z.to_nat s) = Some x /\
      quantize (bits_per_sample wav) x = Some q /\
      b !! Z.to_nat (s * channels wav + c) = Some q).
  destruct (for_range_inv
    (fun s b => length b = length buf /\
       forall s' c', 0 <= s' < s -> 0 <= c' < channels wav -> stored b s' c')
    (fun s b => for_range (Z.to_nat (channels wav)) 0
                  (fun c b => put_sample b waves wav s c) b)
    (Z.to_nat (samples_per_chan wav)) 0 buf) as (buf' & Hrun & Hlen & Hall).
  { split; [done|]. intros; lia. }
  { intros s b Hs [Hlb Hdone].
    destruct (for_range_inv
      (fun c b' => length b' = length buf /\
         forall s' c', 0 <= s' -> 0 <= c' < channels wav ->
           s' < s \/ (s' = s /\ c' < c) -> stored b' s' c')
      (fun c b => put_sample b waves wav s c)
      (Z.to_nat (channels wav)) 0 b) as (b' & Hrun & Hlb' & Hall).
    - split; [done|]. intros s' c' Hs' Hc' [Hlt|[_ Hlt]]; [|lia].
      apply Hdone; lia.
    - intros c t Hc [Hlt Hinv].
      destruct (put_sample_spec t waves wav s c)
        as (x & q & Hx & Hq & Hput); try done; try lia.
      eexists. split; [exact Hput|]. split; [by rewrite length_insert|].
      intros s' c' Hs' Hc' Hcase.
      destruct (decide (s' = s /\ c' = c)) as [[-> ->]|Hne].
      + exists x, q. split; [done|]. split; [done|].
        apply list_lookup_insert_eq. nia.
      + destruct (Hinv s' c') as (x' & q' & Hx' & Hq' & Hb'); [done|done| |].
        { destruct Hcase as [?|[-> ?]]; [by left|right; lia]. }
        exists x', q'. split; [done|]. split; [done|].
        rewrite list_lookup_insert_ne; [done|].
        assert (s * channels wav + c <> s' * channels wav + c') by nia.
        assert (0 <= s * channels wav + c) by nia.
        assert (0 <= s' * channels wav + c') by nia. lia.
    - exists b'. split; [done|]. split; [done|].
      intros s' c' Hs' Hc'. apply Hall; [lia|lia|].
      destruct (decide (s' = s)) as [->|]; [right; lia|left; lia]. }
  exists buf'. split; [|split; [done|]].
  - unfold fill_audio_buf.
    destruct Hbits as [-> | ->]; simpl; exact Hrun.
  - intros c s Hc Hs.
    destruct (Hall s c) as (x & q & Hx & Hq & Hb); [lia|done|].
    exists x, q. split; [done|]. split; [done|].
    by destruct (quantize_spec _ _ _ Hq) as (_ & ? & ?).
Qed.

Lemma fill_audio_buf_truncates_witness :
  let wav := mk_audio 2 3 16 1 1 3 in
  let quarter := S754_finite false 4503599627370496 (-54) in
  let waves := [[quarter; of_Z 1; zero]; [of_Z (-1); quarter; quarter]] in
  exists buf',
    fill_audio_buf (replicate 6 0) waves wav = Some buf' /\
    length buf' = 6%nat /\
    forall c s, 0 <= c < 2 -> 0 <= s < 3 ->
      exists x q,
        waves !! Z.to_nat c ≫= (fun row => row !! Z.to_nat s) = Some x /\
        buf' !! Z.to_nat (s * 2 + c) = Some q /\
        truncation_of (mul x (of_Z 32767)) q /\
        - 32767 - 1 <= q <= 32767.
Proof.
  intros wav quarter waves.
  apply (fill_audio_buf_truncates (replicate 6 0) waves wav).
  - left. reflexivity.
  - simpl. lia.
  - simpl. lia.
  - simpl. lia.
  - simpl. lia.
  - reflexivity.
  - repeat constructor.
  - repeat constructor; vm_compute; eexists; reflexivity.
Defined.

Example fill_audio_buf_interleaves :
  let quarter := S754_finite false 4503599627370496 (-54) in
  fill_audio_buf (replicate 6 0)
    [[quarter; of_Z 1; zero]; [of_Z (-1); quarter; quarter]]
    (mk_audio 2 3 16 1 1 3)
  = Some [8191; -32767; 32767; 8191; 0; 8191].
Proof. vm_compute. reflexivity. Qed.

(** ** The sliding-window scan *)

Lemma add_freq_to_list_inv (P : Z -> Prop) (freqs : list Z)
    (nfreqs frequency : Z) :
  0 <= nfreqs <= MAX_FREQS_PER_CHAN - 1 -> P frequency ->
  Forall P (take (Z.to_nat nfreqs) freqs) ->
  let r := add_freq_to_list freqs nfreqs frequency in
  Forall P (take (Z.to_nat r.2) r.1).
Proof.
  intros Hn Hf Hall. cbv zeta. unfold add_freq_to_list, MAX_FREQS_PER_CHAN in *.
  rewrite (u32_small (nfreqs + 1)) by lia.
  destruct (64 <=? nfreqs + 1); [done|].
  destruct (negb _); [|done]. simpl.
  replace (Z.to_nat (nfreqs + 1)) with (Datatypes.S (Z.to_nat nfreqs)) by lia.
  destruct (decide (Z.to_nat nfreqs < length freqs)%nat) as [Hlt|Hge].
  - rewrite (take_S_r _ _ frequency) by (by apply list_lookup_insert_eq).
    rewrite take_insert_ge by lia.
    apply Forall_app. split; [done|]. by constructor.
  - rewrite list_insert_ge by lia.
    rewrite take_ge by lia. rewrite take_ge in Hall by lia. done.
Qed.

Section Scan.
Context `{Externals}.

Lemma peak_scan_inv (P : Z -> Prop) (power : list double)
    (threshold : double) (size : Z) (wav : audio) (bins : list Z)
    (st : peak_state) :
  (forall idx, P (bin_frequency size wav idx)) ->
  0 <= p_nfreqs st <= MAX_FREQS_PER_CHAN - 1 ->
  Forall P (take (Z.to_nat (p_nfreqs st)) (p_freqs st)) ->
  let st' := foldl (peak_step power threshold size wav) st bins in
  length (p_freqs st') = length (p_freqs st) /\
  0 <= p_nfreqs st' <= MAX_FREQS_PER_CHAN - 1 /\
  Forall P (take (Z.to_nat (p_nfreqs st')) (p_freqs st')).
Proof.
  intros HP. revert st. cbv zeta.
  induction bins as [|i bins IH]; intros st Hn Hall; [done|].
  simpl.
  assert (length (p_freqs (peak_step power threshold size wav st i))
            = length (p_freqs st) /\
          0 <= p_nfreqs (peak_step power threshold size wav st i)
            <= MAX_FREQS_PER_CHAN - 1 /\
          Forall P (take (Z.to_nat (p_nfreqs
                       (peak_step power threshold size wav st i)))
                      (p_freqs (peak_step power threshold size wav st i))))
    as (Hl & Hn' & Hall').
  { unfold peak_step.
    destruct (lt threshold _).
    - destruct (lt (local_max st) _); done.
    - destruct (above st); [|done].
      pose proof (add_freq_to_list_count (p_freqs st) (p_nfreqs st)
        (bin_frequency size wav (local_max_idx st)) Hn) as Hc.
      pose proof (add_freq_to_list_length (p_freqs st) (p_nfreqs st)
        (bin_frequency size wav (local_max_idx st))) as Hlen.
      pose proof (add_freq_to_list_inv P (p_freqs st) (p_nfreqs st)
        (bin_frequency size wav (local_max_idx st)) Hn (HP _) Hall) as Hi.
      destruct (add_freq_to_list _ _ _) as [fr n]. done. }
  destruct (IH _ Hn' Hall') as (? & ? & ?).
  split; [congruence|done].
Qed.

Lemma extract_frequencies_inv (P : Z -> Prop) (off size : Z) (wav : audio)
    (wave : list double) (len : nat) (m : channel_mem) :
  (forall idx, P (bin_frequency size wav idx)) ->
  0 <= off -> 0 <= size -> off + size <= Z.of_nat (length wave) ->
  sample_rate wav <> 0 ->
  scan_invariant P wave len m ->
  exists m', extract_frequencies off size wav m = Some m' /\
             scan_invariant P wave len m'.
Proof.
  intros HP Hoff Hsize Hlen Hsr (Hw & Hl & Hn & Hall).
  rewrite extract_frequencies_defined by (done || by rewrite Hw).
  cbv zeta.
  destruct (negb _); [by exists m|].
  destruct (lt _ POWER_NOISE_LEVEL); [by exists m|].
  eexists. split; [reflexivity|].
  epose proof (peak_scan_inv P _ _ size wav _
                 (mk_peak false zero 0 (m_freqs m) (m_nfreqs m)) HP Hn Hall)
    as (Hl' & Hn' & Hall').
  split; [done|]. split; [simpl in *; rewrite <- Hl; exact Hl'|].
  split; [exact Hn'|]. exact Hall'.
Qed.

Lemma window_loop_inv (P : Z -> Prop) (wave : list double) (len : nat)
    (fuel : nat) (offset slide windows_sz : Z) (wav : audio) (i : Z)
    (m : channel_mem) :
  (forall idx, P (bin_frequency windows_sz wav idx)) ->
  sample_rate wav <> 0 ->
  0 <= i -> 0 <= windows_sz -> 0 < slide ->
  u32 (samples_per_chan wav - offset) <= Z.of_nat (length wave) ->
  (0 < fuel)%nat ->
  u32 (samples_per_chan wav - offset)
    <= i + windows_sz + (Z.of_nat fuel - 1) * slide ->
  i + windows_sz + Z.of_nat fuel * slide <= 2 ^ 32 ->
  scan_invariant P wave len m ->
  exists m', window_loop fuel offset slide windows_sz wav i m = Some m' /\
             scan_invariant P wave len m'.
Proof.
  intros HP Hsr. revert i m.
  induction fuel as [|fuel IH]; intros i m Hi Hw Hs Hlim Hfuel Hend Hmax Hinv;
    [lia|].
  simpl. rewrite (u32_small (i + windows_sz)) by nia.
  destruct (Z.ltb_spec (i + windows_sz) (u32 (samples_per_chan wav - offset)))
    as [Hin|Hout]; [|by exists m].
  destruct (extract_frequencies_inv P i windows_sz wav wave len m)
    as (m1 & Hm1 & Hinv1); try done; [lia|].
  rewrite Hm1. simpl. rewrite (u32_small (i + slide)) by nia.
  apply IH; try done; try nia.
Qed.

Lemma extract_channel_defined (wave : list double) (buf : list Z)
    (chan : Z) (wav : audio) :
  0 <= chan < channels wav ->
  channels wav * samples_per_chan wav <= 2 ^ 32 ->
  channels wav * samples_per_chan wav <= Z.of_nat (length buf) ->
  samples_per_chan wav <= Z.of_nat (length wave) ->
  exists wave', extract_channel wave buf chan wav = Some wave' /\
                length wave' = length wave.
Proof.
  intros Hc Hwrap Hbuf Hwave. unfold extract_channel.
  destruct (for_range_inv (fun _ (w : list double) => length w = length wave)
    (fun s w =>
       v ← get_sample buf chan (channels wav) s;
       if decide (Z.to_nat s < length w)%nat
       then Some (<[Z.to_nat s := div (of_Z v)
                     (sample_factor (bits_per_sample wav))]> w)
       else None)
    (Z.to_nat (samples_per_chan wav)) 0 wave) as (w' & Hrun & Hlen);
    [done| |by exists w'].
  intros s w Hs Hw. unfold get_sample.
  assert (0 <= channels wav * s + chan < channels wav * samples_per_chan wav)
    by nia.
  rewrite (u32_small (channels wav * s)) by nia.
  rewrite u32_small by lia.
  destruct (lookup_lt_is_Some_2 buf (Z.to_nat (channels wav * s + chan)))
    as [v Hv]; [lia|].
  rewrite Hv. simpl. rewrite decide_True by lia.
  eexists. split; [reflexivity|]. by rewrite length_insert.
Qed.

Lemma scan_channel_inv (P : Z -> Prop) (fuel : nat) (wav : audio)
    (buf : list Z) (wave : list double) (c : Z) :
  let offset := sample_rate wav / 2 in
  let slide := next_pow_2 (sample_rate wav / 2) in
  let windows_sz := u32 (2 * slide) in
  (forall idx, P (bin_frequency windows_sz wav idx)) ->
  sample_rate wav <> 0 ->
  0 <= c < channels wav ->
  channels wav * samples_per_chan wav <= 2 ^ 32 ->
  channels wav * samples_per_chan wav <= Z.of_nat (length buf) ->
  samples_per_chan wav <= Z.of_nat (length wave) ->
  0 <= offset -> 0 <= windows_sz -> 0 < slide ->
  u32 (samples_per_chan wav - offset) <= Z.of_nat (length wave) ->
  (0 < fuel)%nat ->
  u32 (samples_per_chan wav - offset)
    <= offset + windows_sz + (Z.of_nat fuel - 1) * slide ->
  offset + windows_sz + Z.of_nat fuel * slide <= 2 ^ 32 ->
  exists m, scan_channel fuel wav buf wave c = Some m /\
    length (m_wave m) = length wave /\
    0 <= m_nfreqs m <= MAX_FREQS_PER_CHAN - 1 /\
    Forall P (detected m).
Proof.
  intros offset slide windows_sz HP Hsr Hc Hwrap Hbuf Hwave Hoff Hw Hs Hlim
    Hfuel Hend Hmax.
  unfold scan_channel.
  destruct (extract_channel_defined wave buf c wav)
    as (wave' & Hex & Hlen); try done.
  rewrite Hex. cbn [mbind option_bind].
  destruct (window_loop_inv P wave' (Z.to_nat MAX_FREQS_PER_CHAN) fuel
    offset slide windows_sz wav offset
    (mk_mem wave' (replicate (Z.to_nat MAX_FREQS_PER_CHAN) 0) 0 zero))
    as (m & Hm & Hwm & Hl & Hn & Hall); try done.
  { rewrite Hlen. exact Hlim. }
  exists m. split; [exact Hm|]. rewrite Hwm. done.
Qed.

(** C8. With a sample rate of 96000 Hz the round trip cannot succeed:
    the plan of one channel with four tones contains 36050 Hz, and for
    every buffer of ten seconds of samples (the generator's included) the
    scan of [main] returns a list whose frequencies are all at most
    32767 Hz, because [wav->sample_rate * local_max_idx] is computed
    modulo 2^32 before the division by the window size 131072. No
    detected frequency is within 1 Hz of the planned 36050 Hz. *)
Theorem scan_misses_high_tone_at_96k (buf : list Z) :
  let wav := mk_audio 1 96000 32 10 4 960000 in
  length buf = Z.to_nat 960000 ->
  fill_desired_freqs (alloc_matrix 1 4) wav
    = Some (0, [[200; 12150; 24100; 36050]]) /\
  exists m, scan 13 wav buf = Some [m] /\
    Forall (fun f => f <= 32767) (detected m) /\
    ~ exists d, d ∈ detected m /\ within_accuracy d 36050.
Proof.
  intros wav Hbuf. split; [vm_compute; reflexivity|].
  unfold scan.
  set (w0 := replicate (Z.to_nat (samples_per_chan wav)) zero).
  assert (length w0 = Z.to_nat 960000) as Hw0 by apply length_replicate.
  clearbody w0.
  assert (next_pow_2 (sample_rate wav / 2) = 65536) as Hslide
    by (vm_compute; reflexivity).
  destruct (scan_channel_inv (fun f => f <= 32767) 13 wav buf w0 0)
    as (m & Hm & _ & _ & Hall); rewrite ?Hslide, ?Hbuf, ?Hw0;
    change (u32 (2 * 65536)) with 131072;
    change (sample_rate wav / 2) with 48000;
    change (samples_per_chan wav) with 960000;
    change (channels wav) with 1;
    change (u32 (960000 - 48000)) with 912000; try lia.
  { intros idx. unfold bin_frequency.
    pose proof (u32_range (sample_rate wav * idx)) as Hr.
    assert (u32 (sample_rate wav * idx) / 131072 < 32768)
      by (apply Z.div_lt_upper_bound; lia).
    lia. }
  { discriminate. }
  change (Z.to_nat 1) with 1%nat. cbn [for_range fst snd].
  exists m. split.
  - change (mk_audio 1 96000 32 10 4 960000) with wav. rewrite Hm. reflexivity.
  - split; [done|].
    intros (d & Hd & Hacc). rewrite Forall_forall in Hall.
    specialize (Hall d Hd). unfold within_accuracy, FREQ_ACCURACY in Hacc. lia.
Qed.

End Scan.

Lemma scan_misses_high_tone_at_96k_witness :
  let wav := mk_audio 1 96000 32 10 4 960000 in
  fill_desired_freqs (alloc_matrix 1 4) wav
    = Some (0, [[200; 12150; 24100; 36050]]) /\
  exists m,
    @scan plain_externals 13 wav (replicate (Z.to_nat 960000) 0) = Some [m] /\
    Forall (fun f => f <= 32767) (detected m) /\
    ~ exists d, d ∈ detected m /\ within_accuracy d 36050.
Proof.
  intros wav.
  apply (@scan_misses_high_tone_at_96k plain_externals
           (replicate (Z.to_nat 960000) 0)).
  apply length_replicate.
Defined.


(** * Further properties *)

(** ** Packed 24-bit samples *)

Lemma lor_high_low (h l k : Z) :
  0 <= k -> 0 <= h -> 0 <= l < 2 ^ k ->
  Z.lor (h * 2 ^ k) l = h * 2 ^ k + l.
Proof.
  intros Hk Hh Hl.
  assert (0 < 2 ^ k) as Hp by (apply Z.pow_pos_nonneg; lia).
  rewrite (Z.div_mod (Z.lor (h * 2 ^ k) l) (2 ^ k)) by lia.
  rewrite <- Z.shiftr_div_pow2 by lia.
  rewrite <- Z.land_ones by lia.
  rewrite Z.shiftr_lor, Z.land_lor_distr_l.
  rewrite !Z.shiftr_div_pow2 by lia. rewrite !Z.land_ones by lia.
  rewrite Z.div_mul by lia. rewrite (Z.div_small l) by lia.
  rewrite Z.mod_mul by lia. rewrite (Z.mod_small l) by lia.
  rewrite Z.lor_0_r, Z.lor_0_l. lia.
Qed.

Import Int24.

Lemma i24_to_i32_value (x : int24_t) :
  int24_wf x ->
  i24_to_i32 x = v1 x * 2 ^ 16 + v2 x * 2 ^ 8 + v3 x.
Proof.
  intros (H1 & H2 & H3). unfold i24_to_i32.
  rewrite !Z.shiftl_mul_pow2 by lia.
  rewrite (u32_small (v3 x)) by lia.
  rewrite (u32_small (v2 x * 2 ^ 8)) by lia.
  destruct (Z.ltb_spec (v1 x) 0) as [Hneg|Hpos].
  - assert (u32 (v1 x * 2 ^ 16) = (v1 x + 2 ^ 16) * 2 ^ 16) as ->.
    { unfold u32.
      replace (v1 x * 2 ^ 16) with ((v1 x + 2 ^ 16) * 2 ^ 16 + (-1) * 2 ^ 32)
        by lia.
      rewrite Z_mod_plus_full. apply Z.mod_small. lia. }
    rewrite (lor_high_low (v1 x + 2 ^ 16) (v2 x * 2 ^ 8) 16) by lia.
    replace ((v1 x + 2 ^ 16) * 2 ^ 16 + v2 x * 2 ^ 8)
      with (((v1 x + 2 ^ 16) * 2 ^ 8 + v2 x) * 2 ^ 8) by lia.
    rewrite lor_high_low by lia.
    unfold to_int32. rewrite Z.mod_small by lia.
    destruct (Z.ltb_spec (((v1 x + 2 ^ 16) * 2 ^ 8 + v2 x) * 2 ^ 8 + v3 x)
                (2 ^ 31)); lia.
  - rewrite (u32_small (v1 x * 2 ^ 16)) by lia.
    rewrite (lor_high_low (v1 x) (v2 x * 2 ^ 8) 16) by lia.
    replace (v1 x * 2 ^ 16 + v2 x * 2 ^ 8)
      with ((v1 x * 2 ^ 8 + v2 x) * 2 ^ 8) by lia.
    rewrite lor_high_low by lia.
    unfold to_int32. rewrite Z.mod_small by lia.
    destruct (Z.ltb_spec ((v1 x * 2 ^ 8 + v2 x) * 2 ^ 8 + v3 x) (2 ^ 31)); lia.
Qed.

Lemma i32_to_i24_fields (a : Z) :
  - 2 ^ 31 <= a < 2 ^ 31 ->
  int24_wf (i32_to_i24 a) /\
  v1 (i32_to_i24 a) * 2 ^ 16 + v2 (i32_to_i24 a) * 2 ^ 8 + v3 (i32_to_i24 a)
  = (a + 2 ^ 23) mod 2 ^ 24 - 2 ^ 23.
Proof.
  intros Ha. unfold i32_to_i24, int24_wf, to_int8, to_uint8, u32. simpl.
  rewrite !Z.shiftr_div_pow2 by lia.
  destruct (Z.ltb_spec ((a / 2 ^ 16) mod 2 ^ 8) (2 ^ 7)).
  - change (2 ^ 7) with 128 in *. change (2 ^ 8) with 256 in *.
    change (2 ^ 16) with 65536 in *. change (2 ^ 23) with 8388608 in *.
    change (2 ^ 24) with 16777216 in *. change (2 ^ 31) with 2147483648 in *.
    change (2 ^ 32) with 4294967296 in *.
    Z.div_mod_to_equations. lia.
  - change (2 ^ 7) with 128 in *. change (2 ^ 8) with 256 in *.
    change (2 ^ 16) with 65536 in *. change (2 ^ 23) with 8388608 in *.
    change (2 ^ 24) with 16777216 in *. change (2 ^ 31) with 2147483648 in *.
    change (2 ^ 32) with 4294967296 in *.
    Z.div_mod_to_equations. lia.
Qed.

(** X1. Packing an [int32_t] into 24 bits and unpacking it keeps the low 24
    bits and extends their sign; a value that fits 24 bits comes back
    unchanged. *)
Theorem i24_of_i32_roundtrip (a : Z) :
  - 2 ^ 31 <= a < 2 ^ 31 ->
  i24_to_i32 (i32_to_i24 a) = (a + 2 ^ 23) mod 2 ^ 24 - 2 ^ 23 /\
  (- 2 ^ 23 <= a < 2 ^ 23 -> i24_to_i32 (i32_to_i24 a) = a).
Proof.
  intros Ha. destruct (i32_to_i24_fields a Ha) as [Hwf Hval].
  rewrite (i24_to_i32_value _ Hwf), Hval. split; [done|].
  intros Hsmall. rewrite Z.mod_small by lia. lia.
Qed.

Lemma i24_of_i32_roundtrip_witness :
  i24_to_i32 (i32_to_i24 (-5)) = (-5 + 2 ^ 23) mod 2 ^ 24 - 2 ^ 23 /\
  (- 2 ^ 23 <= -5 < 2 ^ 23 -> i24_to_i32 (i32_to_i24 (-5)) = -5).
Proof. apply (i24_of_i32_roundtrip (-5)). lia. Defined.

(** X2. Unpacking a well-formed [int24_t] gives the number its three bytes
    denote, inside the 24-bit range, and packing that number gives the
    same three bytes back. *)
Theorem i32_of_i24_roundtrip (x : int24_t) :
  int24_wf x ->
  i24_to_i32 x = v1 x * 2 ^ 16 + v2 x * 2 ^ 8 + v3 x /\
  - 2 ^ 23 <= i24_to_i32 x < 2 ^ 23 /\
  i32_to_i24 (i24_to_i32 x) = x.
Proof.
  intros Hwf. rewrite (i24_to_i32_value x Hwf).
  destruct Hwf as (H1 & H2 & H3). split; [done|]. split; [lia|].
  destruct x as [a b c]. simpl in *.
  unfold i32_to_i24, to_int8, to_uint8, u32.
  rewrite !Z.shiftr_div_pow2 by lia.
  assert ((a * 2 ^ 16 + b * 2 ^ 8 + c) / 2 ^ 16 = a) as ->.
  { symmetry. apply (Z.div_unique _ _ _ (b * 2 ^ 8 + c)); lia. }
  assert ((a * 2 ^ 16 + b * 2 ^ 8 + c) mod 2 ^ 32 mod 2 ^ 8 = c) as ->.
  { change (2 ^ 8) with 256 in *. change (2 ^ 16) with 65536 in *.
    change (2 ^ 32) with 4294967296 in *. change (2 ^ 7) with 128 in *.
    Z.div_mod_to_equations. lia. }
  assert (((a * 2 ^ 16 + b * 2 ^ 8 + c) mod 2 ^ 32 / 2 ^ 8) mod 2 ^ 8 = b) as ->.
  { change (2 ^ 8) with 256 in *. change (2 ^ 16) with 65536 in *.
    change (2 ^ 32) with 4294967296 in *. change (2 ^ 7) with 128 in *.
    Z.div_mod_to_equations. lia. }
  f_equal.
  change (2 ^ 8) with 256 in *. change (2 ^ 7) with 128 in *.
  destruct (Z.ltb_spec (a mod 256) 128); Z.div_mod_to_equations; lia.
Qed.

Lemma i32_of_i24_roundtrip_witness :
  let x := mk_int24 (-1) 255 251 in
  i24_to_i32 x = v1 x * 2 ^ 16 + v2 x * 2 ^ 8 + v3 x /\
  - 2 ^ 23 <= i24_to_i32 x < 2 ^ 23 /\
  i32_to_i24 (i24_to_i32 x) = x.
Proof.
  intros x. apply (i32_of_i24_roundtrip x).
  unfold int24_wf. simpl. lia.
Defined.


(** ** Window sizing *)

Lemma highest_bit_spec (n : nat) (i val : Z) :
  i = Z.of_nat n - 1 ->
  let r := highest_bit n i val in
  -1 <= r <= i /\
  (0 <= r -> Z.testbit val r = true) /\
  (forall j, r < j <= i -> Z.testbit val j = false).
Proof.
  revert i. induction n as [|n IH]; intros i Hi; cbn [highest_bit].
  - cbv zeta. split; [lia|]. split; [lia|]. intros j Hj. lia.
  - destruct (Z.testbit val i) eqn:E.
    + cbv zeta. split; [lia|]. split; [done|]. intros j Hj. lia.
    + specialize (IH (i - 1) ltac:(lia)). cbv zeta in IH |- *.
      destruct IH as (Hr & Hset & Hclear).
      split; [lia|]. split; [done|]. intros j Hj.
      destruct (decide (j = i)) as [->|]; [done|]. apply Hclear. lia.
Qed.

Lemma below_pow2_of_clear_bits (val m : Z) :
  0 <= val -> 0 <= m ->
  (forall j, m <= j -> Z.testbit val j = false) -> val < 2 ^ m.
Proof.
  intros Hval Hm Hclear.
  destruct (decide (val = 0)) as [->|Hnz].
  { apply Z.pow_pos_nonneg; lia. }
  apply Z.log2_lt_pow2; [lia|].
  destruct (Z.lt_ge_cases (Z.log2 val) m) as [|Hge]; [done|].
  pose proof (Z.bit_log2 val ltac:(lia)) as Hbit.
  rewrite Hclear in Hbit by done. discriminate.
Qed.

Lemma above_pow2_of_set_bit (val r : Z) :
  0 <= val -> 0 <= r -> Z.testbit val r = true -> 2 ^ r <= val.
Proof.
  intros Hval Hr Hbit.
  destruct (Z.lt_ge_cases val (2 ^ r)) as [Hlt|]; [|done].
  destruct (decide (val = 0)) as [->|Hnz].
  { rewrite Z.bits_0 in Hbit. discriminate. }
  rewrite Z.bits_above_log2 in Hbit; [discriminate|lia|].
  apply Z.log2_lt_pow2; lia.
Qed.

(** X3. [next_pow_2] returns a power of two. Below 2^31 that power is
    strictly greater than its argument (an exact power of two is doubled,
    and 0 gives 1) and at most twice a non-zero argument; from 2^31 on
    the result is 2^31, which is no longer greater than the argument. *)
Theorem next_pow_2_bounds (val : Z) :
  is_u32 val ->
  exists k, 0 <= k <= 31 /\ next_pow_2 val = 2 ^ k /\
    (val < 2 ^ 31 -> val < next_pow_2 val /\
                     (1 <= val -> next_pow_2 val <= 2 * val)) /\
    (2 ^ 31 <= val -> next_pow_2 val = 2 ^ 31).
Proof.
  unfold is_u32, UINT_MAX. intros Hval. unfold next_pow_2.
  destruct (Z.testbit val 31) eqn:E31.
  - exists 31. split; [lia|]. split; [done|].
    pose proof (above_pow2_of_set_bit val 31 ltac:(lia) ltac:(lia) E31).
    split; [lia|done].
  - destruct (highest_bit_spec 31 30 val eq_refl) as (Hr & Hset & Hclear).
    set (r := highest_bit 31 30 val) in *.
    assert (val < 2 ^ (r + 1)) as Hlt.
    { apply below_pow2_of_clear_bits; [lia|lia|]. intros j Hj.
      destruct (Z.le_gt_cases j 30); [apply Hclear; lia|].
      destruct (decide (j = 31)) as [->|]; [done|].
      apply Z.bits_above_log2; [lia|].
      destruct (decide (val = 0)) as [->|]; [simpl; lia|].
      apply Z.log2_lt_pow2; [lia|].
      assert (2 ^ 32 <= 2 ^ j) by (apply Z.pow_le_mono_r; lia). lia. }
    assert (2 ^ (r + 1) <= 2 ^ 31) by (apply Z.pow_le_mono_r; lia).
    rewrite Z.shiftl_1_l. rewrite u32_small
      by (split; [apply Z.pow_nonneg|]; lia).
    exists (r + 1). split; [lia|]. split; [done|]. split; [|lia].
    intros _. split; [done|]. intros Hpos.
    destruct (decide (r = -1)) as [Hm|Hm].
    { rewrite Hm in Hlt. simpl in Hlt. lia. }
    pose proof (above_pow2_of_set_bit val r ltac:(lia) ltac:(lia)
                  (Hset ltac:(lia))).
    rewrite Z.pow_add_r by lia. lia.
Qed.

Lemma next_pow_2_bounds_witness :
  exists k, 0 <= k <= 31 /\ next_pow_2 24000 = 2 ^ k /\
    (24000 < 2 ^ 31 -> 24000 < next_pow_2 24000 /\
                       (1 <= 24000 -> next_pow_2 24000 <= 2 * 24000)) /\
    (2 ^ 31 <= 24000 -> next_pow_2 24000 = 2 ^ 31).
Proof.
  apply (next_pow_2_bounds 24000). unfold is_u32, UINT_MAX. lia.
Defined.

Example next_pow_2_values :
  next_pow_2 0 = 1 /\ next_pow_2 4 = 8 /\ next_pow_2 24000 = 32768 /\
  next_pow_2 (2 ^ 31 + 5) = 2 ^ 31.
Proof. vm_compute. repeat split; reflexivity. Qed.


(** ** Deduplication in the detected-frequency list *)

(** X4. [freqs_are_equal f1 f2 1] holds exactly when the two frequencies are
    at most 1 Hz apart and [f2] is neither 0 nor [UINT_MAX]: at these two
    values [f2 - 1] or [f2 + 1] wraps around and nothing compares equal
    to [f2], not even [f2] itself. *)
Theorem freqs_are_equal_iff (f1 f2 : Z) :
  is_u32 f1 -> is_u32 f2 ->
  freqs_are_equal f1 f2 FREQ_ACCURACY = true <->
  within_accuracy f1 f2 /\ 1 <= f2 <= UINT_MAX - 1.
Proof.
  intros H1 H2. split.
  - intros Heq. split; [by apply freqs_are_equal_sound|].
    unfold is_u32, UINT_MAX, freqs_are_equal, FREQ_ACCURACY, u32 in *.
    apply andb_true_iff in Heq as [Hle Hge]. apply Z.leb_le in Hle, Hge.
    destruct (decide (f2 = 0)) as [->|].
    { change ((0 - 1) mod 2 ^ 32) with (2 ^ 32 - 1) in Hge.
      change ((0 + 1) mod 2 ^ 32) with 1 in Hle. lia. }
    destruct (decide (f2 = 2 ^ 32 - 1)) as [->|]; [|lia].
    change ((2 ^ 32 - 1 + 1) mod 2 ^ 32) with 0 in Hle.
    change ((2 ^ 32 - 1 - 1) mod 2 ^ 32) with (2 ^ 32 - 2) in Hge. lia.
  - intros [Hw Hr]. by apply freqs_are_equal_complete.
Qed.

Lemma freqs_are_equal_iff_witness :
  freqs_are_equal 201 200 FREQ_ACCURACY = true <->
  within_accuracy 201 200 /\ 1 <= 200 <= UINT_MAX - 1.
Proof.
  apply (freqs_are_equal_iff 201 200); unfold is_u32, UINT_MAX; lia.
Defined.

Example freqs_are_equal_at_zero :
  freqs_are_equal 0 0 FREQ_ACCURACY = false /\
  freqs_are_equal 1 0 FREQ_ACCURACY = false /\
  freqs_are_equal UINT_MAX UINT_MAX FREQ_ACCURACY = false.
Proof. vm_compute. repeat split; reflexivity. Qed.

(** One call either leaves the list as it is or appends the frequency. *)
Lemma add_freq_to_list_cases (freqs : list Z) (nfreqs frequency : Z) :
  0 <= nfreqs <= MAX_FREQS_PER_CHAN - 1 ->
  (Z.to_nat MAX_FREQS_PER_CHAN <= length freqs)%nat ->
  let r := add_freq_to_list freqs nfreqs frequency in
  (r = (freqs, nfreqs) /\
   (nfreqs = MAX_FREQS_PER_CHAN - 1 \/
    freq_is_listed freqs nfreqs frequency = true)) \/
  (nfreqs < MAX_FREQS_PER_CHAN - 1 /\
   freq_is_listed freqs nfreqs frequency = false /\
   r.2 = nfreqs + 1 /\
   take (Z.to_nat r.2) r.1 = take (Z.to_nat nfreqs) freqs ++ [frequency]).
Proof.
  intros Hn Hlen. cbv zeta.
  unfold add_freq_to_list, MAX_FREQS_PER_CHAN in *.
  rewrite (u32_small (nfreqs + 1)) by lia.
  destruct (Z.leb_spec 64 (nfreqs + 1)).
  { left. split; [done|]. left. lia. }
  destruct (freq_is_listed freqs nfreqs frequency) eqn:E; simpl.
  { left. split; [done|]. by right. }
  right. split; [lia|]. split; [done|]. split; [done|].
  replace (Z.to_nat (nfreqs + 1)) with (Datatypes.S (Z.to_nat nfreqs)) by lia.
  rewrite (take_S_r _ _ frequency)
    by (apply list_lookup_insert_eq; lia).
  by rewrite take_insert_ge by lia.
Qed.

(** X5. Starting from an empty list in a 64-entry array, whatever is offered:
    (1) the detected frequencies are some of the offered ones, in the
    order they were offered; (2) no detected frequency compares equal to
    one detected before it, so they are pairwise more than 1 Hz apart
    except after an entry equal to 0 or [UINT_MAX]; (3) as long as the
    list holds fewer than 63 entries, every offered frequency other than
    0 and [UINT_MAX] is within 1 Hz of a detected one. *)
Theorem add_freq_to_list_dedup (freqs0 : list Z) (offered : list Z) :
  length freqs0 = Z.to_nat MAX_FREQS_PER_CHAN ->
  Forall is_u32 offered ->
  let st := foldl (fun st f => add_freq_to_list st.1 st.2 f)
                  (freqs0, 0) offered in
  let found := take (Z.to_nat st.2) st.1 in
  sublist found offered /\
  (forall (i j : nat) x y, (i < j)%nat ->
     found !! i = Some x -> found !! j = Some y ->
     freqs_are_equal y x FREQ_ACCURACY = false /\
     (1 <= x <= UINT_MAX - 1 -> ~ within_accuracy y x)) /\
  (st.2 < MAX_FREQS_PER_CHAN - 1 ->
   forall f, f ∈ offered -> 1 <= f <= UINT_MAX - 1 ->
     exists d, d ∈ found /\ within_accuracy f d).
Proof.
  intros Hlen0 Hoff. cbv zeta.
  set (step := fun (st : list Z * Z) f => add_freq_to_list st.1 st.2 f).
  set (inv := fun (st : list Z * Z) (seen : list Z) =>
    length st.1 = Z.to_nat MAX_FREQS_PER_CHAN /\
    0 <= st.2 <= MAX_FREQS_PER_CHAN - 1 /\
    Forall is_u32 (take (Z.to_nat st.2) st.1) /\
    sublist (take (Z.to_nat st.2) st.1) seen /\
    (forall (i j : nat) x y, (i < j)%nat ->
       take (Z.to_nat st.2) st.1 !! i = Some x ->
       take (Z.to_nat st.2) st.1 !! j = Some y ->
       freqs_are_equal y x FREQ_ACCURACY = false) /\
    (st.2 < MAX_FREQS_PER_CHAN - 1 ->
     forall f, f ∈ seen -> 1 <= f <= UINT_MAX - 1 ->
       exists d, d ∈ take (Z.to_nat st.2) st.1 /\ within_accuracy f d)).
  assert (forall fs st seen, Forall is_u32 fs -> inv st seen ->
            inv (foldl step st fs) (seen ++ fs)) as Hfold.
  { induction fs as [|f fs IH]; intros st seen Hfs Hinv.
    { by rewrite app_nil_r. }
    apply Forall_cons in Hfs as [Hf Hfs]. simpl.
    replace (seen ++ f :: fs) with ((seen ++ [f]) ++ fs)
      by (by rewrite <- app_assoc).
    apply IH; [done|].
    destruct Hinv as (Hl & Hn & Hu & Hsub & Hsep & Hcov).
    destruct st as [freqs n]. simpl in *.
    pose proof (add_freq_to_list_length freqs n f) as Hl'.
    destruct (add_freq_to_list_cases freqs n f Hn ltac:(lia))
      as [[Hr Hwhy]|(Hlt & Hnew & Hn' & Htake)].
    - unfold step, inv. simpl. rewrite Hr. simpl.
      split; [done|]. split; [done|]. split; [done|].
      split; [by apply sublist_inserts_r|]. split; [done|].
      intros Hshort g Hg Hrange.
      apply elem_of_app in Hg as [Hg|Hg]; [by apply Hcov|].
      apply list_elem_of_singleton in Hg as ->.
      destruct Hwhy as [Hfull|Hlisted]; [lia|].
      apply freq_is_listed_spec in Hlisted as (k & Hk & Heq); [|lia].
      unfold MAX_FREQS_PER_CHAN in *.
      destruct (lookup_lt_is_Some_2 freqs (Z.to_nat k)) as [d Hd]; [lia|].
      rewrite (list_lookup_total_correct _ _ _ Hd) in Heq.
      assert (d ∈ take (Z.to_nat n) freqs) as Hin.
      { apply list_elem_of_lookup. exists (Z.to_nat k).
        rewrite lookup_take_lt by lia. done. }
      exists d. split; [done|].
      apply freqs_are_equal_sound; [done| |done].
      rewrite Forall_forall in Hu. by apply Hu.
    - unfold step, inv. simpl.
      destruct (add_freq_to_list freqs n f) as [freqs' n'] eqn:Er.
      simpl in *. subst n'. rewrite Htake.
      split; [congruence|]. split; [unfold MAX_FREQS_PER_CHAN in *; lia|].
      split; [apply Forall_app; split; [done|by constructor]|].
      split; [by apply sublist_app|]. split.
      + intros i j x y Hij Hi Hj.
        assert (length (take (Z.to_nat n) freqs) = Z.to_nat n) as Hlt'
          by (rewrite length_take; unfold MAX_FREQS_PER_CHAN in *; lia).
        destruct (decide (j < Z.to_nat n)%nat) as [Hjn|Hjn].
        * rewrite lookup_app_l in Hi by lia.
          rewrite lookup_app_l in Hj by lia. exact (Hsep i j x y Hij Hi Hj).
        * pose proof (lookup_lt_Some _ _ _ Hj) as Hjl.
          rewrite length_app in Hjl. simpl in Hjl.
          assert (j = Z.to_nat n) as -> by lia.
          rewrite lookup_app_l in Hi by lia.
          rewrite lookup_app_r in Hj by lia.
          rewrite Hlt', Nat.sub_diag in Hj. injection Hj as <-.
          destruct (freqs_are_equal f x FREQ_ACCURACY) eqn:E; [|done].
          exfalso. rewrite lookup_take_lt in Hi by lia.
          assert (freq_is_listed freqs n f = true) as Hcontra; [|congruence].
          apply freq_is_listed_spec; [lia|].
          exists (Z.of_nat i). unfold MAX_FREQS_PER_CHAN in *.
          split; [lia|].
          by rewrite Nat2Z.id, (list_lookup_total_correct _ _ _ Hi).
      + intros _ g Hg Hrange.
        apply elem_of_app in Hg as [Hg|Hg].
        * destruct (Hcov ltac:(lia) g Hg Hrange) as (d & Hd & Hw).
          exists d. split; [|done]. apply elem_of_app. by left.
        * apply list_elem_of_singleton in Hg as ->.
          exists f. split; [apply elem_of_app; right; by constructor|].
          unfold within_accuracy, FREQ_ACCURACY.
          replace (f - f) with 0 by lia. simpl. lia. }
  destruct (Hfold offered (freqs0, 0) [] Hoff)
    as (_ & _ & Hu & Hsub & Hsep & Hcov).
  { unfold inv. simpl. split; [done|].
    split; [unfold MAX_FREQS_PER_CHAN; lia|]. split; [constructor|].
    split; [constructor|]. split; [intros i j x y _ Hi; done|].
    intros _ f Hf. by apply elem_of_nil in Hf. }
  simpl in Hsub, Hcov. split; [done|]. split; [|done].
  intros i j x y Hij Hi Hj. split; [by eapply Hsep|].
  intros Hx Hw.
  pose proof (Hsep i j x y Hij Hi Hj) as Hne.
  rewrite freqs_are_equal_complete in Hne; done.
Qed.

Lemma add_freq_to_list_dedup_witness :
  let offered := [6150; 200; 201; 6149; 12100; 200] in
  let st := foldl (fun st f => add_freq_to_list st.1 st.2 f)
                  (replicate 64 0, 0) offered in
  let found := take (Z.to_nat st.2) st.1 in
  sublist found offered /\
  (forall (i j : nat) x y, (i < j)%nat ->
     found !! i = Some x -> found !! j = Some y ->
     freqs_are_equal y x FREQ_ACCURACY = false /\
     (1 <= x <= UINT_MAX - 1 -> ~ within_accuracy y x)) /\
  (st.2 < MAX_FREQS_PER_CHAN - 1 ->
   forall f, f ∈ offered -> 1 <= f <= UINT_MAX - 1 ->
     exists d, d ∈ found /\ within_accuracy f d).
Proof.
  intros offered.
  apply (add_freq_to_list_dedup (replicate 64 0) offered).
  - reflexivity.
  - apply (bool_decide_unpack _). vm_compute. exact I.
Defined.

Example add_freq_to_list_dedup_run :
  let st := foldl (fun st f => add_freq_to_list st.1 st.2 f)
                  (replicate 64 0, 0) [6150; 200; 201; 6149; 12100; 200] in
  take (Z.to_nat st.2) st.1 = [6150; 200; 12100].
Proof. vm_compute. reflexivity. Qed.


(** ** What a window can change *)

Lemma add_freq_to_list_prefix (freqs : list Z) (nfreqs frequency : Z) :
  0 <= nfreqs <= MAX_FREQS_PER_CHAN - 1 ->
  let r := add_freq_to_list freqs nfreqs frequency in
  nfreqs <= r.2 /\
  take (Z.to_nat nfreqs) freqs `prefix_of` take (Z.to_nat r.2) r.1.
Proof.
  intros Hn. cbv zeta. unfold add_freq_to_list, MAX_FREQS_PER_CHAN in *.
  rewrite (u32_small (nfreqs + 1)) by lia.
  destruct (64 <=? nfreqs + 1); [done|].
  destruct (negb _); [|done]. simpl. split; [lia|].
  replace (Z.to_nat (nfreqs + 1)) with (Datatypes.S (Z.to_nat nfreqs)) by lia.
  destruct (decide (Z.to_nat nfreqs < length freqs)%nat) as [Hlt|Hge].
  - rewrite (take_S_r _ _ frequency) by (by apply list_lookup_insert_eq).
    rewrite take_insert_ge by lia. by apply prefix_app_r.
  - rewrite list_insert_ge by lia. rewrite !take_ge by lia. done.
Qed.

Section Peaks.
Context `{Externals}.

Lemma peak_step_prefix (power : list double) (threshold : double)
    (size : Z) (wav : audio) (st : peak_state) (i : Z) :
  0 <= p_nfreqs st <= MAX_FREQS_PER_CHAN - 1 ->
  let st' := peak_step power threshold size wav st i in
  0 <= p_nfreqs st' <= MAX_FREQS_PER_CHAN - 1 /\
  p_nfreqs st <= p_nfreqs st' /\
  take (Z.to_nat (p_nfreqs st)) (p_freqs st)
    `prefix_of` take (Z.to_nat (p_nfreqs st')) (p_freqs st').
Proof.
  intros Hn. cbv zeta. unfold peak_step.
  destruct (lt threshold _).
  - destruct (lt (local_max st) _); simpl; (split; [done|split; [lia|done]]).
  - destruct (above st); [|simpl; split; [done|split; [lia|done]]].
    pose proof (add_freq_to_list_count (p_freqs st) (p_nfreqs st)
      (bin_frequency size wav (local_max_idx st)) Hn) as Hc.
    pose proof (add_freq_to_list_prefix (p_freqs st) (p_nfreqs st)
      (bin_frequency size wav (local_max_idx st)) Hn) as Hp.
    destruct (add_freq_to_list _ _ _) as [fr n]. done.
Qed.

Lemma peak_scan_prefix (power : list double) (threshold : double)
    (size : Z) (wav : audio) (bins : list Z) (st : peak_state) :
  0 <= p_nfreqs st <= MAX_FREQS_PER_CHAN - 1 ->
  let st' := foldl (peak_step power threshold size wav) st bins in
  p_nfreqs st <= p_nfreqs st' /\
  take (Z.to_nat (p_nfreqs st)) (p_freqs st)
    `prefix_of` take (Z.to_nat (p_nfreqs st')) (p_freqs st').
Proof.
  revert st. cbv zeta. induction bins as [|i bins IH]; intros st Hn; [done|].
  simpl.
  destruct (peak_step_prefix power threshold size wav st i Hn)
    as (Hn' & Hle & Hpre).
  destruct (IH _ Hn') as (Hle' & Hpre'). split; [lia|].
  by etrans.
Qed.

(** X6. On a window inside the waveform, [extract_frequencies] only appends:
    the frequencies detected before are still there, in the same order
    and at the same positions, the count does not decrease, and the
    maximum threshold is either the same or a value that compares
    greater than the previous one. *)
Theorem extract_frequencies_appends (off size : Z) (wav : audio)
    (m : channel_mem) :
  0 <= off -> 0 <= size -> off + size <= Z.of_nat (length (m_wave m)) ->
  sample_rate wav <> 0 ->
  0 <= m_nfreqs m <= MAX_FREQS_PER_CHAN - 1 ->
  exists m', extract_frequencies off size wav m = Some m' /\
    detected m `prefix_of` detected m' /\
    m_nfreqs m <= m_nfreqs m' <= MAX_FREQS_PER_CHAN - 1 /\
    (m_max_thresh m' = m_max_thresh m \/
     lt (m_max_thresh m) (m_max_thresh m') = true).
Proof.
  intros Hoff Hsize Hlen Hsr Hn.
  rewrite extract_frequencies_defined by done. cbv zeta.
  destruct (negb _).
  { exists m. split; [done|]. split; [done|]. split; [lia|by left]. }
  destruct (lt _ POWER_NOISE_LEVEL).
  { exists m. split; [done|]. split; [done|]. split; [lia|by left]. }
  eexists. split; [reflexivity|]. unfold detected. simpl.
  epose proof (peak_scan_prefix _ _ size wav _
                 (mk_peak false zero 0 (m_freqs m) (m_nfreqs m)) Hn)
    as (Hle & Hpre).
  epose proof (peak_scan_inv (fun _ => True) _ _ size wav _
                 (mk_peak false zero 0 (m_freqs m) (m_nfreqs m))
                 (fun _ => I) Hn) as (_ & Hn' & _).
  { simpl. apply Forall_forall. done. }
  split; [exact Hpre|]. split; [split; [exact Hle|apply Hn']|].
  destruct (lt (m_max_thresh m) _) eqn:E; [by right|by left].
Qed.

(** X7. A run of bins above the threshold is only converted to a frequency
    at the first bin that is not above it. Bins above the threshold at
    the end of the scanned range therefore add nothing: the list after
    the whole scan is the list after the bins that precede them. *)
Theorem peak_scan_drops_trailing_run (power : list double)
    (threshold : double) (size : Z) (wav : audio) (st : peak_state)
    (bins tail : list Z) :
  Forall (fun i => lt threshold (power !!! Z.to_nat i) = true) tail ->
  let st1 := foldl (peak_step power threshold size wav) st bins in
  let st2 := foldl (peak_step power threshold size wav) st (bins ++ tail) in
  p_freqs st2 = p_freqs st1 /\ p_nfreqs st2 = p_nfreqs st1.
Proof.
  intros Htail. cbv zeta. rewrite foldl_app.
  generalize (foldl (peak_step power threshold size wav) st bins).
  induction Htail as [|i tail Hi _ IH]; intros s; [done|].
  simpl. destruct (IH (peak_step power threshold size wav s i)) as [-> ->].
  unfold peak_step. rewrite Hi.
  destruct (lt (local_max s) _); done.
Qed.

End Peaks.

Lemma extract_frequencies_appends_witness :
  let wav := mk_audio 1 1000 32 3 0 3000 in
  let m := mk_mem (of_Z <$> [7; 0; 0; 100; 0; 0; 0; 0; 0; 9])
                  (375 :: replicate 63 0) 1 (of_Z 10) in
  exists m', @extract_frequencies plain_externals 1 8 wav m = Some m' /\
    detected m `prefix_of` detected m' /\
    m_nfreqs m <= m_nfreqs m' <= MAX_FREQS_PER_CHAN - 1 /\
    (m_max_thresh m' = m_max_thresh m \/
     lt (m_max_thresh m) (m_max_thresh m') = true).
Proof.
  intros wav m.
  apply (@extract_frequencies_appends plain_externals 1 8 wav m).
  - lia.
  - lia.
  - simpl. lia.
  - simpl. lia.
  - unfold MAX_FREQS_PER_CHAN. simpl. lia.
Defined.

Lemma peak_scan_drops_trailing_run_witness :
  let wav := mk_audio 1 1000 32 3 0 3000 in
  let power := of_Z <$> [0; 0; 50; 0; 60; 70] in
  let st := mk_peak false zero 0 (replicate 64 0) 0 in
  let st1 := foldl (peak_step power (of_Z 25) 8 wav) st [1; 2; 3] in
  let st2 := foldl (peak_step power (of_Z 25) 8 wav) st ([1; 2; 3] ++ [4; 5]) in
  p_freqs st2 = p_freqs st1 /\ p_nfreqs st2 = p_nfreqs st1.
Proof.
  intros wav power st.
  apply (peak_scan_drops_trailing_run power (of_Z 25) 8 wav st [1; 2; 3] [4; 5]).
  repeat constructor.
Defined.

Example extract_frequencies_appends_run :
  let wav := mk_audio 1 1000 32 3 0 3000 in
  let m := mk_mem (of_Z <$> [7; 0; 0; 100; 0; 0; 0; 0; 0; 9])
                  (375 :: replicate 63 0) 1 (of_Z 10) in
  option_map (fun m' => (detected m', m_max_thresh m'))
    (@extract_frequencies plain_externals 1 8 wav m)
  = Some ([375; 250], of_Z 25).
Proof. vm_compute. reflexivity. Qed.


(** ** The container header *)

Import Container.

Lemma le_bytes_2 (x : Z) : le_bytes 2 x = [x mod 2 ^ 8; x / 2 ^ 8 mod 2 ^ 8].
Proof. reflexivity. Qed.

Lemma le_bytes_4 (x : Z) :
  le_bytes 4 x = [x mod 2 ^ 8; x / 2 ^ 8 mod 2 ^ 8;
                  x / 2 ^ 8 / 2 ^ 8 mod 2 ^ 8;
                  x / 2 ^ 8 / 2 ^ 8 / 2 ^ 8 mod 2 ^ 8].
Proof. reflexivity. Qed.

Lemma le16_bytes (x : Z) :
  0 <= x < 2 ^ 16 -> x mod 2 ^ 8 + 2 ^ 8 * (x / 2 ^ 8 mod 2 ^ 8) = x.
Proof.
  intros Hx. change (2 ^ 8) with 256. change (2 ^ 16) with 65536 in Hx.
  Z.div_mod_to_equations. lia.
Qed.

Lemma le32_bytes (x : Z) :
  0 <= x < 2 ^ 32 ->
  x mod 2 ^ 8 + 2 ^ 8 * (x / 2 ^ 8 mod 2 ^ 8)
  + 2 ^ 16 * (x / 2 ^ 8 / 2 ^ 8 mod 2 ^ 8)
  + 2 ^ 24 * (x / 2 ^ 8 / 2 ^ 8 / 2 ^ 8 mod 2 ^ 8) = x.
Proof.
  intros Hx. change (2 ^ 8) with 256. change (2 ^ 16) with 65536.
  change (2 ^ 24) with 16777216. change (2 ^ 32) with 4294967296 in Hx.
  Z.div_mod_to_equations. lia.
Qed.

Lemma decode_riff_header (wav : audio) (dsz : Z) (rest : list Z) :
  0 <= channels wav < 2 ^ 16 -> 0 <= bits_per_sample wav < 2 ^ 16 ->
  0 <= sample_rate wav < 2 ^ 32 -> 0 <= dsz < 2 ^ 32 ->
  length (riff_header wav dsz) = riff_size /\
  decode_header (take riff_size (riff_header wav dsz ++ rest)) =
    mk_wav_format 1 (channels wav) (sample_rate wav)
      (u32 (u32 (channels wav * sample_rate wav) * bits_per_sample wav) / 8)
      ((u32 (channels wav * bits_per_sample wav) / 8) mod 2 ^ 16)
      (bits_per_sample wav) dsz.
Proof.
  intros HC Hb Hr Hd. split; [reflexivity|].
  unfold riff_header. rewrite !le_bytes_2, !le_bytes_4.
  cbn [app]. unfold riff_size. cbn [take].
  unfold decode_header, le16, le32.
  cbn [lookup_total list_lookup_total Nat.add].
  f_equal.
  - apply le16_bytes. lia.
  - by apply le32_bytes.
  - apply le32_bytes.
    pose proof (u32_range (u32 (channels wav * sample_rate wav)
                           * bits_per_sample wav)) as Hu.
    split; [apply Z.div_pos; lia|]. apply Z.div_lt_upper_bound; lia.
  - generalize (u32 (channels wav * bits_per_sample wav) / 8). intros a.
    change (2 ^ 8) with 256. change (2 ^ 16) with 65536.
    Z.div_mod_to_equations. lia.
  - apply le16_bytes. lia.
  - by apply le32_bytes.
Qed.


Lemma extract_audio_parameters_accepts (hdr : wav_format) (wav : audio) :
  0 <= data_chunk_size hdr < 2 ^ 32 ->
  ~ header_violation hdr ->
  let spc := data_chunk_size hdr / wf_channels hdr
             / (wf_bits_per_sample hdr / 8) in
  extract_audio_parameters hdr wav =
    (to_int32 (data_chunk_size hdr),
     mk_audio (wf_channels hdr) (samples_per_sec hdr) (wf_bits_per_sample hdr)
              (spc / samples_per_sec hdr) (freqs_per_chan wav) spc).
Proof.
  intros Hchunk Hok. cbv zeta. unfold header_violation in Hok.
  unfold extract_audio_parameters. simpl.
  destruct (to_int32_small _ Hchunk) as [Hu Hz].
  destruct (Z.eqb_spec (wf_channels hdr) 0) as [|Hc]; [tauto|].
  destruct (Z.eqb_spec (samples_per_sec hdr) 0) as [|Hr]; [tauto|].
  destruct (Z.eqb_spec (to_int32 (data_chunk_size hdr)) 0) as [|Hd];
    [tauto|].
  rewrite Hu.
  destruct (Z.eqb_spec (data_chunk_size hdr mod wf_channels hdr) 0)
    as [Hm|Hm]; [|tauto]. simpl.
  destruct ((wf_bits_per_sample hdr =? 32) || (wf_bits_per_sample hdr =? 24)
            || (wf_bits_per_sample hdr =? 16)) eqn:Hbits.
  - destruct (Z.ltb_spec
      (data_chunk_size hdr / wf_channels hdr / (wf_bits_per_sample hdr / 8)
         / samples_per_sec hdr) MIN_DURATION) as [|Hdur]; [tauto|]. done.
  - exfalso. apply Hok. do 4 right. left.
    rewrite !orb_false_iff, !Z.eqb_neq in Hbits. lia.
Qed.

(** X8. [extract_audio_parameters] returns -1 for every header that violates
    the validation. For every other header it returns the declared data
    length converted to [int], which is never 0, equals the length below
    2^31 bytes and is negative from 2^31 bytes on (-1 again for
    0xFFFFFFFF), and it fills the descriptor with the channel count, the
    rate, the depth, the samples per channel and the whole seconds. *)
Theorem extract_audio_parameters_result (hdr : wav_format) (wav : audio) :
  0 <= data_chunk_size hdr < 2 ^ 32 ->
  (header_violation hdr -> (extract_audio_parameters hdr wav).1 = -1) /\
  (~ header_violation hdr ->
   let spc := data_chunk_size hdr / wf_channels hdr
              / (wf_bits_per_sample hdr / 8) in
   let r := extract_audio_parameters hdr wav in
   r.2 = mk_audio (wf_channels hdr) (samples_per_sec hdr)
           (wf_bits_per_sample hdr) (spc / samples_per_sec hdr)
           (freqs_per_chan wav) spc /\
   r.1 <> 0 /\
   (data_chunk_size hdr < 2 ^ 31 -> r.1 = data_chunk_size hdr) /\
   (2 ^ 31 <= data_chunk_size hdr ->
    r.1 = data_chunk_size hdr - 2 ^ 32 /\ r.1 < 0)).
Proof.
  intros Hchunk. split; [by apply extract_audio_parameters_rejects|].
  intros Hok. cbv zeta.
  rewrite (extract_audio_parameters_accepts hdr wav Hchunk Hok). simpl.
  split; [done|].
  assert (data_chunk_size hdr <> 0) as Hnz
    by (intros E; apply Hok; unfold header_violation; tauto).
  unfold to_int32. rewrite Z.mod_small by lia.
  destruct (Z.ltb_spec (data_chunk_size hdr) (2 ^ 31)); repeat split; lia.
Qed.

Lemma extract_audio_parameters_result_witness :
  let hdr := mk_wav_format 1 2 48000 384000 8 32 3840000 in
  let wav := mk_audio 0 0 0 0 4 0 in
  (header_violation hdr -> (extract_audio_parameters hdr wav).1 = -1) /\
  (~ header_violation hdr ->
   let spc := data_chunk_size hdr / wf_channels hdr
              / (wf_bits_per_sample hdr / 8) in
   let r := extract_audio_parameters hdr wav in
   r.2 = mk_audio (wf_channels hdr) (samples_per_sec hdr)
           (wf_bits_per_sample hdr) (spc / samples_per_sec hdr)
           (freqs_per_chan wav) spc /\
   r.1 <> 0 /\
   (data_chunk_size hdr < 2 ^ 31 -> r.1 = data_chunk_size hdr) /\
   (2 ^ 31 <= data_chunk_size hdr ->
    r.1 = data_chunk_size hdr - 2 ^ 32 /\ r.1 < 0)).
Proof.
  intros hdr wav.
  apply (extract_audio_parameters_result hdr wav). simpl. lia.
Defined.

Example extract_audio_parameters_default :
  extract_audio_parameters (mk_wav_format 1 2 48000 384000 8 32 3840000)
    (mk_audio 0 0 0 0 4 0)
  = (3840000, mk_audio 2 48000 32 10 4 480000).
Proof. vm_compute. reflexivity. Qed.

Lemma generator_sizes (wav : audio) :
  1 <= channels wav -> 1 <= sample_rate wav -> 0 <= duration_s wav ->
  bits_per_sample wav = 16 \/ bits_per_sample wav = 32 ->
  samples_per_chan wav = sample_rate wav * duration_s wav ->
  channels wav * samples_per_chan wav * bits_per_sample wav < 2 ^ 32 ->
  Generator.data_sz wav
    = channels wav * samples_per_chan wav * (bits_per_sample wav / 8) /\
  Generator.data_sz wav mod channels wav = 0 /\
  Generator.data_sz wav / channels wav / (bits_per_sample wav / 8)
    = samples_per_chan wav /\
  samples_per_chan wav / sample_rate wav = duration_s wav.
Proof.
  intros HC Hr Hd Hbits Hspc Hfit. unfold Generator.data_sz.
  assert (0 <= samples_per_chan wav) by nia.
  assert (0 <= channels wav * samples_per_chan wav) by nia.
  assert (channels wav * samples_per_chan wav
          <= channels wav * samples_per_chan wav * bits_per_sample wav)
    by (destruct Hbits as [-> | ->]; lia).
  rewrite (u32_small (channels wav * samples_per_chan wav)) by lia.
  assert (0 <= channels wav * samples_per_chan wav * bits_per_sample wav)
    by (destruct Hbits as [-> | ->]; lia).
  rewrite u32_small by lia.
  assert (channels wav * samples_per_chan wav * bits_per_sample wav / 8
          = channels wav * samples_per_chan wav * (bits_per_sample wav / 8))
    as ->.
  { destruct Hbits as [-> | ->].
    - change (16 / 8) with 2.
      replace (channels wav * samples_per_chan wav * 16)
        with (channels wav * samples_per_chan wav * 2 * 8) by lia.
      by rewrite Z.div_mul.
    - change (32 / 8) with 4.
      replace (channels wav * samples_per_chan wav * 32)
        with (channels wav * samples_per_chan wav * 4 * 8) by lia.
      by rewrite Z.div_mul. }
  split; [done|].
  assert (0 < bits_per_sample wav / 8)
    by (destruct Hbits as [-> | ->]; done).
  replace (channels wav * samples_per_chan wav * (bits_per_sample wav / 8))
    with (samples_per_chan wav * (bits_per_sample wav / 8) * channels wav)
    by lia.
  rewrite Z.mod_mul by lia. split; [done|].
  rewrite Z.div_mul by lia. rewrite Z.div_mul by lia. split; [done|].
  rewrite Hspc. replace (sample_rate wav * duration_s wav)
    with (duration_s wav * sample_rate wav) by lia.
  apply Z.div_mul. lia.
Qed.

(** X9. The analyzer recovers the generator's parameters. For arguments the
    generator's [parse_args] accepts, with at most 65535 channels and
    sizes that do not wrap around, decoding the 44-byte header the
    generator writes gives back its channel count, sample rate, depth,
    duration and samples per channel, and the byte count of the data. *)
Theorem analyzer_recovers_generator_parameters (args : audio)
    (buf : list Z) (nfreqs_arg : Z) :
  let wav := (parse_args_checks args).2 in
  (parse_args_checks args).1 = 0 ->
  1 <= channels args < 2 ^ 16 ->
  0 <= sample_rate args -> 0 <= duration_s args ->
  sample_rate args * duration_s args < 2 ^ 32 ->
  channels args * (sample_rate args * duration_s args) * bits_per_sample args
    < 2 ^ 32 ->
  extract_audio_parameters
    (decode_header (take riff_size (output wav buf)))
    (mk_audio 0 0 0 0 nfreqs_arg 0)
  = (Generator.data_sz wav,
     mk_audio (channels args) (sample_rate args) (bits_per_sample args)
              (duration_s args) nfreqs_arg (samples_per_chan wav)).
Proof.
  cbv zeta. unfold parse_args_checks.
  destruct (Z.ltb_spec (sample_rate args) (2 * MIN_FREQ)) as [|Hrate];
    [discriminate|].
  destruct (negb (bits_per_sample args =? 16)
            && negb (bits_per_sample args =? 32)) eqn:Hb; [discriminate|].
  destruct (Z.ltb_spec (duration_s args) MIN_DURATION) as [|Hdur];
    [discriminate|].
  intros _ HC Hr Hd Hspc Hfit. cbn [fst snd].
  unfold MIN_FREQ, MIN_DURATION in *.
  assert (bits_per_sample args = 16 \/ bits_per_sample args = 32) as Hbits.
  { apply andb_false_iff in Hb.
    rewrite !negb_false_iff, !Z.eqb_eq in Hb. done. }
  set (wav := mk_audio (channels args) (sample_rate args)
                (bits_per_sample args) (duration_s args)
                (freqs_per_chan args)
                (u32 (sample_rate args * duration_s args))).
  assert (samples_per_chan wav = sample_rate args * duration_s args) as Hs.
  { simpl. apply u32_small. nia. }
  destruct (generator_sizes wav) as (Hsz & Hmod & Hdiv & Hsec);
    try (simpl; lia); try done.
  { rewrite Hs. done. }
  assert (0 < bits_per_sample args / 8 <= 4)
    by (destruct Hbits as [-> | ->]; done).
  assert (3 * 400 <= samples_per_chan wav) by (rewrite Hs; nia).
  assert (0 < Generator.data_sz wav < 2 ^ 31) as Hdsz.
  { rewrite Hsz. change (channels wav) with (channels args).
    change (bits_per_sample wav) with (bits_per_sample args).
    rewrite Hs in *. destruct Hbits as [Hb16|Hb32].
    - rewrite Hb16 in *. change (16 / 8) with 2. nia.
    - rewrite Hb32 in *. change (32 / 8) with 4. nia. }
  unfold output.
  destruct (decode_riff_header wav (Generator.data_sz wav)
              (take (Z.to_nat (Generator.data_sz wav))
                    (pcm_bytes (bits_per_sample wav) buf)))
    as [_ ->].
  { simpl. lia. }
  { simpl. destruct Hbits as [-> | ->]; lia. }
  { simpl. nia. }
  { lia. }
  rewrite extract_audio_parameters_accepts;
    cbn [wf_channels samples_per_sec wf_bits_per_sample data_chunk_size
         freqs_per_chan]; [| lia |].
  - rewrite Hdiv, Hsec. unfold to_int32.
    rewrite Z.mod_small by lia.
    destruct (Z.ltb_spec (Generator.data_sz wav) (2 ^ 31)); [|lia].
    done.
  - unfold header_violation.
    cbn [wf_channels samples_per_sec wf_bits_per_sample data_chunk_size].
    rewrite Hmod, Hdiv, Hsec. simpl. unfold MIN_DURATION. lia.
Qed.

Lemma analyzer_recovers_generator_parameters_witness :
  let args := mk_audio 2 48000 32 10 4 0 in
  extract_audio_parameters
    (decode_header (take riff_size
       (output (parse_args_checks args).2 (replicate 8 0))))
    (mk_audio 0 0 0 0 4 0)
  = (Generator.data_sz (parse_args_checks args).2,
     mk_audio 2 48000 32 10 4 (samples_per_chan (parse_args_checks args).2)).
Proof.
  intros args.
  apply (analyzer_recovers_generator_parameters args (replicate 8 0) 4).
  - reflexivity.
  - simpl. lia.
  - simpl. lia.
  - simpl. lia.
  - simpl. lia.
  - simpl. lia.
Defined.


(** ** Samples from the generator to the analyzer *)

Lemma int32_of_le_bytes (q : Z) :
  INT32_MIN <= q <= INT32_MAX ->
  to_int32 (q mod 2 ^ 8 + 2 ^ 8 * (q / 2 ^ 8 mod 2 ^ 8)
            + 2 ^ 16 * (q / 2 ^ 8 / 2 ^ 8 mod 2 ^ 8)
            + 2 ^ 24 * (q / 2 ^ 8 / 2 ^ 8 / 2 ^ 8 mod 2 ^ 8)) = q.
Proof.
  unfold INT32_MIN, INT32_MAX, to_int32. intros Hq.
  assert (q mod 2 ^ 8 + 2 ^ 8 * (q / 2 ^ 8 mod 2 ^ 8)
          + 2 ^ 16 * (q / 2 ^ 8 / 2 ^ 8 mod 2 ^ 8)
          + 2 ^ 24 * (q / 2 ^ 8 / 2 ^ 8 / 2 ^ 8 mod 2 ^ 8) = q mod 2 ^ 32)
    as ->.
  { change (2 ^ 8) with 256. change (2 ^ 16) with 65536.
    change (2 ^ 24) with 16777216. change (2 ^ 32) with 4294967296.
    Z.div_mod_to_equations. lia. }
  rewrite Z.mod_mod by lia.
  change (2 ^ 31) with 2147483648. change (2 ^ 32) with 4294967296.
  destruct (Z.ltb_spec (q mod 4294967296) 2147483648);
    Z.div_mod_to_equations; lia.
Qed.

Lemma pcm_bytes_cons (q : Z) (buf : list Z) :
  pcm_bytes 32 (q :: buf) = le_bytes 4 q ++ pcm_bytes 32 buf.
Proof. reflexivity. Qed.

Lemma int32_view_pcm_bytes (buf : list Z) :
  Forall (fun q => INT32_MIN <= q <= INT32_MAX) buf ->
  int32_view (pcm_bytes 32 buf) = buf /\
  length (pcm_bytes 32 buf) = (4 * length buf)%nat.
Proof.
  induction 1 as [|q buf Hq _ [IHv IHl]]; [done|].
  rewrite pcm_bytes_cons, le_bytes_4.
  cbn [app int32_view length]. rewrite IHv, IHl. split; [|lia].
  f_equal. by apply int32_of_le_bytes.
Qed.

(** X10. At 32 bits the analyzer reads back the samples the generator wrote:
    the data bytes that follow the 44-byte header, viewed through
    [int32_t *buf], are the generator's buffer. *)
Theorem analyzer_reads_generator_samples (wav : audio) (buf : list Z) :
  bits_per_sample wav = 32 ->
  Forall (fun q => INT32_MIN <= q <= INT32_MAX) buf ->
  Generator.data_sz wav = 4 * Z.of_nat (length buf) ->
  let stdin := output wav buf in
  length stdin = (riff_size + 4 * length buf)%nat /\
  int32_view (take (Z.to_nat (Generator.data_sz wav)) (drop riff_size stdin))
  = buf.
Proof.
  intros Hbits Hbuf Hsz. cbv zeta. unfold output. rewrite Hbits, Hsz.
  destruct (int32_view_pcm_bytes buf Hbuf) as [Hview Hlen].
  rewrite (take_ge (pcm_bytes 32 buf)) by lia.
  split.
  - rewrite length_app, Hlen. reflexivity.
  - rewrite drop_app_length' by reflexivity.
    rewrite take_ge by lia. done.
Qed.

Lemma analyzer_reads_generator_samples_witness :
  let wav := mk_audio 2 3 32 1 1 3 in
  let buf := [536870911; -2147483647; 2147483647; 536870911; 0; -1] in
  let stdin := output wav buf in
  length stdin = (riff_size + 4 * length buf)%nat /\
  int32_view (take (Z.to_nat (Generator.data_sz wav)) (drop riff_size stdin))
  = buf.
Proof.
  intros wav buf.
  apply (analyzer_reads_generator_samples wav buf).
  - reflexivity.
  - apply (bool_decide_unpack _). vm_compute. exact I.
  - reflexivity.
Defined.

Lemma fill_audio_buf_stores (buf : list Z) (waves : list (list double))
    (wav : audio) :
  bits_per_sample wav = 16 \/ bits_per_sample wav = 32 ->
  0 <= channels wav -> 0 <= samples_per_chan wav ->
  channels wav * samples_per_chan wav <= 2 ^ 32 ->
  channels wav * samples_per_chan wav <= Z.of_nat (length buf) ->
  length waves = Z.to_nat (channels wav) ->
  Forall (fun row => length row = Z.to_nat (samples_per_chan wav)) waves ->
  Forall (Forall (fun x => is_Some (quantize (bits_per_sample wav) x))) waves ->
  exists buf',
    fill_audio_buf buf waves wav = Some buf' /\
    length buf' = length buf /\
    forall c s, 0 <= c < channels wav -> 0 <= s < samples_per_chan wav ->
      exists x q,
        waves !! Z.to_nat c ≫= (fun row => row !! Z.to_nat s) = Some x /\
        quantize (bits_per_sample wav) x = Some q /\
        buf' !! Z.to_nat (s * channels wav + c) = Some q.
Proof.
  intros Hbits HC HS Hwrap Hbuf Hrows Hcols Hfit.
  set (stored := fun (b : list Z) (s c : Z) =>
    exists x q,
      waves !! Z.to_nat c ≫= (fun row => row !! Z.to_nat s) = Some x /\
      quantize (bits_per_sample wav) x = Some q /\
      b !! Z.to_nat (s * channels wav + c) = Some q).
  destruct (for_range_inv
    (fun s b => length b = length buf /\
       forall s' c', 0 <= s' < s -> 0 <= c' < channels wav -> stored b s' c')
    (fun s b => for_range (Z.to_nat (channels wav)) 0
                  (fun c b => put_sample b waves wav s c) b)
    (Z.to_nat (samples_per_chan wav)) 0 buf) as (buf' & Hrun & Hlen & Hall).
  { split; [done|]. intros; lia. }
  { intros s b Hs [Hlb Hdone].
    destruct (for_range_inv
      (fun c b' => length b' = length buf /\
         forall s' c', 0 <= s' -> 0 <= c' < channels wav ->
           s' < s \/ (s' = s /\ c' < c) -> stored b' s' c')
      (fun c b => put_sample b waves wav s c)
      (Z.to_nat (channels wav)) 0 b) as (b' & Hrun & Hlb' & Hall).
    - split; [done|]. intros s' c' Hs' Hc' [Hlt|[_ Hlt]]; [|lia].
      apply Hdone; lia.
    - intros c t Hc [Hlt Hinv].
      destruct (put_sample_spec t waves wav s c)
        as (x & q & Hx & Hq & Hput); try done; try lia.
      eexists. split; [exact Hput|]. split; [by rewrite length_insert|].
      intros s' c' Hs' Hc' Hcase.
      destruct (decide (s' = s /\ c' = c)) as [[-> ->]|Hne].
      + exists x, q. split; [done|]. split; [done|].
        apply list_lookup_insert_eq. nia.
      + destruct (Hinv s' c') as (x' & q' & Hx' & Hq' & Hb'); [done|done| |].
        { destruct Hcase as [?|[-> ?]]; [by left|right; lia]. }
        exists x', q'. split; [done|]. split; [done|].
        rewrite list_lookup_insert_ne; [done|].
        assert (s * channels wav + c <> s' * channels wav + c') by nia.
        assert (0 <= s * channels wav + c) by nia.
        assert (0 <= s' * channels wav + c') by nia. lia.
    - exists b'. split; [done|]. split; [done|].
      intros s' c' Hs' Hc'. apply Hall; [lia|lia|].
      destruct (decide (s' = s)) as [->|]; [right; lia|left; lia]. }
  exists buf'. split; [|split; [done|]].
  - unfold fill_audio_buf.
    destruct Hbits as [-> | ->]; simpl; exact Hrun.
  - intros c s Hc Hs. apply Hall; lia.
Qed.

Section Channel.
Context `{Externals}.

Lemma extract_channel_cells (wave : list double) (buf : list Z)
    (chan : Z) (wav : audio) :
  0 <= chan < channels wav ->
  channels wav * samples_per_chan wav <= 2 ^ 32 ->
  channels wav * samples_per_chan wav <= Z.of_nat (length buf) ->
  samples_per_chan wav <= Z.of_nat (length wave) ->
  exists wave', extract_channel wave buf chan wav = Some wave' /\
    length wave' = length wave /\
    forall s, 0 <= s < samples_per_chan wav ->
      exists v, buf !! Z.to_nat (channels wav * s + chan) = Some v /\
        wave' !! Z.to_nat s
        = Some (div (of_Z v) (sample_factor (bits_per_sample wav))).
Proof.
  intros Hc Hwrap Hbuf Hwave. unfold extract_channel.
  destruct (for_range_inv
    (fun k (w : list double) => length w = length wave /\
       forall s, 0 <= s < k ->
         exists v, buf !! Z.to_nat (channels wav * s + chan) = Some v /\
           w !! Z.to_nat s
           = Some (div (of_Z v) (sample_factor (bits_per_sample wav))))
    (fun s w =>
       v ← get_sample buf chan (channels wav) s;
       if decide (Z.to_nat s < length w)%nat
       then Some (<[Z.to_nat s := div (of_Z v)
                     (sample_factor (bits_per_sample wav))]> w)
       else None)
    (Z.to_nat (samples_per_chan wav)) 0 wave) as (w' & Hrun & Hlen & Hall).
  - split; [done|]. intros; lia.
  - intros s w Hs [Hw Hdone]. unfold get_sample.
    assert (0 <= channels wav * s + chan
            < channels wav * samples_per_chan wav) by nia.
    rewrite (u32_small (channels wav * s)) by nia.
    rewrite u32_small by lia.
    destruct (lookup_lt_is_Some_2 buf (Z.to_nat (channels wav * s + chan)))
      as [v Hv]; [lia|].
    rewrite Hv. simpl. rewrite decide_True by lia.
    eexists. split; [reflexivity|]. split; [by rewrite length_insert|].
    intros s' Hs'. destruct (decide (s' = s)) as [->|Hne].
    + exists v. split; [done|]. apply list_lookup_insert_eq. lia.
    + destruct (Hdone s') as (v' & Hv' & Hw'); [lia|].
      exists v'. split; [done|]. rewrite list_lookup_insert_ne by lia. done.
  - exists w'. split; [done|]. split; [done|].
    intros s Hs. apply Hall. lia.
Qed.

(** X11. De-interleaving undoes interleaving. At 32 bits, after
    [fill_audio_buf] has stored the waveforms, [extract_channel] on that
    buffer returns, for every channel, the quantized samples of that
    channel in order, each divided by [INT32_MAX]: sample [s] of channel
    [c] is read from the position it was written to. *)
Theorem extract_channel_after_fill_audio_buf (buf : list Z)
    (waves : list (list double)) (wav : audio) :
  bits_per_sample wav = 32 ->
  0 <= channels wav -> 0 <= samples_per_chan wav ->
  channels wav * samples_per_chan wav <= 2 ^ 32 ->
  channels wav * samples_per_chan wav <= Z.of_nat (length buf) ->
  length waves = Z.to_nat (channels wav) ->
  Forall (fun row => length row = Z.to_nat (samples_per_chan wav)) waves ->
  Forall (Forall (fun x => is_Some (quantize (bits_per_sample wav) x))) waves ->
  exists buf',
    fill_audio_buf buf waves wav = Some buf' /\
    forall c (wave : list double),
      0 <= c < channels wav ->
      samples_per_chan wav <= Z.of_nat (length wave) ->
      exists wave', extract_channel wave buf' c wav = Some wave' /\
        forall s, 0 <= s < samples_per_chan wav ->
          exists x q,
            waves !! Z.to_nat c ≫= (fun row => row !! Z.to_nat s) = Some x /\
            quantize 32 x = Some q /\
            wave' !! Z.to_nat s = Some (div (of_Z q) (of_Z INT32_MAX)).
Proof.
  intros Hbits HC HS Hwrap Hbuf Hrows Hcols Hfit.
  destruct (fill_audio_buf_stores buf waves wav)
    as (buf' & Hfill & Hlen & Hcells); try done; [by right|].
  exists buf'. split; [done|]. intros c wave Hc Hwave.
  destruct (extract_channel_cells wave buf' c wav)
    as (wave' & Hex & _ & Hread); try done; [by rewrite Hlen|].
  exists wave'. split; [done|]. intros s Hs.
  destruct (Hcells c s Hc Hs) as (x & q & Hx & Hq & Hb).
  destruct (Hread s Hs) as (v & Hv & Hw).
  replace (channels wav * s + c) with (s * channels wav + c) in Hv by lia.
  rewrite Hb in Hv. injection Hv as <-.
  exists x, q. split; [done|]. rewrite Hbits in Hq, Hw. split; [done|].
  exact Hw.
Qed.

End Channel.

Lemma extract_channel_after_fill_audio_buf_witness :
  let wav := mk_audio 2 3 32 1 1 3 in
  let quarter := S754_finite false 4503599627370496 (-54) in
  let waves := [[quarter; of_Z 1; zero]; [of_Z (-1); quarter; quarter]] in
  exists buf',
    fill_audio_buf (replicate 6 0) waves wav = Some buf' /\
    forall c (wave : list double),
      0 <= c < 2 -> 3 <= Z.of_nat (length wave) ->
      exists wave', extract_channel wave buf' c wav = Some wave' /\
        forall s, 0 <= s < 3 ->
          exists x q,
            waves !! Z.to_nat c ≫= (fun row => row !! Z.to_nat s) = Some x /\
            quantize 32 x = Some q /\
            wave' !! Z.to_nat s = Some (div (of_Z q) (of_Z INT32_MAX)).
Proof.
  intros wav quarter waves.
  apply (extract_channel_after_fill_audio_buf (replicate 6 0) waves wav).
  - reflexivity.
  - simpl. lia.
  - simpl. lia.
  - simpl. lia.
  - simpl. lia.
  - reflexivity.
  - repeat constructor.
  - repeat constructor; vm_compute; eexists; reflexivity.
Defined.


(** ** The analyzer on a whole container *)

Lemma for_range_none {S : Type} (body : Z -> S -> option S) (n : nat)
    (lo k : Z) (s : S) :
  lo <= k < lo + Z.of_nat n ->
  (forall t, body k t = None) ->
  for_range n lo body s = None.
Proof.
  revert lo s. induction n as [|n IH]; intros lo s Hk Hnone; [lia|].
  simpl. destruct (decide (k = lo)) as [->|Hne].
  - by rewrite Hnone.
  - destruct (body lo s) as [t|]; [|done]. simpl. apply IH; [lia|done].
Qed.

Lemma int32_view_length_bounds (n : nat) (l : list Z) :
  (length l <= n)%nat ->
  (4 * length (int32_view l) <= length l < 4 * length (int32_view l) + 4)%nat.
Proof.
  revert l. induction n as [|n IH]; intros l Hl.
  - destruct l; simpl in *; lia.
  - destruct l as [|b0 [|b1 [|b2 [|b3 rest]]]]; simpl in *; try lia.
    specialize (IH rest ltac:(lia)). lia.
Qed.

Lemma next_pow_2_below (val k : Z) :
  0 <= val < 2 ^ k -> 0 <= k <= 30 ->
  1 <= next_pow_2 val <= 2 ^ k.
Proof.
  intros Hval Hk. unfold next_pow_2.
  assert (2 ^ k <= 2 ^ 30) by (apply Z.pow_le_mono_r; lia).
  destruct (Z.testbit val 31) eqn:E31.
  { pose proof (above_pow2_of_set_bit val 31 ltac:(lia) ltac:(lia) E31).
    lia. }
  destruct (highest_bit_spec 31 30 val eq_refl) as (Hr & Hset & _).
  set (r := highest_bit 31 30 val) in *.
  assert (r + 1 <= k) as Hrk.
  { destruct (decide (r = -1)); [lia|].
    pose proof (above_pow2_of_set_bit val r ltac:(lia) ltac:(lia)
                  (Hset ltac:(lia))) as Hlow.
    destruct (Z.le_gt_cases (r + 1) k); [done|].
    assert (2 ^ k <= 2 ^ r) by (apply Z.pow_le_mono_r; lia). lia. }
  assert (2 ^ (r + 1) <= 2 ^ k) by (apply Z.pow_le_mono_r; lia).
  assert (0 < 2 ^ (r + 1)) by (apply Z.pow_pos_nonneg; lia).
  rewrite Z.shiftl_1_l. rewrite u32_small by lia. lia.
Qed.

Section WholeScan.
Context `{Externals}.

Lemma window_loop_total (P : Z -> Prop) (wave : list double) (len : nat)
    (fuel : nat) (offset slide windows_sz : Z) (wav : audio) (i : Z)
    (m : channel_mem) :
  (forall idx, P (bin_frequency windows_sz wav idx)) ->
  sample_rate wav <> 0 ->
  0 <= i -> 0 <= windows_sz -> 0 < slide ->
  u32 (samples_per_chan wav - offset) <= Z.of_nat (length wave) ->
  i + windows_sz < 2 ^ 32 ->
  u32 (samples_per_chan wav - offset) + slide <= 2 ^ 32 ->
  (0 < fuel)%nat ->
  u32 (samples_per_chan wav - offset)
    <= i + windows_sz + (Z.of_nat fuel - 1) * slide ->
  scan_invariant P wave len m ->
  exists m', window_loop fuel offset slide windows_sz wav i m = Some m' /\
             scan_invariant P wave len m'.
Proof.
  intros HP Hsr. revert i m.
  induction fuel as [|fuel IH];
    intros i m Hi Hw Hs Hlim Hiw Hls Hfuel Hend Hinv; [lia|].
  simpl. rewrite (u32_small (i + windows_sz)) by lia.
  destruct (Z.ltb_spec (i + windows_sz) (u32 (samples_per_chan wav - offset)))
    as [Hin|Hout]; [|by exists m].
  destruct (extract_frequencies_inv P i windows_sz wav wave len m)
    as (m1 & Hm1 & Hinv1); try done; [lia|].
  rewrite Hm1. simpl. rewrite (u32_small (i + slide)) by lia.
  apply IH; try done; try nia.
Qed.

Lemma scan_defined (fuel : nat) (wav : audio) (buf : list Z) :
  0 < sample_rate wav < 2 ^ 31 ->
  0 <= channels wav ->
  sample_rate wav / 2 <= samples_per_chan wav < 2 ^ 30 ->
  channels wav * samples_per_chan wav <= 2 ^ 32 ->
  channels wav * samples_per_chan wav <= Z.of_nat (length buf) ->
  samples_per_chan wav < Z.of_nat fuel ->
  exists ms, scan fuel wav buf = Some ms /\
    length ms = Z.to_nat (channels wav) /\
    Forall (fun m => 0 <= m_nfreqs m <= MAX_FREQS_PER_CHAN - 1 /\
                     length (m_freqs m) = Z.to_nat MAX_FREQS_PER_CHAN) ms.
Proof.
  intros Hsr HC Hspc Hwrap Hbuf Hfuel. unfold scan.
  assert (0 <= sample_rate wav / 2 < 2 ^ 30) as Hoff.
  { split; [apply Z.div_pos; lia|]. apply Z.div_lt_upper_bound; lia. }
  pose proof (next_pow_2_below (sample_rate wav / 2) 30 Hoff ltac:(lia))
    as Hslide.
  destruct (for_range_inv
    (fun c (st : list double * list channel_mem) =>
       length st.1 = Z.to_nat (samples_per_chan wav) /\
       length st.2 = Z.to_nat c /\
       Forall (fun m => 0 <= m_nfreqs m <= MAX_FREQS_PER_CHAN - 1 /\
                        length (m_freqs m) = Z.to_nat MAX_FREQS_PER_CHAN)
              st.2)
    (fun c st =>
       m ← scan_channel fuel wav buf st.1 c;
       Some (m_wave m, st.2 ++ [m]))
    (Z.to_nat (channels wav)) 0
    (replicate (Z.to_nat (samples_per_chan wav)) zero, []))
    as (st & Hrun & _ & Hlen & Hall).
  - simpl. rewrite length_replicate. split; [done|]. split; [done|].
    constructor.
  - intros c [wave acc] Hc (Hw & Hacc & Hms). simpl in Hw, Hacc, Hms.
    cbn [fst snd]. unfold scan_channel.
    destruct (extract_channel_defined wave buf c wav)
      as (wave' & Hex & Hlen'); try lia.
    rewrite Hex. cbn [mbind option_bind].
    rewrite (u32_small (2 * next_pow_2 (sample_rate wav / 2))) by lia.
    destruct (window_loop_total (fun _ => True) wave'
      (Z.to_nat MAX_FREQS_PER_CHAN) fuel (sample_rate wav / 2)
      (next_pow_2 (sample_rate wav / 2))
      (2 * next_pow_2 (sample_rate wav / 2)) wav (sample_rate wav / 2)
      (mk_mem wave' (replicate (Z.to_nat MAX_FREQS_PER_CHAN) 0) 0 zero))
      as (m & Hm & Hwm & Hl & Hn & _);
      rewrite ?(u32_small (samples_per_chan wav - sample_rate wav / 2))
        by lia; try done; try lia; try nia.
    rewrite Hm. cbn [mbind option_bind].
    eexists. split; [reflexivity|]. cbn [fst snd].
    split; [rewrite Hwm; lia|].
    split; [rewrite length_app; simpl; lia|].
    apply Forall_app. split; [done|]. by constructor.
  - rewrite Hrun. cbn [mbind option_bind].
    exists st.2. split; [done|]. split; [lia|done].
Qed.

End WholeScan.


(** The descriptor that [extract_audio_parameters] derives from an
    accepted header. *)
Lemma header_facts (hdr : wav_format) :
  0 <= wf_channels hdr -> 0 <= samples_per_sec hdr ->
  0 <= data_chunk_size hdr -> ~ header_violation hdr ->
  let bits := wf_bits_per_sample hdr in
  let spc := data_chunk_size hdr / wf_channels hdr / (bits / 8) in
  1 <= wf_channels hdr /\ 1 <= samples_per_sec hdr /\
  (bits = 16 \/ bits = 24 \/ bits = 32) /\
  3 * samples_per_sec hdr <= spc /\
  wf_channels hdr * spc * (bits / 8) <= data_chunk_size hdr /\
  (bits <> 32 -> data_chunk_size hdr < 4 * (wf_channels hdr * spc)).
Proof.
  intros HC Hr Hd Hok. cbv zeta. unfold header_violation, MIN_DURATION in Hok.
  assert (wf_channels hdr <> 0) by tauto.
  assert (samples_per_sec hdr <> 0) by tauto.
  assert (data_chunk_size hdr mod wf_channels hdr = 0) as Hmod.
  { destruct (decide (data_chunk_size hdr mod wf_channels hdr = 0));
      [done|tauto]. }
  assert (wf_bits_per_sample hdr = 16 \/ wf_bits_per_sample hdr = 24 \/
          wf_bits_per_sample hdr = 32) as Hbits.
  { destruct (decide (wf_bits_per_sample hdr = 16 \/
                      wf_bits_per_sample hdr = 24 \/
                      wf_bits_per_sample hdr = 32)); [done|tauto]. }
  assert (3 <= data_chunk_size hdr / wf_channels hdr
               / (wf_bits_per_sample hdr / 8) / samples_per_sec hdr)
    as Hdur.
  { destruct (Z.le_gt_cases 3 (data_chunk_size hdr / wf_channels hdr
               / (wf_bits_per_sample hdr / 8) / samples_per_sec hdr));
      [done|]. exfalso. apply Hok. do 5 right. lia. }
  split; [lia|]. split; [lia|]. split; [done|].
  set (q := data_chunk_size hdr / wf_channels hdr) in *.
  assert (data_chunk_size hdr = wf_channels hdr * q) as Hq.
  { unfold q. rewrite (Z.div_mod (data_chunk_size hdr) (wf_channels hdr))
      at 1 by lia. lia. }
  set (b := wf_bits_per_sample hdr / 8) in *.
  assert (b = 2 \/ b = 3 \/ b = 4) as Hb
    by (unfold b; destruct Hbits as [-> | [-> | ->]]; auto).
  assert (0 < b) by lia.
  set (spc := q / b) in *.
  assert (0 <= q) by (unfold q; apply Z.div_pos; lia).
  assert (spc * b <= q < spc * b + b) as Hspc.
  { unfold spc. pose proof (Z.mul_div_le q b ltac:(lia)).
    pose proof (Z.mul_succ_div_gt q b ltac:(lia)). lia. }
  assert (3 * samples_per_sec hdr <= spc) as H3.
  { pose proof (Z.mul_div_le spc (samples_per_sec hdr) ltac:(lia)). nia. }
  split; [done|]. split; [nia|].
  intros Hne. assert (b = 2 \/ b = 3) as Hb'.
  { unfold b in *. destruct Hbits as [E | [E | E]]; rewrite E in *;
      [by left|by right|done]. }
  rewrite Hq. nia.
Qed.

Section WholeFile.
Context `{Externals}.

Lemma main_reaches_scan (fuel : nat) (nfreqs_arg : Z) (stdin : list Z) :
  Forall (fun b => 0 <= b < 256) stdin ->
  (forall n, malloc_ok n = true) ->
  let hdr := decode_header (take riff_size stdin) in
  let spc := data_chunk_size hdr / wf_channels hdr
             / (wf_bits_per_sample hdr / 8) in
  let wav := mk_audio (wf_channels hdr) (samples_per_sec hdr)
               (wf_bits_per_sample hdr) (spc / samples_per_sec hdr)
               nfreqs_arg spc in
  let buf := int32_view (take (Z.to_nat (data_chunk_size hdr))
                              (drop riff_size stdin)) in
  ~ header_violation hdr ->
  data_chunk_size hdr < 2 ^ 31 ->
  Z.of_nat riff_size + data_chunk_size hdr <= Z.of_nat (length stdin) ->
  Analyzer.main fuel nfreqs_arg stdin =
    (ms ← scan fuel wav buf;
     if freqs_per_chan wav =? 0 then
       Some (mk_outcome 0
               (mjoin (imap (fun c m => print_found (Z.of_nat c) m) ms)))
     else
       '(ret, efreqs) ← fill_desired_freqs
           (alloc_matrix (channels wav) (freqs_per_chan wav)) wav;
       if negb (ret =? 0) then Some (mk_outcome (-1) [])
       else
         out ← compare_channels ms efreqs wav;
         Some (mk_outcome 0 (out ++ [Blank]))) /\
  0 <= data_chunk_size hdr /\
  (4 * length buf <= Z.to_nat (data_chunk_size hdr) < 4 * length buf + 4)%nat.
Proof.
  intros Hbytes Hmalloc hdr spc wav buf Hok Hsmall Hlen.
  pose proof (le32_range (take riff_size stdin) 40
                (Forall_take _ _ _ Hbytes)) as Hchunk.
  fold (data_chunk_size hdr) in Hchunk.
  change (le32 (take riff_size stdin) 40) with (data_chunk_size hdr)
    in Hchunk.
  split; [|split; [lia|]].
  - unfold Analyzer.main.
    rewrite decide_False by lia. fold hdr.
    rewrite (extract_audio_parameters_accepts hdr _ Hchunk Hok).
    cbn [freqs_per_chan]. fold spc. fold wav.
    assert (data_chunk_size hdr <> 0) as Hnz
      by (intros E; apply Hok; unfold header_violation; tauto).
    assert (to_size_t (to_int32 (data_chunk_size hdr)) = data_chunk_size hdr)
      as ->.
    { unfold to_int32, to_size_t. rewrite (Z.mod_small _ (2 ^ 32)) by lia.
      destruct (Z.ltb_spec (data_chunk_size hdr) (2 ^ 31)); [|lia].
      apply Z.mod_small. lia. }
    destruct (Z.leb_spec (data_chunk_size hdr) 0); [lia|].
    rewrite !Hmalloc. cbn [negb].
    rewrite length_drop.
    rewrite Z.min_l by lia. rewrite Z.eqb_refl. cbn [negb].
    unfold alloc_matrix_ok. rewrite !Hmalloc.
    rewrite !orb_true_r. cbn [andb negb]. fold buf. done.
  - unfold buf.
    pose proof (int32_view_length_bounds _
      (take (Z.to_nat (data_chunk_size hdr)) (drop riff_size stdin))
      (Nat.le_refl _)) as Hb.
    rewrite length_take, length_drop in Hb. lia.
Qed.

End WholeFile.


Lemma le16_range (b : list Z) (off : nat) :
  Forall (fun x => 0 <= x < 256) b -> 0 <= le16 b off < 2 ^ 16.
Proof.
  intros Hb.
  assert (forall i, 0 <= b !!! i < 256) as Hi.
  { intros i. destruct (b !! i) as [x|] eqn:E.
    - rewrite (list_lookup_total_correct _ _ _ E).
      rewrite Forall_lookup in Hb. by eapply Hb.
    - rewrite list_lookup_total_alt, E. simpl. lia. }
  unfold le16. pose proof (Hi off). pose proof (Hi (off + 1)%nat). lia.
Qed.

Lemma decoded_fields_nonneg (stdin : list Z) :
  Forall (fun b => 0 <= b < 256) stdin ->
  0 <= wf_channels (decode_header (take riff_size stdin)) < 2 ^ 16 /\
  0 <= samples_per_sec (decode_header (take riff_size stdin)) < 2 ^ 32.
Proof.
  intros Hbytes. unfold decode_header. simpl. split.
  - apply le16_range. by apply Forall_take.
  - apply le32_range. by apply Forall_take.
Qed.

Section WholeFileResults.
Context `{Externals}.

(** X12. Truncated or oversized data. When the header is accepted but fewer
    data bytes follow than it declares, or it declares 2^31 bytes or
    more (the length is then negative as an [int] and huge as a
    [size_t]), [main] returns -1 and prints nothing on standard output. *)
Theorem main_rejects_missing_data (fuel : nat) (nfreqs_arg : Z)
    (stdin : list Z) :
  Forall (fun b => 0 <= b < 256) stdin ->
  Z.of_nat (length stdin) < 2 ^ 63 ->
  let hdr := decode_header (take riff_size stdin) in
  ~ header_violation hdr ->
  2 ^ 31 <= data_chunk_size hdr \/
  Z.of_nat (length stdin) < Z.of_nat riff_size + data_chunk_size hdr ->
  exists o, Analyzer.main fuel nfreqs_arg stdin = Some o /\
            main_ret o = -1 /\ exit_status o <> 0 /\ stdout o = [].
Proof.
  intros Hbytes Hlen hdr Hok Hcase.
  pose proof (le32_range (take riff_size stdin) 40
                (Forall_take _ _ _ Hbytes)) as Hchunk.
  change (le32 (take riff_size stdin) 40) with (data_chunk_size hdr)
    in Hchunk.
  unfold Analyzer.main.
  destruct (decide (length stdin < riff_size)%nat); [returns_minus_one|].
  fold hdr. rewrite (extract_audio_parameters_accepts hdr _ Hchunk Hok).
  assert (data_chunk_size hdr <> 0) as Hnz
    by (intros E; apply Hok; unfold header_violation; tauto).
  set (dsz := to_size_t (to_int32 (data_chunk_size hdr))).
  assert (0 < dsz /\
          (data_chunk_size hdr < 2 ^ 31 -> dsz = data_chunk_size hdr) /\
          (2 ^ 31 <= data_chunk_size hdr -> 2 ^ 63 <= dsz)) as (Hpos & Hlo & Hhi).
  { unfold dsz, to_int32, to_size_t.
    rewrite (Z.mod_small _ (2 ^ 32)) by lia.
    destruct (Z.ltb_spec (data_chunk_size hdr) (2 ^ 31)).
    - rewrite Z.mod_small by lia. lia.
    - replace (data_chunk_size hdr - 2 ^ 32)
        with (data_chunk_size hdr - 2 ^ 32 + 2 ^ 64 + (-1) * 2 ^ 64) by lia.
      rewrite Z_mod_plus_full. rewrite Z.mod_small by lia. lia. }
  destruct (Z.leb_spec dsz 0); [lia|].
  destruct (negb (malloc_ok dsz)); [returns_minus_one|].
  rewrite length_drop.
  destruct (Z.eqb_spec (Z.min dsz (Z.of_nat (length stdin - riff_size))) dsz)
    as [Hmin|_]; [|simpl; returns_minus_one].
  exfalso. destruct (Z.lt_ge_cases (data_chunk_size hdr) (2 ^ 31)).
  - rewrite Hlo in Hmin by done. destruct Hcase; lia.
  - specialize (Hhi ltac:(lia)). lia.
Qed.

(** X13. Depths below 32 bits. The analyzer reads every sample through
    [int32_t *buf], also when the header announces 16 or 24 bits. For
    each container it accepts at those depths, with all the declared
    data present and every allocation granted, the scan reads beyond the
    end of the data buffer: the run is undefined. *)
Theorem main_reads_past_buffer_below_32_bits (fuel : nat) (nfreqs_arg : Z)
    (stdin : list Z) :
  Forall (fun b => 0 <= b < 256) stdin ->
  (forall n, malloc_ok n = true) ->
  let hdr := decode_header (take riff_size stdin) in
  ~ header_violation hdr ->
  wf_bits_per_sample hdr <> 32 ->
  data_chunk_size hdr < 2 ^ 31 ->
  Z.of_nat riff_size + data_chunk_size hdr <= Z.of_nat (length stdin) ->
  Analyzer.main fuel nfreqs_arg stdin = None.
Proof.
  intros Hbytes Hmalloc hdr Hok Hbits Hsmall Hlen.
  destruct (main_reaches_scan fuel nfreqs_arg stdin Hbytes Hmalloc
              Hok Hsmall Hlen) as (-> & Hpos & Hbuf).
  fold hdr in Hbuf |- *.
  destruct (decoded_fields_nonneg stdin Hbytes) as [HC Hr].
  fold hdr in HC, Hr.
  destruct (header_facts hdr ltac:(lia) ltac:(lia) Hpos Hok)
    as (HC1 & Hr1 & Hdepth & Hspc & Hfit & Hshort).
  specialize (Hshort Hbits).
  assert (1 <= wf_bits_per_sample hdr / 8) as Hbytes_per_sample
    by (destruct Hdepth as [-> | [-> | ->]]; done).
  set (spc := data_chunk_size hdr / wf_channels hdr
              / (wf_bits_per_sample hdr / 8)) in *.
  set (buf := int32_view _) in *.
  set (wav := mk_audio _ _ _ _ _ _).
  assert (scan fuel wav buf = None) as ->; [|done].
  unfold scan.
  change (channels wav) with (wf_channels hdr).
  rewrite (for_range_none _ _ 0 (wf_channels hdr - 1)); [done|lia|].
  intros [wave acc]. cbn [fst snd]. unfold scan_channel.
  assert (extract_channel wave buf (wf_channels hdr - 1) wav = None) as ->;
    [|done].
  unfold extract_channel.
  change (samples_per_chan wav) with spc.
  change (channels wav) with (wf_channels hdr).
  apply (for_range_none _ _ 0 (spc - 1)); [lia|].
  intros w. unfold get_sample.
  assert (0 <= wf_channels hdr * (spc - 1) + (wf_channels hdr - 1)
          < 2 ^ 32) by nia.
  rewrite (u32_small (wf_channels hdr * (spc - 1))) by nia.
  rewrite u32_small by lia.
  rewrite lookup_ge_None_2; [done|]. nia.
Qed.

(** X14. Analysis without [-f]. For every accepted 32-bit container of less
    than 2^31 data bytes whose data is all there, with a sample rate
    below 2^31, every allocation granted and enough fuel for the window
    loop, [main] returns 0 and prints one block per channel, in channel
    order, each listing at most 63 frequencies. *)
Theorem main_reports_every_channel (fuel : nat) (stdin : list Z) :
  Forall (fun b => 0 <= b < 256) stdin ->
  (forall n, malloc_ok n = true) ->
  let hdr := decode_header (take riff_size stdin) in
  ~ header_violation hdr ->
  wf_bits_per_sample hdr = 32 ->
  data_chunk_size hdr < 2 ^ 31 ->
  samples_per_sec hdr < 2 ^ 31 ->
  Z.of_nat riff_size + data_chunk_size hdr <= Z.of_nat (length stdin) ->
  data_chunk_size hdr < Z.of_nat fuel ->
  exists ms,
    Analyzer.main fuel 0 stdin
      = Some (mk_outcome 0
                (mjoin (imap (fun c m => print_found (Z.of_nat c) m) ms))) /\
    length ms = Z.to_nat (wf_channels hdr) /\
    Forall (fun m => 0 <= m_nfreqs m <= MAX_FREQS_PER_CHAN - 1 /\
                     length (detected m) = Z.to_nat (m_nfreqs m)) ms.
Proof.
  intros Hbytes Hmalloc hdr Hok Hbits Hsmall Hrate Hlen Hfuel.
  destruct (main_reaches_scan fuel 0 stdin Hbytes Hmalloc
              Hok Hsmall Hlen) as (-> & Hpos & Hbuf).
  fold hdr in Hbuf |- *.
  destruct (decoded_fields_nonneg stdin Hbytes) as [HC Hr].
  fold hdr in HC, Hr.
  destruct (header_facts hdr ltac:(lia) ltac:(lia) Hpos Hok)
    as (HC1 & Hr1 & _ & Hspc & Hfit & _).
  assert (wf_bits_per_sample hdr / 8 = 4) as Hb4 by (by rewrite Hbits).
  set (spc := data_chunk_size hdr / wf_channels hdr
              / (wf_bits_per_sample hdr / 8)) in *.
  rewrite Hb4 in Hfit.
  set (buf := int32_view _) in *.
  set (wav := mk_audio _ _ _ _ _ _).
  assert (0 <= samples_per_sec hdr / 2 <= samples_per_sec hdr) as Hhalf.
  { split; [apply Z.div_pos; lia|].
    apply Z.div_le_upper_bound; lia. }
  destruct (scan_defined fuel wav buf) as (ms & -> & Hms & Hall);
    change (sample_rate wav) with (samples_per_sec hdr);
    change (channels wav) with (wf_channels hdr);
    change (samples_per_chan wav) with spc; try nia.
  cbn [mbind option_bind]. change (freqs_per_chan wav =? 0) with true.
  cbv iota.
  exists ms. split; [done|]. split; [done|].
  eapply Forall_impl; [exact Hall|]. intros m [Hn Hl]. split; [done|].
  unfold detected. rewrite length_take.
  unfold MAX_FREQS_PER_CHAN in *. lia.
Qed.

End WholeFileResults.


Section Comparison.
Context `{Externals}.

(** X15. Comparison mode without room for the plan. With [-f n], when the
    planner reports that [n] tones per channel do not fit the decoded
    sample rate and channel count, [main] returns -1 and prints nothing
    on standard output, although the whole file has been scanned. *)
Theorem main_comparison_without_range (fuel : nat) (nfreqs_arg : Z)
    (stdin : list Z) :
  Forall (fun b => 0 <= b < 256) stdin ->
  (forall n, malloc_ok n = true) ->
  let hdr := decode_header (take riff_size stdin) in
  ~ header_violation hdr ->
  wf_bits_per_sample hdr = 32 ->
  data_chunk_size hdr < 2 ^ 31 ->
  samples_per_sec hdr < 2 ^ 31 ->
  Z.of_nat riff_size + data_chunk_size hdr <= Z.of_nat (length stdin) ->
  data_chunk_size hdr < Z.of_nat fuel ->
  nfreqs_arg <> 0 ->
  let df := u32 (samples_per_sec hdr / 2 - MIN_FREQ) / nfreqs_arg in
  df = 0 \/ df / (wf_channels hdr + 1) = 0 ->
  exists o, Analyzer.main fuel nfreqs_arg stdin = Some o /\
            main_ret o = -1 /\ exit_status o <> 0 /\ stdout o = [].
Proof.
  intros Hbytes Hmalloc hdr Hok Hbits Hsmall Hrate Hlen Hfuel Hnf df Hdf.
  destruct (main_reaches_scan fuel nfreqs_arg stdin Hbytes Hmalloc
              Hok Hsmall Hlen) as (-> & Hpos & Hbuf).
  fold hdr in Hbuf |- *.
  destruct (decoded_fields_nonneg stdin Hbytes) as [HC Hr].
  fold hdr in HC, Hr.
  destruct (header_facts hdr ltac:(lia) ltac:(lia) Hpos Hok)
    as (HC1 & Hr1 & _ & Hspc & Hfit & _).
  assert (wf_bits_per_sample hdr / 8 = 4) as Hb4 by (by rewrite Hbits).
  set (spc := data_chunk_size hdr / wf_channels hdr
              / (wf_bits_per_sample hdr / 8)) in *.
  rewrite Hb4 in Hfit.
  set (buf := int32_view _) in *.
  set (wav := mk_audio _ _ _ _ _ _).
  assert (0 <= samples_per_sec hdr / 2 <= samples_per_sec hdr) as Hhalf.
  { split; [apply Z.div_pos; lia|].
    apply Z.div_le_upper_bound; lia. }
  destruct (scan_defined fuel wav buf) as (ms & -> & Hms & Hall);
    change (sample_rate wav) with (samples_per_sec hdr);
    change (channels wav) with (wf_channels hdr);
    change (samples_per_chan wav) with spc; try nia.
  cbn [mbind option_bind]. change (freqs_per_chan wav) with nfreqs_arg.
  destruct (Z.eqb_spec nfreqs_arg 0) as [|_]; [done|].
  unfold fill_desired_freqs.
  change (freqs_per_chan wav) with nfreqs_arg.
  change (channels wav) with (wf_channels hdr).
  rewrite decide_False by done.
  rewrite (u32_small (wf_channels hdr + 1)) by lia.
  rewrite decide_False by lia.
  unfold delta_c, delta_f.
  change (freqs_per_chan wav) with nfreqs_arg.
  change (channels wav) with (wf_channels hdr).
  change (sample_rate wav) with (samples_per_sec hdr).
  rewrite (u32_small (wf_channels hdr + 1)) by lia. fold df.
  assert ((df =? 0) || (df / (wf_channels hdr + 1) =? 0) = true) as ->.
  { apply orb_true_iff. rewrite !Z.eqb_eq. done. }
  cbn [mbind option_bind]. simpl. returns_minus_one.
Qed.

End Comparison.

(** Refutes [header_violation] for a header with concrete fields. *)
Ltac accepted_header :=
  let Hv := fresh "Hv" in
  unfold header_violation; intros Hv;
  repeat (destruct Hv as [Hv|Hv]); vm_compute in Hv;
  try discriminate; apply Hv; auto.

Lemma main_rejects_missing_data_witness :
  let stdin := riff_header (mk_audio 1 1 32 3 0 3) 12 ++ [1; 2; 3; 4; 5] in
  exists o, @Analyzer.main plain_externals 9 0 stdin = Some o /\
            main_ret o = -1 /\ exit_status o <> 0 /\ stdout o = [].
Proof.
  intros stdin.
  apply (@main_rejects_missing_data plain_externals 9 0 stdin).
  - apply (bool_decide_unpack _). vm_compute. exact I.
  - vm_compute. reflexivity.
  - replace (decode_header (take riff_size stdin))
      with (mk_wav_format 1 1 1 4 4 32 12) by (vm_compute; reflexivity).
    accepted_header.
  - right. vm_compute. reflexivity.
Defined.

Lemma main_reads_past_buffer_below_32_bits_witness :
  let stdin := riff_header (mk_audio 1 1 16 3 0 3) 6 ++ [1; 2; 3; 4; 5; 6] in
  @Analyzer.main plain_externals 9 0 stdin = None.
Proof.
  intros stdin.
  apply (@main_reads_past_buffer_below_32_bits plain_externals 9 0 stdin).
  - apply (bool_decide_unpack _). vm_compute. exact I.
  - reflexivity.
  - replace (decode_header (take riff_size stdin))
      with (mk_wav_format 1 1 1 2 2 16 6) by (vm_compute; reflexivity).
    accepted_header.
  - vm_compute. discriminate.
  - vm_compute. reflexivity.
  - vm_compute. discriminate.
Defined.

Lemma main_reports_every_channel_witness :
  let stdin := riff_header (mk_audio 1 1 32 3 0 3) 12
               ++ [1; 2; 3; 4; 5; 6; 7; 8; 9; 10; 11; 12] in
  exists ms,
    @Analyzer.main plain_externals 13 0 stdin
      = Some (mk_outcome 0
                (mjoin (imap (fun c m => print_found (Z.of_nat c) m) ms))) /\
    length ms = 1%nat /\
    Forall (fun m => 0 <= m_nfreqs m <= MAX_FREQS_PER_CHAN - 1 /\
                     length (detected m) = Z.to_nat (m_nfreqs m)) ms.
Proof.
  intros stdin.
  apply (@main_reports_every_channel plain_externals 13 stdin).
  - apply (bool_decide_unpack _). vm_compute. exact I.
  - reflexivity.
  - replace (decode_header (take riff_size stdin))
      with (mk_wav_format 1 1 1 4 4 32 12) by (vm_compute; reflexivity).
    accepted_header.
  - vm_compute. reflexivity.
  - vm_compute. reflexivity.
  - vm_compute. reflexivity.
  - vm_compute. discriminate.
  - vm_compute. reflexivity.
Defined.

Lemma main_comparison_without_range_witness :
  let stdin := riff_header (mk_audio 1 402 32 3 0 1206) 4824
               ++ replicate 4824 0 in
  exists o, @Analyzer.main plain_externals 5000 2 stdin = Some o /\
            main_ret o = -1 /\ exit_status o <> 0 /\ stdout o = [].
Proof.
  intros stdin.
  apply (@main_comparison_without_range plain_externals 5000 2 stdin).
  - apply (bool_decide_unpack _). vm_compute. exact I.
  - reflexivity.
  - replace (decode_header (take riff_size stdin))
      with (mk_wav_format 1 1 402 1608 4 32 4824) by (vm_compute; reflexivity).
    accepted_header.
  - vm_compute. reflexivity.
  - vm_compute. reflexivity.
  - vm_compute. reflexivity.
  - vm_compute. discriminate.
  - vm_compute. reflexivity.
  - lia.
  - left. vm_compute. reflexivity.
Defined.

Example main_on_three_samples :
  @Analyzer.main plain_externals 13 0
    (riff_header (mk_audio 1 1 32 3 0 3) 12
     ++ [1; 2; 3; 4; 5; 6; 7; 8; 9; 10; 11; 12])
  = Some (mk_outcome 0 [Found_header 0 zero; None_found]).
Proof. vm_compute. reflexivity. Qed.


(** ** The comparison report *)

(** X16. The report of one channel in closed form. For the arrays [main]
    allocates, the comparison prints the header, then one line per
    expected frequency in plan order ("ok" with the difference to the
    detected entry at the same index when the frequency is listed, "KO"
    otherwise), and then, only when fewer expected frequencies were
    found than frequencies were detected, the header of the unexpected
    section and the detected frequencies that are not within 1 Hz of one
    of the first 64 expected ones, in detection order. *)
Theorem compare_channel_report (c : Z) (m : channel_mem) (efreqs : list Z)
    (wav : audio) :
  is_u32 (freqs_per_chan wav) ->
  length efreqs = Z.to_nat (freqs_per_chan wav) ->
  0 <= m_nfreqs m <= MAX_FREQS_PER_CHAN - 1 ->
  length (m_freqs m) = Z.to_nat MAX_FREQS_PER_CHAN ->
  (forall (i : nat) e, efreqs !! i = Some e ->
     freq_is_listed (m_freqs m) (m_nfreqs m) e = true ->
     (i < Z.to_nat MAX_FREQS_PER_CHAN)%nat) ->
  compare_channel c m efreqs wav =
    Some (Expected_header c (m_nfreqs m =? 0) (m_max_thresh m)
          :: imap (expected_line m) efreqs
          ++ (if found_count m efreqs <? m_nfreqs m
              then Not_expected_header c
                   :: spurious_lines m efreqs (freqs_per_chan wav)
              else [])).
Proof.
  intros Hn Hlen Hnf Hclen Hdef.
  unfold is_u32, UINT_MAX, MAX_FREQS_PER_CHAN in *.
  set (P := fun e => freq_is_listed (m_freqs m) (m_nfreqs m) e = true) in *.
  set (header := Expected_header c (m_nfreqs m =? 0) (m_max_thresh m)).
  destruct (for_range_inv
    (fun k (st : Z * list line) =>
       st.1 = Z.of_nat (length (filter P (take (Z.to_nat k) efreqs))) /\
       st.2 = header :: imap (expected_line m) (take (Z.to_nat k) efreqs))
    (expected_step (m_freqs m) (m_nfreqs m) efreqs)
    (Z.to_nat (freqs_per_chan wav)) 0 (0, [header]))
    as (st & Hrun & Hcount & Hlines).
  { done. }
  { intros k [fnd out] Hk [Hf Hout]. simpl in Hf, Hout.
    destruct (lookup_lt_is_Some_2 efreqs (Z.to_nat k)) as [e He]; [lia|].
    unfold expected_step. rewrite He. simpl.
    replace (Z.to_nat (k + 1)) with (Datatypes.S (Z.to_nat k)) by lia.
    rewrite (matched_count_step P efreqs _ e He).
    rewrite (take_S_r _ _ _ He), imap_app. simpl.
    rewrite length_take, Nat.min_l by lia. rewrite Nat.add_0_r.
    destruct (decide (P e)) as [E|E]; unfold P in E;
      [|apply not_true_is_false in E].
    - assert (expected_line m (Z.to_nat k) e
              = Expected_ok k e
                  (to_int32 (u32 (m_freqs m !!! Z.to_nat k - e)))) as ->
        by (unfold expected_line; rewrite E, Z2Nat.id by lia; done).
      rewrite E. simpl.
      pose proof (Hdef _ _ He E) as Hlt.
      destruct (lookup_lt_is_Some_2 (m_freqs m) (Z.to_nat k)) as [d Hd];
        [lia|].
      rewrite Hd. simpl. rewrite (list_lookup_total_correct _ _ _ Hd).
      eexists. split; [reflexivity|]. simpl. split.
      + pose proof (length_filter P (take (Z.to_nat k) efreqs)) as Hle.
        rewrite length_take in Hle. rewrite u32_small by lia. lia.
      + by rewrite Hout.
    - assert (expected_line m (Z.to_nat k) e = Expected_ko k e) as ->
        by (unfold expected_line; rewrite E, Z2Nat.id by lia; done).
      rewrite E. simpl.
      eexists. split; [reflexivity|]. simpl. split; [lia|]. by rewrite Hout. }
  replace (Z.to_nat (0 + Z.of_nat (Z.to_nat (freqs_per_chan wav))))
    with (length efreqs) in Hcount, Hlines by lia.
  rewrite firstn_all in Hcount, Hlines.
  subst header. unfold compare_channel. rewrite Hrun. simpl. rewrite Hcount, Hlines.
  unfold found_count. fold P.
  destruct (Z.ltb_spec (Z.of_nat (length (filter P efreqs))) (m_nfreqs m))
    as [Hshort|Hfull]; [|by rewrite app_nil_r].
  set (Q := fun d => freq_is_listed efreqs (freqs_per_chan wav) d = false).
  set (base := (Expected_header c (m_nfreqs m =? 0) (m_max_thresh m)
                :: imap (expected_line m) efreqs)
               ++ [Not_expected_header c]).
  destruct (for_range_inv
    (fun k (out : list line) =>
       out = base ++ (Spurious <$> filter Q (take (Z.to_nat k) (m_freqs m))))
    (spurious_step efreqs (freqs_per_chan wav) (m_freqs m))
    (Z.to_nat (m_nfreqs m)) 0 base) as (out & Hrun2 & Hout).
  { simpl. by rewrite app_nil_r. }
  { intros k out Hk ->.
    destruct (lookup_lt_is_Some_2 (m_freqs m) (Z.to_nat k)) as [d Hd];
      [lia|].
    unfold spurious_step. rewrite Hd. simpl.
    replace (Z.to_nat (k + 1)) with (Datatypes.S (Z.to_nat k)) by lia.
    rewrite (take_S_r _ _ _ Hd), filter_app, fmap_app, filter_cons.
    destruct (decide (Q d)) as [E|E]; unfold Q in E.
    - rewrite E. simpl. eexists. split; [reflexivity|].
      by rewrite <- app_assoc.
    - apply not_false_is_true in E. rewrite E. simpl.
      eexists. split; [reflexivity|]. by rewrite app_nil_r. }
  rewrite Hrun2, Hout. unfold base.
  rewrite Z.add_0_l, Z2Nat.id by lia.
  unfold spurious_lines, detected. fold Q.
  rewrite <- app_assoc. done.
Qed.

Lemma compare_channel_report_witness :
  let wav := mk_audio 1 48000 32 10 4 480000 in
  let m := mk_mem [] ([200; 1000; 6150; 12100] ++ replicate 60 0)
                  4 (of_Z 100) in
  let efreqs := [200; 6150; 12100; 18050] in
  compare_channel 0 m efreqs wav =
    Some (Expected_header 0 (m_nfreqs m =? 0) (m_max_thresh m)
          :: imap (expected_line m) efreqs
          ++ (if found_count m efreqs <? m_nfreqs m
              then Not_expected_header 0
                   :: spurious_lines m efreqs (freqs_per_chan wav)
              else [])).
Proof.
  intros wav m efreqs.
  apply (compare_channel_report 0 m efreqs wav).
  - unfold is_u32, UINT_MAX. simpl. lia.
  - reflexivity.
  - unfold MAX_FREQS_PER_CHAN. simpl. lia.
  - reflexivity.
  - intros i e Hi _. apply lookup_lt_Some in Hi.
    unfold MAX_FREQS_PER_CHAN. simpl in Hi. lia.
Defined.


(** ** The wave synthesizer *)

Section Synthesis.
Context `{Externals}.

Lemma tone_loop (wave : list double) (freqs : list Z) (wav : audio)
    (s : Z) (w : double) :
  0 <= s -> wave !! Z.to_nat s = Some w ->
  for_range (length freqs) 0 (fun f wave =>
      w ← wave !! Z.to_nat s;
      fr ← freqs !! Z.to_nat f;
      Some (<[Z.to_nat s := add w (tone_sample fr s (sample_rate wav))]> wave))
    wave
  = Some (<[Z.to_nat s := tone_sum w freqs s (sample_rate wav)]> wave).
Proof.
  intros Hs Hw.
  destruct (for_range_inv
    (fun k wv => wv = <[Z.to_nat s :=
                   tone_sum w (take (Z.to_nat k) freqs) s (sample_rate wav)]>
                 wave)
    (fun f wave =>
      w ← wave !! Z.to_nat s;
      fr ← freqs !! Z.to_nat f;
      Some (<[Z.to_nat s := add w (tone_sample fr s (sample_rate wav))]> wave))
    (length freqs) 0 wave) as (wv & Hrun & Hwv).
  - simpl. symmetry. by apply list_insert_id.
  - intros k wv Hk ->.
    rewrite list_lookup_insert_eq by (by apply lookup_lt_Some in Hw).
    simpl.
    destruct (lookup_lt_is_Some_2 freqs (Z.to_nat k)) as [fr Hfr]; [lia|].
    rewrite Hfr. simpl. eexists. split; [reflexivity|].
    rewrite list_insert_insert_eq.
    replace (Z.to_nat (k + 1)) with (Datatypes.S (Z.to_nat k)) by lia.
    rewrite (take_S_r _ _ _ Hfr). unfold tone_sum. by rewrite foldl_app.
  - rewrite Hrun, Hwv. rewrite Z.add_0_l, Nat2Z.id, firstn_all. done.
Qed.

(** X17. [fill_audio_wave] in closed form. With one entry of [freqs] per tone
    and a buffer of at least [samples_per_chan] samples, sample [s]
    becomes the sum of what the buffer held at [s] and of the tones at
    [s], added in plan order, divided by the number of tones; the
    samples from [samples_per_chan] on are left as they were. The result
    is the normalized sum of sines only for a zero-filled buffer. *)
Theorem fill_audio_wave_closed_form (wave : list double) (freqs : list Z)
    (wav : audio) :
  length freqs = Z.to_nat (freqs_per_chan wav) ->
  0 <= samples_per_chan wav <= Z.of_nat (length wave) ->
  Generator.fill_audio_wave wave freqs wav =
    Some (imap (fun s w =>
            if decide (Z.of_nat s < samples_per_chan wav)
            then div (tone_sum w freqs (Z.of_nat s) (sample_rate wav))
                     (of_Z (freqs_per_chan wav))
            else w) wave).
Proof.
  intros Hfreqs Hspc. unfold Generator.fill_audio_wave.
  set (closed := fun (s : nat) w =>
         div (tone_sum w freqs (Z.of_nat s) (sample_rate wav))
             (of_Z (freqs_per_chan wav))).
  destruct (for_range_inv
    (fun k wv => wv = imap (fun s w =>
                   if decide (Z.of_nat s < k) then closed s w else w) wave)
    (fun s wave =>
       wave1 ← for_range (Z.to_nat (freqs_per_chan wav)) 0 (fun f wave =>
                  w ← wave !! Z.to_nat s;
                  fr ← freqs !! Z.to_nat f;
                  Some (<[Z.to_nat s :=
                          add w (tone_sample fr s (sample_rate wav))]> wave))
                wave;
       w ← wave1 !! Z.to_nat s;
       Some (<[Z.to_nat s := div w (of_Z (freqs_per_chan wav))]> wave1))
    (Z.to_nat (samples_per_chan wav)) 0 wave) as (wv & Hrun & Hwv).
  - apply list_eq. intros j. rewrite list_lookup_imap.
    destruct (wave !! j) as [w|]; [|done]. simpl.
    rewrite decide_False by lia. done.
  - intros k wv Hk ->.
    destruct (lookup_lt_is_Some_2 wave (Z.to_nat k)) as [w Hw]; [lia|].
    assert (imap (fun s w => if decide (Z.of_nat s < k) then closed s w else w)
              wave !! Z.to_nat k = Some w) as Hcur.
    { rewrite list_lookup_imap, Hw. simpl. rewrite decide_False by lia. done. }
    rewrite <- Hfreqs. rewrite (tone_loop _ freqs wav k w) by (lia || done).
    cbn [mbind option_bind].
    rewrite list_lookup_insert_eq
      by (rewrite length_imap; by apply lookup_lt_Some in Hw).
    cbn [mbind option_bind]. eexists. split; [reflexivity|].
    rewrite list_insert_insert_eq.
    apply list_eq. intros j.
    rewrite list_lookup_insert, length_imap, !list_lookup_imap.
    destruct (decide (Z.to_nat k = j /\ (Z.to_nat k < length wave)%nat))
      as [[<- _]|Hne].
    + rewrite Hw. simpl. rewrite decide_True by lia.
      unfold closed. by rewrite Z2Nat.id by lia.
    + destruct (wave !! j) as [w'|] eqn:Hj; [|done]. simpl.
      assert (j <> Z.to_nat k).
      { intros ->. apply Hne. split; [done|]. by apply lookup_lt_Some in Hj. }
      destruct (decide (Z.of_nat j < k)).
      * rewrite decide_True by lia. done.
      * rewrite decide_False by lia. done.
  - rewrite Hrun, Hwv. f_equal. apply imap_ext. intros j w _.
    destruct (decide (Z.of_nat j < samples_per_chan wav)).
    + rewrite decide_True by lia. done.
    + rewrite decide_False by lia. done.
Qed.

End Synthesis.

Lemma fill_audio_wave_closed_form_witness :
  let wav := mk_audio 1 8000 16 1 2 3 in
  let wave := [zero; zero; zero; of_Z 7] in
  let freqs := [200; 2000] in
  @Generator.fill_audio_wave plain_externals wave freqs wav =
    Some (imap (fun s w =>
            if decide (Z.of_nat s < samples_per_chan wav)
            then div (@tone_sum plain_externals w freqs (Z.of_nat s)
                        (sample_rate wav))
                     (of_Z (freqs_per_chan wav))
            else w) wave).
Proof.
  intros wav wave freqs.
  apply (@fill_audio_wave_closed_form plain_externals wave freqs wav).
  - reflexivity.
  - simpl. lia.
Defined.

(** ** The generator's buffer *)

Lemma for_range_preserves {S : Type} (P : S -> Prop)
    (body : Z -> S -> option S) (n : nat) (lo : Z) (s s' : S) :
  (forall k t t', P t -> body k t = Some t' -> P t') ->
  P s -> for_range n lo body s = Some s' -> P s'.
Proof.
  intros Hbody. revert lo s. induction n as [|n IH]; intros lo s Hs Hrun.
  - injection Hrun as <-. done.
  - simpl in Hrun. destruct (body lo s) as [t|] eqn:E; [|done].
    simpl in Hrun. eapply IH; [|exact Hrun]. by eapply Hbody.
Qed.

Lemma for_range_none_inv {S : Type} (P : S -> Prop)
    (body : Z -> S -> option S) (n : nat) (lo k : Z) (s : S) :
  lo <= k < lo + Z.of_nat n ->
  (forall j t t', P t -> body j t = Some t' -> P t') ->
  (forall t, P t -> body k t = None) ->
  P s -> for_range n lo body s = None.
Proof.
  intros Hk Hbody Hnone. revert lo s Hk.
  induction n as [|n IH]; intros lo s Hk Hs; [lia|].
  simpl. destruct (decide (k = lo)) as [->|Hne].
  - by rewrite Hnone.
  - destruct (body lo s) as [t|] eqn:E; [|done]. simpl.
    apply IH; [lia|]. by eapply Hbody.
Qed.

Lemma put_sample_length (buf buf' : list Z) (waves : list (list double))
    (wav : audio) (s c : Z) :
  put_sample buf waves wav s c = Some buf' -> length buf' = length buf.
Proof.
  unfold put_sample. intros Hput.
  destruct (waves !! Z.to_nat c) as [row|]; [|done]. simpl in Hput.
  destruct (row !! Z.to_nat s) as [x|]; [|done]. simpl in Hput.
  destruct (quantize _ x) as [q|]; [|done]. simpl in Hput.
  destruct (decide _); [|done]. injection Hput as <-.
  apply length_insert.
Qed.

(** X18. The generator sizes its buffer with
    [channels * samples_per_chan * bits_per_sample / 8] in 32-bit
    arithmetic. When the product reaches 2^32 while the sample count
    still fits 32 bits, a buffer of [data_sz] bytes holds fewer samples
    than [fill_audio_buf] stores, and [fill_audio_buf] writes beyond its
    end, whatever the waveforms are. *)
Theorem fill_audio_buf_overruns_wrapped_buffer (waves : list (list double))
    (wav : audio) :
  bits_per_sample wav = 16 \/ bits_per_sample wav = 32 ->
  1 <= channels wav -> 1 <= samples_per_chan wav ->
  channels wav * samples_per_chan wav <= 2 ^ 32 ->
  2 ^ 32 <= channels wav * samples_per_chan wav * bits_per_sample wav ->
  let buf := replicate (Z.to_nat (Generator.data_sz wav
                                  / (bits_per_sample wav / 8))) 0 in
  Z.of_nat (length buf) < channels wav * samples_per_chan wav /\
  fill_audio_buf buf waves wav = None.
Proof.
  intros Hbits HC HS Hwrap Hbig buf.
  assert (Z.of_nat (length buf) < channels wav * samples_per_chan wav)
    as Hshort.
  { unfold buf. rewrite length_replicate. unfold Generator.data_sz.
    pose proof (u32_range (u32 (channels wav * samples_per_chan wav)
                           * bits_per_sample wav)) as Hu.
    set (d := u32 (u32 (channels wav * samples_per_chan wav)
                   * bits_per_sample wav)) in *.
    assert (0 <= d / 8 < 2 ^ 29)
      by (split; [apply Z.div_pos; lia|apply Z.div_lt_upper_bound; lia]).
    destruct Hbits as [Hb|Hb]; rewrite Hb in *.
    - change (16 / 8) with 2.
      assert (0 <= d / 8 / 2 < 2 ^ 28)
        by (split; [apply Z.div_pos; lia|apply Z.div_lt_upper_bound; lia]).
      lia.
    - change (32 / 8) with 4.
      assert (0 <= d / 8 / 4 < 2 ^ 27)
        by (split; [apply Z.div_pos; lia|apply Z.div_lt_upper_bound; lia]).
      lia. }
  split; [done|]. unfold fill_audio_buf.
  assert ((bits_per_sample wav =? 16) || (bits_per_sample wav =? 32) = true)
    as -> by (destruct Hbits as [-> | ->]; done).
  apply (for_range_none_inv (fun b => length b = length buf) _ _ 0
           (samples_per_chan wav - 1)); [lia| | |done].
  - intros s b b' Hb Hrun. rewrite <- Hb.
    apply (for_range_preserves (fun t => length t = length b) _ _ _ _ _
             (fun c t t' Ht Hput =>
                eq_trans (put_sample_length _ _ _ _ _ _ Hput) Ht)
             eq_refl Hrun).
  - intros b Hb.
    apply (for_range_none_inv (fun t => length t = length buf) _ _ 0
             (channels wav - 1)); [lia| | |done].
    + intros c t t' Ht Hput.
      by rewrite (put_sample_length _ _ _ _ _ _ Hput).
    + intros t Ht. unfold put_sample.
      destruct (waves !! _) as [row|]; [|done]. simpl.
      destruct (row !! _) as [x|]; [|done]. simpl.
      destruct (quantize _ x) as [q|]; [|done]. simpl.
      assert (0 <= (samples_per_chan wav - 1) * channels wav
                   + (channels wav - 1) < 2 ^ 32) by nia.
      rewrite (u32_small ((samples_per_chan wav - 1) * channels wav)) by nia.
      rewrite u32_small by lia.
      rewrite decide_False; [done|]. rewrite Ht. nia.
Qed.

Lemma fill_audio_buf_overruns_wrapped_buffer_witness :
  let wav := mk_audio 2 48000 32 1400 4 67200000 in
  let waves := replicate 2 (replicate (Z.to_nat 67200000) zero) in
  let buf := replicate (Z.to_nat (Generator.data_sz wav
                                  / (bits_per_sample wav / 8))) 0 in
  Z.of_nat (length buf) < channels wav * samples_per_chan wav /\
  fill_audio_buf buf waves wav = None.
Proof.
  intros wav waves.
  apply (fill_audio_buf_overruns_wrapped_buffer waves wav).
  - right. reflexivity.
  - simpl. lia.
  - simpl. lia.
  - simpl. lia.
  - simpl. lia.
Defined.

Example data_sz_wraps :
  Generator.data_sz (mk_audio 2 48000 32 1400 4 67200000) = 729088.
Proof. vm_compute. reflexivity. Qed.
